(** * The Gleam chess tournament runner: scheduler, game loop, result store

  A shallow embedding of the tournament runner ([runner/src/game.ts] and the
  script that turns its outcomes into standings) and the properties of its
  scheduler, of the
  per-turn retry protocol, of the game loop, of the resumable result store
  and of the points reducer.

  Conventions of the embedding.
  - JavaScript arrays are lists; [push] appends at the end.
  - A JavaScript [number] holding a count is a [nat] or a [Z]; the points
    of a bot are multiples of one half, which doubles add without rounding,
    and are kept as rationals ([Q]); times are whole milliseconds.
  - The chess rules engine (chess.js) and the network are interfaces
    ([RulesEngine], [Network]); every definition of the game is
    parametric in them.
  - Effects are explicit: a [World] is threaded through every function
    that awaits something. It holds the network with the log of the move
    requests, the result files and the log of the docker commands.
  - The [while] of [gameLoop] has no bound of its own; its model takes the
    number of turns it may play and returns [None] when they run out.
  - Console output is left out. Docker commands and file operations are
    taken to succeed, and a result file to hold the JSON of an outcome. *)

From Stdlib Require Import ZArith QArith Ascii String List Lia.
From stdpp Require Import base option list strings gmap pretty.

(** ** The scheduler: pairings and resource groups *)

(** A pairing [[v, w]] of two entrants. *)
Definition Pair : Type := string * string.

(** [Array.prototype.reduce] with the index passed to the callback,
    started at index [i] on the rest [l] of the array. *)
Fixpoint reduce {A B : Type} (f : B -> A -> nat -> B)
    (i : nat) (l : list A) (acc : B) : B :=
  match l with
  | [] => acc
  | v :: l' => reduce f (S i) l' (f acc v i)
  end.

(** [permutations]: every entrant with every later entrant. *)
Definition permutations (array : list string) : list Pair :=
  reduce
    (fun acc v i => acc ++ map (fun w => (v, w)) (drop (i + 1) array))
    0 array [].

(** [pair.includes(x)] *)
Definition includes (pair : Pair) (x : string) : bool :=
  bool_decide (pair.1 = x) || bool_decide (pair.2 = x).

(** [Math.floor((os.cpus().length - 2) / 4)] *)
Definition pairsPerGroup (cpus : nat) : Z := ((Z.of_nat cpus - 2) `div` 4)%Z.

(** The callback of [groups.find]: the group has room and none of its
    pairs shares a player with [pair]. *)
Definition available (pairsPerGroup : Z) (pair : Pair)
    (group : list Pair) : bool :=
  bool_decide (Z.of_nat (length group) < pairsPerGroup)%Z
  && negb (existsb (fun p => includes pair p.1 || includes pair p.2) group).

(** One iteration of [for (const pair of pairs)]: [find] returns the first
    available group, which is then extended in place, or a new group is
    pushed. *)
Definition placePair (pairsPerGroup : Z) (groups : list (list Pair))
    (pair : Pair) : list (list Pair) :=
  match list_find (fun group => available pairsPerGroup pair group = true)
          groups with
  | None => groups ++ [[pair]]
  | Some (i, _) => alter (fun group => group ++ [pair]) i groups
  end.

Definition makeGroups (pairsPerGroup : Z) (pairs : list Pair)
    : list (list Pair) :=
  foldl (placePair pairsPerGroup) [] pairs.

(** The groups [playRoundRobin] builds for the entrants [names] on a
    machine with [cpus] cores. *)
Definition roundRobinGroups (cpus : nat) (names : list string)
    : list (list Pair) :=
  makeGroups (pairsPerGroup cpus) (permutations names).

(** The number of pairings of a group in which entrant [e] plays. *)
Definition appearances (e : string) (group : list Pair) : nat :=
  length (filter (fun p => includes p e = true) group).

(** A recursive description of [permutations], used in the proofs. *)
Fixpoint pairings (l : list string) : list Pair :=
  match l with
  | [] => []
  | v :: l' => map (fun w => (v, w)) l' ++ pairings l'
  end.

(** The invariant of the groups: no entrant in two pairings, at most
    [capacity] pairings. *)
Definition groupOk (capacity : Z) (group : list Pair) : Prop :=
  (∀ e, appearances e group ≤ 1) ∧ (Z.of_nat (length group) ≤ capacity)%Z.

(** ** Configuration ([config.ts]) *)

Definition MAX_ATTEMPTS_PER_TURN : nat := 3.
Definition MAX_TIMEOUTS_PER_GAME : nat := 15.
Definition POINTS_PER_WIN : Q := 1.
Definition POINTS_PER_DRAW : Q := 1 # 2.
Definition POINTS_PER_LOSS : Q := 0.

(** ** Results ([result.ts]) *)

Inductive Result (T E : Type) : Type :=
| Ok (data : T)
| Error (error : E).
Arguments Ok {T E} data.
Arguments Error {T E} error.

(** ** Players, turn errors and outcomes *)

Inductive Player : Type := white | black.

#[global] Instance Player_eq_dec : EqDecision Player.
Proof. solve_decision. Defined.

(** [Record<Player, string>] *)
Record Players : Type := mkPlayers { pl_white : string; pl_black : string }.

(** [players[player]] *)
Definition playerOf (players : Players) (player : Player) : string :=
  match player with
  | white => pl_white players
  | black => pl_black players
  end.

(** The text of a [Player] inside a template string. *)
Definition playerText (player : Player) : string :=
  match player with
  | white => "white"
  | black => "black"
  end.

(** chess.js [Color] *)
Inductive Color : Type := ColorW | ColorB.

Definition colourToPlayer (colour : Color) : Player :=
  match colour with
  | ColorW => white
  | ColorB => black
  end.

(** [currentPlayer === "white" ? "black" : "white"] *)
Definition opponent (currentPlayer : Player) : Player :=
  match currentPlayer with
  | white => black
  | black => white
  end.

Inductive MoveError : Type :=
| TIMEOUT
| INVALID_MOVE (move : string)
| OUT_OF_MEMORY.

#[global] Instance MoveError_eq_dec : EqDecision MoveError.
Proof. solve_decision. Defined.

Record InvalidResponseError : Type := mkInvalidResponse {
  ire_message : string;
  ire_status : Z
}.

Inductive DrawReason : Type :=
| STALEMATE
| INSUFFICIENT_MATERIAL
| FIFTY_MOVES
| THREEFOLD_REPETITION
| OTHER.

Inductive ForfeitReason : Type :=
| OPPONENT_TIMEOUT
| OPPONENT_EXCEEDED_MAX_ATTEMPTS.

(** The three variants of the [GameOutcome] union. *)
Inductive Verdict : Type :=
| DRAW (reason : DrawReason)
| WIN_CHECKMATE (winner : string)
| WIN_FORFEIT (winner : string) (reason : ForfeitReason)
    (opponentErrors : list MoveError).

Inductive OutcomeType : Type := TYPE_WIN | TYPE_DRAW.

(** [outcome.type] *)
Definition verdictType (v : Verdict) : OutcomeType :=
  match v with
  | DRAW _ => TYPE_DRAW
  | WIN_CHECKMATE _ | WIN_FORFEIT _ _ _ => TYPE_WIN
  end.

(** [outcome.winner], absent on a draw *)
Definition verdictWinner (v : Verdict) : option string :=
  match v with
  | DRAW _ => None
  | WIN_CHECKMATE winner | WIN_FORFEIT winner _ _ => Some winner
  end.

(** [GameOutcome], over the type [M] of its recorded moves. *)
Record GameOutcome (M : Type) : Type := mkOutcome {
  o_players : Players;
  o_pgn : string;
  o_durationMs : Z;
  o_moves : list M;
  o_verdict : Verdict
}.
Arguments mkOutcome {M}.
Arguments o_players {M}.
Arguments o_pgn {M}.
Arguments o_durationMs {M}.
Arguments o_moves {M}.
Arguments o_verdict {M}.

(** [`Invalid response from ${name} as ${player}: ${status} ${message}`] *)
Definition invalidResponseMessage (name : string) (player : Player)
    (e : InvalidResponseError) : string :=
  "Invalid response from " +:+ name +:+ " as " +:+ playerText player +:+ ": "
  +:+ pretty (ire_status e) +:+ " " +:+ ire_message e.

(** ** The two external collaborators *)

(** What the runner uses of chess.js. [move] is [chess.move(text, { strict:
    false })] under [Result.try]: [None] when it throws (the position is then
    unchanged), the move object and the new position otherwise. [loadPgn] is
    [new Chess()] followed by [loadPgn(pgn, { strict: false })]. *)
Class RulesEngine : Type := {
  Chess : Type;
  ChessJsMove : Type;
  loadPgn : string -> Chess;
  turn : Chess -> Color;
  fen : Chess -> string;
  pgn : Chess -> string;
  move : Chess -> string -> option (ChessJsMove * Chess);
  isGameOver : Chess -> bool;
  isDraw : Chess -> bool;
  isStalemate : Chess -> bool;
  isInsufficientMaterial : Chess -> bool;
  isDrawByFiftyMoves : Chess -> bool;
  isThreefoldRepetition : Chess -> bool;
  isCheckmate : Chess -> bool
}.

(** The body of a move request, and the bot it is sent to (the port in the
    URL is [PORTS[players[player]]]). *)
Record Request : Type := mkRequest {
  r_bot : string;
  r_fen : string;
  r_turn : Player;
  r_failed_moves : list string
}.

(** What [Result.tryAsync(fetch ...)] yields: the promise is rejected with
    an error of the given [name], or a response arrives. *)
Inductive FetchResult : Type :=
| Rejected (name : string)
| Responded (ok : bool) (status : Z) (text : string).

(** The outside of the runner: the bots behind their ports and the clock
    read by [performance.now()]. *)
Class Network : Type := {
  Net : Type;
  fetch : Net -> Request -> FetchResult * Net;
  now : Net -> Z;
  sleep : Z -> Net -> Net
}.

Inductive DockerEvent : Type :=
| DockerRun (name : string) (player : Player)
| DockerStop (name : string) (player : Player).

#[global] Instance DockerEvent_eq_dec : EqDecision DockerEvent.
Proof. solve_decision. Defined.

(** ** The game ([game.ts]) *)

Section Game.

Context {engine : RulesEngine} {network : Network}.

(** [interface Move extends ChessJsMove { durationMs: number }] *)
Record Move : Type := mkMove {
  chessMove : ChessJsMove;
  durationMs : Z
}.

Record MoveResponse : Type := mkMoveResponse {
  mr_move : option Move;
  mr_player : Player;
  mr_errors : list MoveError
}.

(** The state every awaited call acts on: the network with the log of the
    move requests made and of what came back, the result files (a result
    file holds the JSON text of one outcome, kept here as the outcome it
    parses to), and the log of the docker commands run. *)
Record World : Type := mkWorld {
  net : Net;
  exchanges : list (Request * FetchResult);
  files : gmap string (GameOutcome Move);
  docker : list DockerEvent
}.

(** [await Result.tryAsync(async () => await fetch(...))] *)
Definition doFetch (world : World) (request : Request)
    : FetchResult * World :=
  let '(result, net') := fetch (net world) request in
  (result,
   mkWorld net' (exchanges world ++ [(request, result)]) (files world)
     (docker world)).

Definition clock (world : World) : Z := now (net world).

(** The loop of [makeMove]; [remaining] is
    [MAX_ATTEMPTS_PER_TURN - attempt]. *)
Fixpoint makeMove_while (remaining : nat) (chess : Chess) (players : Players)
    (player : Player) (fen : string) (failedMoves : list string)
    (errors : list MoveError) (world : World)
    : Result MoveResponse InvalidResponseError * Chess * World :=
  match remaining with
  | 0 => (Ok (mkMoveResponse None player errors), chess, world)
  | S remaining' =>
    let startTime := clock world in
    let '(responseResult, world) :=
      doFetch world
        (mkRequest (playerOf players player) fen player failedMoves) in
    let durationMs := (clock world - startTime)%Z in
    match responseResult with
    | Rejected name =>
      let errors :=
        errors ++ [if bool_decide (name = "DOMException")
                   then TIMEOUT else OUT_OF_MEMORY] in
      makeMove_while remaining' chess players player fen failedMoves errors
        world
    | Responded false status text =>
      (Error (mkInvalidResponse text status), chess, world)
    | Responded true _ text =>
      match move chess text with
      | None =>
        makeMove_while remaining' chess players player fen
          (failedMoves ++ [text]) (errors ++ [INVALID_MOVE text]) world
      | Some (data, chess') =>
        (Ok (mkMoveResponse (Some (mkMove data durationMs)) player errors),
         chess', world)
      end
    end
  end.

Definition makeMove (chess : Chess) (players : Players) (world : World)
    : Result MoveResponse InvalidResponseError * Chess * World :=
  let player := colourToPlayer (turn chess) in
  let fen := fen chess in
  makeMove_while MAX_ATTEMPTS_PER_TURN chess players player fen [] [] world.

(** [const timeouts: Record<Player, number>] *)
Record Timeouts : Type := mkTimeouts { t_white : nat; t_black : nat }.

Definition timeoutsOf (timeouts : Timeouts) (player : Player) : nat :=
  match player with
  | white => t_white timeouts
  | black => t_black timeouts
  end.

(** [timeouts[player] += n] *)
Definition addTimeouts (timeouts : Timeouts) (player : Player) (n : nat)
    : Timeouts :=
  match player with
  | white => mkTimeouts (t_white timeouts + n) (t_black timeouts)
  | black => mkTimeouts (t_white timeouts) (t_black timeouts + n)
  end.

(** The variables of [gameLoop] that change from turn to turn. *)
Record LoopState : Type := mkLoopState {
  ls_chess : Chess;
  ls_currentPlayer : Player;
  ls_timeouts : Timeouts;
  ls_moves : list Move
}.

(** What follows the [while] of [gameLoop]. *)
Definition gameLoop_end (players : Players) (startTime : Z) (st : LoopState)
    (world : World) : Result (GameOutcome Move) string :=
  let chess := ls_chess st in
  let moves := ls_moves st in
  let durationMs := (clock world - startTime)%Z in
  let finalPgn := pgn chess in
  let draw reason :=
    Ok (mkOutcome players finalPgn durationMs moves (DRAW reason)) in
  if isDraw chess then
    if isStalemate chess then draw STALEMATE
    else if isInsufficientMaterial chess then draw INSUFFICIENT_MATERIAL
    else if isDrawByFiftyMoves chess then draw FIFTY_MOVES
    else if isThreefoldRepetition chess then draw THREEFOLD_REPETITION
    else draw OTHER
  else if isCheckmate chess then
    Ok (mkOutcome players finalPgn durationMs moves
          (WIN_CHECKMATE (playerOf players (ls_currentPlayer st))))
  else Error "unknown game state".

(** One pass through the body of the [while] of [gameLoop]: either the
    function returns, or the loop goes on from a new state. *)
Inductive TurnStep : Type :=
| Return (result : Result (GameOutcome Move) string) (world : World)
| Continue (st : LoopState) (world : World).

Definition gameTurn (players : Players) (startTime : Z) (st : LoopState)
    (world : World) : TurnStep :=
  let currentPlayer := colourToPlayer (turn (ls_chess st)) in
  let otherPlayer := opponent currentPlayer in
  let '(moveResult, chess, world) := makeMove (ls_chess st) players world in
  match moveResult with
  | Error e =>
    Return
      (Error (invalidResponseMessage (playerOf players currentPlayer)
                currentPlayer e))
      world
  | Ok response =>
    let errors := mr_errors response in
    match mr_move response with
    | None =>
      Return
        (Ok (mkOutcome players (pgn chess) (clock world - startTime)%Z
               (ls_moves st)
               (WIN_FORFEIT (playerOf players otherPlayer)
                  OPPONENT_EXCEEDED_MAX_ATTEMPTS errors)))
        world
    | Some move =>
      let timeoutsOccurred := filter (fun err => err = TIMEOUT) errors in
      let timeouts :=
        addTimeouts (ls_timeouts st) currentPlayer (length timeoutsOccurred) in
      if bool_decide (MAX_TIMEOUTS_PER_GAME ≤ timeoutsOf timeouts currentPlayer)
      then
        Return
          (Ok (mkOutcome players (pgn chess) (clock world - startTime)%Z
                 (ls_moves st)
                 (WIN_FORFEIT (playerOf players otherPlayer)
                    OPPONENT_TIMEOUT errors)))
          world
      else
        Continue (mkLoopState chess currentPlayer timeouts
                    (ls_moves st ++ [move])) world
    end
  end.

(** [while (!chess.isGameOver()) { ... }] and what follows it; [fuel] bounds
    the number of turns played. *)
Fixpoint gameLoop_while (fuel : nat) (players : Players) (startTime : Z)
    (st : LoopState) (world : World)
    : option (Result (GameOutcome Move) string * World) :=
  match fuel with
  | 0 => None
  | S fuel' =>
    if isGameOver (ls_chess st) then
      Some (gameLoop_end players startTime st world, world)
    else
      match gameTurn players startTime st world with
      | Return result world' => Some (result, world')
      | Continue st' world' =>
        gameLoop_while fuel' players startTime st' world'
      end
  end.

(** The opening book: the text of the PGN file at a path (read only). *)
Context (readText : string -> string).

(** [await new Promise((resolve) => setTimeout(resolve, 1000))] *)
Definition settle (world : World) : World :=
  mkWorld (sleep 1000 (net world)) (exchanges world) (files world)
    (docker world).

Definition initialState (pgnPath : string) : LoopState :=
  mkLoopState (loadPgn (readText pgnPath)) white (mkTimeouts 0 0) [].

Definition gameLoop (fuel : nat) (players : Players) (pgnPath : string)
    (world : World) : option (Result (GameOutcome Move) string * World) :=
  let world := settle world in
  let startTime := clock world in
  gameLoop_while fuel players startTime (initialState pgnPath) world.

End Game.

(** ** The result store and the match runner ([game.ts]) *)

(** [s.split(sep)] for a separator of one character: never empty. *)
Fixpoint split (sep : ascii) (s : string) : list string :=
  match s with
  | EmptyString => [EmptyString]
  | String c s' =>
    if bool_decide (c = sep) then EmptyString :: split sep s'
    else
      match split sep s' with
      | [] => [String c EmptyString]
      | x :: xs => String c x :: xs
      end
  end.

(** [pgnPath.split(path.sep).pop()?.split("-")[0]]: the file name of the
    opening up to its first dash. *)
Definition pgnNumber (pgnPath : string) : string :=
  match last (split "/" pgnPath) with
  | None => EmptyString
  | Some name => default EmptyString (head (split "-" name))
  end.

Definition resultFileName (players : Players) (pgnPath : string) : string :=
  pl_white players +:+ "-" +:+ pl_black players +:+ "-"
  +:+ pgnNumber pgnPath +:+ ".json".

(** [path.join(dir, name)], for a directory that needs no normalising. *)
Definition path_join (dir name : string) : string := dir +:+ "/" +:+ name.

Section Match.

Context {engine : RulesEngine} {network : Network}.
Context (readText : string -> string).

(** [docker run ... --name name-player] and [docker stop name-player] are
    recorded in the order in which they are issued. *)
Definition dockerStart (name : string) (player : Player) (world : World)
    : World :=
  mkWorld (net world) (exchanges world) (files world)
    (docker world ++ [DockerRun name player]).

Definition dockerStop (name : string) (player : Player) (world : World)
    : World :=
  mkWorld (net world) (exchanges world) (files world)
    (docker world ++ [DockerStop name player]).

(** [Object.entries(players)] lists [white] before [black]. *)
Definition dockerStartAll (players : Players) (world : World) : World :=
  dockerStart (pl_black players) black
    (dockerStart (pl_white players) white world).

Definition dockerStopAll (players : Players) (world : World) : World :=
  dockerStop (pl_black players) black
    (dockerStop (pl_white players) white world).

Definition saveResult (players : Players) (outcome : GameOutcome Move)
    (pgnPath saveDir : string) (world : World) : World :=
  mkWorld (net world) (exchanges world)
    (<[path_join saveDir (resultFileName players pgnPath) := outcome]>
       (files world))
    (docker world).

Definition playAndSaveGame (fuel : nat) (players : Players)
    (pgnPath saveDir : string) (world : World)
    : option (Result (GameOutcome Move) string * World) :=
  let fileName := resultFileName players pgnPath in
  let resultsFile := path_join saveDir fileName in
  match files world !! resultsFile with
  | Some existingResults => Some (Ok existingResults, world)
  | None =>
    let world := dockerStartAll players world in
    match gameLoop readText fuel players pgnPath world with
    | None => None
    | Some (Error e, world) => Some (Error e, world)
    | Some (Ok data, world) =>
      let world := saveResult players data pgnPath saveDir world in
      let world := dockerStopAll players world in
      Some (Ok data, world)
    end
  end.

(** The text [playMatch] puts in front of the error of a failed game. *)
Definition matchFailure (first second message : string) : string :=
  "Game between " +:+ first +:+ " and " +:+ second +:+ " failed: "
  +:+ message.

(** Every opening twice, colours swapped, one game after the other; [fuel]
    bounds the turns of each game. *)
Fixpoint playMatch (fuel : nat) (player1 player2 : string)
    (pgnPaths : list string) (saveDir : string) (world : World)
    : option (Result unit string * World) :=
  match pgnPaths with
  | [] => Some (Ok tt, world)
  | pgnPath :: pgnPaths' =>
    let game1Players := mkPlayers player1 player2 in
    match playAndSaveGame fuel game1Players pgnPath saveDir world with
    | None => None
    | Some (Error e, world) =>
      Some (Error (matchFailure player1 player2 e), world)
    | Some (Ok _, world) =>
      let game2Players := mkPlayers player2 player1 in
      match playAndSaveGame fuel game2Players pgnPath saveDir world with
      | None => None
      | Some (Error e, world) =>
        Some (Error (matchFailure player2 player1 e), world)
      | Some (Ok _, world) =>
        playMatch fuel player1 player2 pgnPaths' saveDir world
      end
    end
  end.

(** The containers left running by a log of docker commands. *)
Definition running (log : list DockerEvent) : list (string * Player) :=
  foldl
    (fun up event =>
       match event with
       | DockerRun name player => up ++ [(name, player)]
       | DockerStop name player =>
         filter (fun c => c ≠ (name, player)) up
       end)
    [] log.

End Match.

(** ** Driving the groups ([playRoundRobin]) *)

(** What the tournament process has shown so far: the lines written by
    [console.error], the status given to [process.exit] if it was called,
    and the matches whose task ran to its end. *)
Record Process : Type := mkProcess {
  stderr : list string;
  exitCode : option Z;
  finishedMatches : list Pair
}.

(** The rest of a match task once [await playMatch(...)] has settled with
    [settled.2]: on an error the message is logged and the process exits
    with status 1; after [process.exit] no task runs any further. *)
Definition matchSettled (proc : Process)
    (settled : Pair * Result unit string) : Process :=
  match exitCode proc with
  | Some _ => proc
  | None =>
    match settled.2 with
    | Error message =>
      mkProcess (stderr proc ++ [message]) (Some 1%Z) (finishedMatches proc)
    | Ok _ =>
      mkProcess (stderr proc) None (finishedMatches proc ++ [settled.1])
    end
  end.

(** [await Promise.all(group.map(async ...))]: the tasks of a group run
    interleaved; [group] lists its matches in the order in which their
    [playMatch] settles, each with the result it settles with. *)
Definition runGroup (proc : Process)
    (group : list (Pair * Result unit string)) : Process :=
  foldl matchSettled proc group.

(** [for (const group of groups) { await Promise.all(...) }] *)
Definition runGroups (groups : list (list (Pair * Result unit string)))
    : Process :=
  foldl runGroup (mkProcess [] None []) groups.

(** [!matchResult.ok] *)
Definition failed (settled : Pair * Result unit string) : bool :=
  match settled.2 with
  | Error _ => true
  | Ok _ => false
  end.

(** The fatal error messages of the matches of a schedule. *)
Definition fatalMessages (settled : list (Pair * Result unit string))
    : list string :=
  omap (fun s => match s.2 with Error message => Some message | Ok _ => None end)
    settled.

(** ** Plain objects used as maps *)

(** The names of the members of [Object.prototype]. A plain object has a
    member under each of these names without having it as an own
    property; each of these members is an object or a function. *)
Definition objectPrototypeNames : list string :=
  ["constructor"; "toString"; "toLocaleString"; "valueOf";
   "hasOwnProperty"; "isPrototypeOf"; "propertyIsEnumerable"; "__proto__";
   "__defineGetter__"; "__defineSetter__"; "__lookupGetter__";
   "__lookupSetter__"].

Definition inherited (name : string) : bool :=
  bool_decide (name ∈ objectPrototypeNames).

(** What [obj[name]] finds on a plain object: the value of its own property
    [name], or else the member of [Object.prototype] of that name, or else
    [undefined]. *)
Inductive Member (A : Type) : Type :=
| OwnMember (value : A)
| InheritedMember
| NoMember.
Arguments OwnMember {A} value.
Arguments InheritedMember {A}.
Arguments NoMember {A}.

Definition memberOf {A : Type} (own : option A) (name : string) : Member A :=
  match own with
  | Some value => OwnMember value
  | None => if inherited name then InheritedMember else NoMember
  end.

Definition digitValue (c : ascii) : option N :=
  let code := N_of_ascii c in
  if ((48 <=? code) && (code <=? 57))%N then Some (code - 48)%N else None.

Fixpoint decimal (s : string) (acc : N) : option N :=
  match s with
  | EmptyString => Some acc
  | String c s' =>
    match digitValue c with
    | Some d => decimal s' (10 * acc + d)%N
    | None => None
    end
  end.

(** The array index a property key stands for: the key is the decimal
    numeral, without leading zero, of an integer from 0 to 2^32 - 2. *)
Definition arrayIndex (key : string) : option N :=
  match key with
  | EmptyString => None
  | String c rest =>
    if bool_decide (c = "0"%char ∧ rest ≠ EmptyString) then None
    else
      match decimal key 0 with
      | Some n => if (n <=? 4294967294)%N then Some n else None
      | None => None
      end
  end.

Fixpoint insertByIndex {A : Type} (key : A -> string) (a : A)
    (sorted : list A) : list A :=
  match sorted with
  | [] => [a]
  | b :: sorted' =>
    if (default 0 (arrayIndex (key a)) <=? default 0 (arrayIndex (key b)))%N
    then a :: b :: sorted'
    else b :: insertByIndex key a sorted'
  end.

(** The order in which [Object.keys], [Object.values] and [Object.entries]
    list the own properties of an object whose properties were created in
    the order of [l]: the keys that are array indices first, in ascending
    numeric order, then the other keys in the order of their creation. *)
Definition ownPropertyOrder {A : Type} (key : A -> string) (l : list A)
    : list A :=
  foldr (insertByIndex key) []
    (filter (fun a => is_Some (arrayIndex (key a))) l)
  ++ filter (fun a => ¬ is_Some (arrayIndex (key a))) l.

(** ** Points (the standings script) *)

Record PointTotals : Type := mkTotals {
  bot : string;
  wins : nat;
  draws : nat;
  losses : nat;
  points : Q
}.

(** The own property [name] of the object [totals], whose own properties
    are listed in the order in which they were created. *)
Fixpoint ownTotals (name : string) (totals : list (string * PointTotals))
    : option PointTotals :=
  match totals with
  | [] => None
  | (key, t) :: totals' =>
    if bool_decide (key = name) then Some t else ownTotals name totals'
  end.

(** [totals[name]] *)
Definition totalsAt (name : string) (totals : list (string * PointTotals))
    : Member PointTotals :=
  memberOf (ownTotals name totals) name.

(** [if (!totals[name]) { totals[name] = { bot: name, wins: 0, ... } }]:
    an own entry and a member of [Object.prototype] are both truthy. *)
Definition ensureTotals (name : string) (totals : list (string * PointTotals))
    : list (string * PointTotals) :=
  match totalsAt name totals with
  | NoMember => totals ++ [(name, mkTotals name 0 0 0 0)]
  | OwnMember _ | InheritedMember => totals
  end.

(** An update of the fields of [totals[name]]: of the own entry in place;
    when [totals[name]] is a member of [Object.prototype] the fields are
    written on that member and [totals] has no entry to change. *)
Fixpoint updateTotals (f : PointTotals -> PointTotals) (name : string)
    (totals : list (string * PointTotals)) : list (string * PointTotals) :=
  match totals with
  | [] => []
  | (key, t) :: totals' =>
    if bool_decide (key = name) then (key, f t) :: totals'
    else (key, t) :: updateTotals f name totals'
  end.

(** [t.wins += 1; t.points += POINTS_PER_WIN] and its two siblings. *)
Definition addWin (t : PointTotals) : PointTotals :=
  mkTotals (bot t) (wins t + 1) (draws t) (losses t)
    (points t + POINTS_PER_WIN).

Definition addLoss (t : PointTotals) : PointTotals :=
  mkTotals (bot t) (wins t) (draws t) (losses t + 1)
    (points t + POINTS_PER_LOSS).

Definition addDraw (t : PointTotals) : PointTotals :=
  mkTotals (bot t) (wins t) (draws t + 1) (losses t)
    (points t + POINTS_PER_DRAW).

(** The body of [for (const outcome of outcomes)]. *)
Definition countOutcome {M : Type} (totals : list (string * PointTotals))
    (outcome : GameOutcome M) : list (string * PointTotals) :=
  let white := pl_white (o_players outcome) in
  let black := pl_black (o_players outcome) in
  let totals := ensureTotals white totals in
  let totals := ensureTotals black totals in
  match verdictType (o_verdict outcome) with
  | TYPE_WIN =>
    if bool_decide (verdictWinner (o_verdict outcome) = Some white) then
      updateTotals addLoss black (updateTotals addWin white totals)
    else
      updateTotals addLoss white (updateTotals addWin black totals)
  | TYPE_DRAW =>
    updateTotals addDraw black (updateTotals addDraw white totals)
  end.

(** [a] goes in front of the first entry with no more points than it has:
    the stable order of [toSorted((a, b) => b.points - a.points)]. *)
Fixpoint insertByPoints (a : PointTotals) (sorted : list PointTotals)
    : list PointTotals :=
  match sorted with
  | [] => [a]
  | b :: sorted' =>
    if Qle_bool (points b) (points a) then a :: b :: sorted'
    else b :: insertByPoints a sorted'
  end.

Definition toSorted (l : list PointTotals) : list PointTotals :=
  foldr insertByPoints [] l.

(** [Object.values(totals)] *)
Definition objectValues (totals : list (string * PointTotals))
    : list PointTotals :=
  map snd (ownPropertyOrder fst totals).

Definition calculatePoints {M : Type} (outcomes : list (GameOutcome M))
    : list PointTotals :=
  toSorted (objectValues (foldl countOutcome [] outcomes)).

(** The sum of the points of the listed bots. *)
Definition totalPoints (l : list PointTotals) : Q :=
  foldr (fun t sum => (points t + sum)%Q) 0%Q l.

(** The bot plays in the outcome. *)
Definition playsIn {M : Type} (name : string) (outcome : GameOutcome M)
    : Prop :=
  pl_white (o_players outcome) = name ∨ pl_black (o_players outcome) = name.

(** The outcome is a win of the bot. *)
Definition wonBy {M : Type} (name : string) (outcome : GameOutcome M)
    : Prop :=
  verdictWinner (o_verdict outcome) = Some name.

(** The outcome is a draw. *)
Definition drawn {M : Type} (outcome : GameOutcome M) : Prop :=
  verdictType (o_verdict outcome) = TYPE_DRAW.

(** The two players differ and a win names one of them. *)
Definition wellFormed {M : Type} (outcome : GameOutcome M) : Prop :=
  pl_white (o_players outcome) ≠ pl_black (o_players outcome)
  ∧ ∀ winner, verdictWinner (o_verdict outcome) = Some winner ->
              playsIn winner outcome.

(** Neither player is named like a member of [Object.prototype]. *)
Definition ownNames {M : Type} (outcome : GameOutcome M) : Prop :=
  inherited (pl_white (o_players outcome)) = false
  ∧ inherited (pl_black (o_players outcome)) = false.

#[global] Instance OutcomeType_eq_dec : EqDecision OutcomeType.
Proof. solve_decision. Defined.

#[global] Instance playsIn_dec {M : Type} name (outcome : GameOutcome M) :
  Decision (playsIn name outcome).
Proof. unfold playsIn. apply _. Defined.

#[global] Instance wonBy_dec {M : Type} name (outcome : GameOutcome M) :
  Decision (wonBy name outcome).
Proof. unfold wonBy. apply _. Defined.

#[global] Instance drawn_dec {M : Type} (outcome : GameOutcome M) :
  Decision (drawn outcome).
Proof. unfold drawn. apply _. Defined.

(** How many of the outcomes satisfy [P]. *)
Definition count {A : Type} (P : A -> Prop) `{∀ x, Decision (P x)}
    (l : list A) : nat :=
  length (filter P l).

(** The tallies of [t] are those of the bot [bot t] over [outcomes]: a win
    for each outcome it won, a draw for each drawn outcome it played, a loss
    for each outcome it played that another bot won, and the points these
    are worth. *)
Definition talliesOf {M : Type} (outcomes : list (GameOutcome M))
    (t : PointTotals) : Prop :=
  wins t = count (wonBy (bot t)) outcomes
  ∧ draws t
    = count (fun o => drawn o ∧ playsIn (bot t) o) outcomes
  ∧ losses t
    = count (fun o => playsIn (bot t) o ∧ ¬ drawn o ∧ ¬ wonBy (bot t) o)
        outcomes
  ∧ wins t + draws t + losses t = count (playsIn (bot t)) outcomes
  ∧ (points t
     == inject_Z (Z.of_nat (wins t)) * POINTS_PER_WIN
        + inject_Z (Z.of_nat (draws t)) * POINTS_PER_DRAW
        + inject_Z (Z.of_nat (losses t)) * POINTS_PER_LOSS)%Q.

(** ** Reading the network log *)

#[global] Instance Request_eq_dec : EqDecision Request.
Proof. solve_decision. Defined.

#[global] Instance FetchResult_eq_dec : EqDecision FetchResult.
Proof. solve_decision. Defined.

(** The name of the error a request that gets no response within
    [MOVE_TIMEOUT] is rejected with: [fetch] rejects with the abort reason
    of [AbortSignal.timeout(MOVE_TIMEOUT)], a [DOMException] whose [name]
    is ["TimeoutError"]. *)
Definition TIMEOUT_ERROR_NAME : string := "TimeoutError".

(** The request of the exchange was sent to [player] and timed out. *)
Definition timedOut (player : Player) (exchange : Request * FetchResult)
    : Prop :=
  r_turn exchange.1 = player ∧ exchange.2 = Rejected TIMEOUT_ERROR_NAME.

#[global] Instance timedOut_dec player exchange :
  Decision (timedOut player exchange).
Proof. unfold timedOut. apply _. Defined.

(** The number of requests to [player] that timed out in a stretch of the
    network log. *)
Definition timeoutCount (player : Player) (log : list (Request * FetchResult))
    : nat :=
  length (filter (timedOut player) log).

(** The exchange is one that [makeMove] records as [TIMEOUT]: the request
    was sent to [player] and rejected with an error whose [name] is
    ["DOMException"]. *)
Definition recordedAsTimeout (player : Player)
    (exchange : Request * FetchResult) : Prop :=
  r_turn exchange.1 = player ∧ exchange.2 = Rejected "DOMException".

#[global] Instance recordedAsTimeout_dec player exchange :
  Decision (recordedAsTimeout player exchange).
Proof. unfold recordedAsTimeout. apply _. Defined.

(** The number of exchanges of [player] recorded as [TIMEOUT] in a stretch
    of the network log: what [gameLoop] adds to [timeouts[player]]. *)
Definition recordedTimeouts (player : Player)
    (log : list (Request * FetchResult)) : nat :=
  length (filter (recordedAsTimeout player) log).

Section Reading.

Context {engine : RulesEngine}.

(** The turn-error an exchange gives rise to on position [chess], if any. *)
Definition attemptError (chess : Chess) (exchange : Request * FetchResult)
    : option MoveError :=
  match exchange.2 with
  | Rejected name =>
    Some (if bool_decide (name = "DOMException")
          then TIMEOUT else OUT_OF_MEMORY)
  | Responded false _ _ => None
  | Responded true _ text =>
    match move chess text with
    | None => Some (INVALID_MOVE text)
    | Some _ => None
    end
  end.

(** The text of the move an exchange proposed, when it was illegal. *)
Definition illegalText (chess : Chess) (exchange : Request * FetchResult)
    : option string :=
  match attemptError chess exchange with
  | Some (INVALID_MOVE text) => Some text
  | _ => None
  end.

(** The exchange is a failed attempt: an illegal move, a timeout or a
    transport failure. *)
Definition failing (chess : Chess) (exchange : Request * FetchResult)
    : Prop :=
  is_Some (attemptError chess exchange).

(** The position reached from [chess] by the moves [texts], with the move
    objects the engine returned. *)
Fixpoint replay (chess : Chess) (texts : list string)
    : option (list ChessJsMove * Chess) :=
  match texts with
  | [] => Some ([], chess)
  | text :: texts' =>
    match move chess text with
    | None => None
    | Some (data, chess') =>
      match replay chess' texts' with
      | None => None
      | Some (datas, final) => Some (data :: datas, final)
      end
    end
  end.

End Reading.

(** The outcome is the timeout-count forfeit. *)
Definition timeoutForfeit {M E : Type} (result : Result (GameOutcome M) E)
    : Prop :=
  ∃ outcome winner errors,
    result = Ok outcome
    ∧ o_verdict outcome = WIN_FORFEIT winner OPPONENT_TIMEOUT errors.

(** The game was cut short inside a turn: the turn ran out of attempts or
    the bot answered with a failing HTTP status. *)
Definition turnAborted {M : Type} (result : Result (GameOutcome M) string)
    : Prop :=
  (∃ outcome winner errors,
      result = Ok outcome
      ∧ o_verdict outcome
        = WIN_FORFEIT winner OPPONENT_EXCEEDED_MAX_ATTEMPTS errors)
  ∨ (∃ name player e, result = Error (invalidResponseMessage name player e)).

(** ** A small rules engine and scripted bots, to run the definitions *)

Module Toy.

(** Positions are the list of the moves played; ["pass"] is the one legal
    move; the game is drawn once [limit] moves are played. *)
Definition engine (limit : nat) : RulesEngine := {|
  Chess := list string;
  ChessJsMove := string;
  loadPgn := fun _ => [];
  turn := fun chess => if Nat.even (length chess) then ColorW else ColorB;
  fen := fun chess => pretty (length chess);
  pgn := fun chess => String.concat " " chess;
  move := fun chess text =>
    if bool_decide (text = "pass") then Some (text, chess ++ [text])
    else None;
  isGameOver := fun chess => bool_decide (limit ≤ length chess);
  isDraw := fun chess => bool_decide (limit ≤ length chess);
  isStalemate := fun _ => false;
  isInsufficientMaterial := fun _ => false;
  isDrawByFiftyMoves := fun _ => false;
  isThreefoldRepetition := fun _ => false;
  isCheckmate := fun _ => false
|}.

(** The state of the scripted network: the requests each side has received
    and the clock. *)
Record Counters : Type := mkCounters {
  seenWhite : nat;
  seenBlack : nat;
  ticks : Z
}.

(** Bots that answer the [k]-th request sent to a side by [script side k];
    every request takes 7 ms. *)
Definition network (script : Player -> nat -> FetchResult) : Network := {|
  Net := Counters;
  fetch := fun n request =>
    match r_turn request with
    | white =>
      (script white (seenWhite n),
       mkCounters (S (seenWhite n)) (seenBlack n) (ticks n + 7))
    | black =>
      (script black (seenBlack n),
       mkCounters (seenWhite n) (S (seenBlack n)) (ticks n + 7))
    end;
  now := ticks;
  sleep := fun d n => mkCounters (seenWhite n) (seenBlack n) (ticks n + d)
|}.

Definition start {engine : RulesEngine}
    (script : Player -> nat -> FetchResult)
    : @World engine (network script) :=
  @mkWorld engine (network script) (mkCounters 0 0 0) [] ∅ [].

Definition players : Players := mkPlayers "alice" "bob".

Definition pass : FetchResult := Responded true 200 "pass".

(** A request that gets no response within [MOVE_TIMEOUT]. *)
Definition timeout : FetchResult := Rejected TIMEOUT_ERROR_NAME.

(** A rejection with an error whose [name] is ["DOMException"], the one
    name [makeMove] records as [TIMEOUT]; a request that times out is not
    rejected under this name. *)
Definition namedDOMException : FetchResult := Rejected "DOMException".

(** White lets two requests time out before every move; black answers at
    once. *)
Definition slowWhite (player : Player) (k : nat) : FetchResult :=
  match player with
  | white => if bool_decide (k `mod` 3 = 2) then pass else timeout
  | black => pass
  end.

(** Two requests to white are rejected under the name ["DOMException"]
    before every move of white; black answers at once. *)
Definition rejectedWhite (player : Player) (k : nat) : FetchResult :=
  match player with
  | white => if bool_decide (k `mod` 3 = 2) then pass else namedDOMException
  | black => pass
  end.

(** Black never answers. *)
Definition silentBlack (player : Player) (k : nat) : FetchResult :=
  match player with
  | white => pass
  | black => timeout
  end.

(** Black answers with HTTP 500. *)
Definition brokenBlack (player : Player) (k : nat) : FetchResult :=
  match player with
  | white => pass
  | black => Responded false 500 "boom"
  end.

(** White proposes an illegal move, lets the next request time out, and
    proposes another illegal move. *)
Definition stubbornWhite (player : Player) (k : nat) : FetchResult :=
  match player, k with
  | white, 0 => Responded true 200 "Qh9"
  | white, 1 => timeout
  | white, _ => Responded true 200 "Ke9"
  | black, _ => pass
  end.

(** A game of at most 100 turns between the scripted bots, drawn after 60
    moves, from an empty results directory. *)
Definition play (script : Player -> nat -> FetchResult)
    : option (Result (GameOutcome (@Move (engine 60))) string
              * @World (engine 60) (network script)) :=
  @gameLoop (engine 60) (network script) (fun _ => EmptyString) 100 players
    "silversuite/001-open.pgn" (start script).

Definition resultOf {A W : Type} (run : option (Result A string * W))
    : Result A string :=
  match run with
  | Some (result, _) => result
  | None => Error EmptyString
  end.

Definition outcomeOf {M W : Type}
    (run : option (Result (GameOutcome M) string * W)) : GameOutcome M :=
  match run with
  | Some (Ok outcome, _) => outcome
  | _ => mkOutcome players EmptyString 0 [] (DRAW OTHER)
  end.

Definition verdictOf {M : Type} (result : Result (GameOutcome M) string)
    : option Verdict :=
  match result with
  | Ok outcome => Some (o_verdict outcome)
  | Error _ => None
  end.

Definition worldOf {A W : Type} (run : option (Result A string * W))
    (world : W) : W :=
  match run with
  | Some (_, world') => world'
  | None => world
  end.

End Toy.

(** ** The opening positions of the three phases ([game.ts]) *)

Definition ROUND_ROBIN_STARTING_POSITIONS : Z := 11.
Definition NUM_FINALS_GAMES : Z := 10.

(** The position a relative index of [Array.prototype.slice] stands for in
    an array of length [len]: a negative index counts from the end, and the
    result is clamped to the array. *)
Definition sliceIndex (len : nat) (k : Z) : nat :=
  if bool_decide (k < 0)%Z then Z.to_nat (Z.max (Z.of_nat len + k) 0)
  else Z.to_nat (Z.min k (Z.of_nat len)).

(** [array.slice(start, stop)] *)
Definition slice {A : Type} (array : list A) (start stop : Z) : list A :=
  let from := sliceIndex (length array) start in
  let to := sliceIndex (length array) stop in
  take (to - from) (drop from array).

(** [array.slice(start)] *)
Definition sliceFrom {A : Type} (array : list A) (start : Z) : list A :=
  drop (sliceIndex (length array) start) array.

(** The three functions below read the sorted listing of the PGN directory
    ([listPgnFiles()]), here their argument [files]. *)
Definition getRoundRobinPgns (files : list string) : list string :=
  slice files 0 ROUND_ROBIN_STARTING_POSITIONS.

Definition getThirdPlaceGames (files : list string) : list string :=
  slice files
    (Z.of_nat (length files) - 2 * NUM_FINALS_GAMES)
    (Z.of_nat (length files) - NUM_FINALS_GAMES).

Definition getFinalsGames (files : list string) : list string :=
  sliceFrom files (Z.of_nat (length files) - NUM_FINALS_GAMES).

(** ** Reading file names *)

(** The character [c] occurs in [s]. *)
Fixpoint occurs (c : ascii) (s : string) : bool :=
  match s with
  | EmptyString => false
  | String c' s' => bool_decide (c' = c) || occurs c s'
  end.

(** ** Scripted games through the result store *)

Module Bench.

(** A game of the scripted bots, drawn after 4 moves, through the result
    store in the round-robin directory. *)
Definition saveGame (script : Player -> nat -> FetchResult)
    (players : Players) (pgnPath : string)
    (world : @World (Toy.engine 4) (Toy.network script))
    : option (Result (GameOutcome (@Move (Toy.engine 4))) string
              * @World (Toy.engine 4) (Toy.network script)) :=
  @playAndSaveGame (Toy.engine 4) (Toy.network script)
    (fun _ => EmptyString) 100 players pgnPath "results/round-robin" world.

(** A match of alice and bob over the given openings. *)
Definition playOpenings (script : Player -> nat -> FetchResult)
    (pgnPaths : list string)
    (world : @World (Toy.engine 4) (Toy.network script))
    : option (Result unit string
              * @World (Toy.engine 4) (Toy.network script)) :=
  @playMatch (Toy.engine 4) (Toy.network script) (fun _ => EmptyString) 100
    "alice" "bob" pgnPaths "results/round-robin" world.

Definition start (script : Player -> nat -> FetchResult)
    : @World (Toy.engine 4) (Toy.network script) :=
  @mkWorld (Toy.engine 4) (Toy.network script) (Toy.mkCounters 0 0 0) [] ∅ [].

End Bench.

(** ** Who moved last *)

Section LastMover.

Context {engine : RulesEngine}.

(** The value of [currentPlayer] after the moves [texts] are played from
    [chess], when it was [current] before: the side that made the last of
    them. *)
Fixpoint lastMover (chess : Chess) (texts : list string) (current : Player)
    : option Player :=
  match texts with
  | [] => Some current
  | text :: texts' =>
    match move chess text with
    | None => None
    | Some (_, chess') => lastMover chess' texts' (colourToPlayer (turn chess))
    end
  end.

End LastMover.

(** The outcome is a forfeit. *)
Definition forfeited {M : Type} (outcome : GameOutcome M) : Prop :=
  match o_verdict outcome with
  | WIN_FORFEIT _ _ _ => True
  | _ => False
  end.

Module Bench2.

(** Both bots answer every request with the legal move. *)
Definition bothPass (player : Player) (k : nat) : FetchResult := Toy.pass.

(** A game of at most 100 turns between the scripted bots, drawn after
    [limit] moves. *)
Definition play (limit : nat) (script : Player -> nat -> FetchResult)
    : option (Result (GameOutcome (@Move (Toy.engine limit))) string
              * @World (Toy.engine limit) (Toy.network script)) :=
  @gameLoop (Toy.engine limit) (Toy.network script) (fun _ => EmptyString)
    100 Toy.players "silversuite/001-open.pgn" (Toy.start script).

End Bench2.

(** ** The standings script: order of the table and the CSV file *)

#[global] Instance Qeq_decision (x y : Q) : Decision (x == y)%Q :=
  Qeq_dec x y.

(** No entry has more points than an entry listed before it. *)
Fixpoint descending (l : list PointTotals) : Prop :=
  match l with
  | [] => True
  | a :: l' =>
    Forall (fun b => (points b <= points a)%Q) l' ∧ descending l'
  end.

(** The bots for which [calculatePoints] creates an entry, in the order in
    which the outcomes first name them, white before black within an
    outcome; no entry is created under the name of a member of
    [Object.prototype]. *)
Definition noteName (seen : list string) (name : string) : list string :=
  if inherited name || bool_decide (name ∈ seen) then seen
  else seen ++ [name].

Definition inOrderOfAppearance {M : Type} (outcomes : list (GameOutcome M))
    : list string :=
  foldl (fun seen outcome =>
           noteName (noteName seen (pl_white (o_players outcome)))
             (pl_black (o_players outcome)))
    [] outcomes.

(** [array.join(sep)] for a separator of one character. *)
Fixpoint join (sep : ascii) (array : list string) : string :=
  match array with
  | [] => EmptyString
  | [s] => s
  | s :: array' => s +:+ String sep (join sep array')
  end.

(** An object as the list of its own keys, in the order of [Object.keys],
    each with the string that [join] converts its value to. *)
Definition CsvObject : Type := list (string * string).

Definition newline : ascii := "010"%char.

Fixpoint ownField (header : string) (obj : CsvObject) : option string :=
  match obj with
  | [] => None
  | (key, value) :: obj' =>
    if bool_decide (key = header) then Some value else ownField header obj'
  end.

Section Csv.

(** The string [join] converts the member of [Object.prototype] of a given
    name to: the source text of a built-in function, which the language
    leaves to the implementation. *)
Context (memberText : string -> string).

(** [obj[header]] as [join] writes it: the own value; without an own
    property of that name the member of [Object.prototype] of that name, if
    there is one; and the empty string for [undefined]. *)
Definition field (header : string) (obj : CsvObject) : string :=
  match memberOf (ownField header obj) header with
  | OwnMember value => value
  | InheritedMember => memberText header
  | NoMember => EmptyString
  end.

(** [saveToCsv(objects, filePath)] on the files [files]; the exception is
    returned as an error. *)
Definition saveToCsv (objects : list CsvObject) (filePath : string)
    (files : gmap string string) : Result (gmap string string) string :=
  match objects with
  | [] => Error "No objects provided"
  | first :: _ =>
    let headers := map fst first in
    let rows :=
      map (fun obj => join "," (map (fun header => field header obj) headers))
        objects in
    let content := join newline (join "," headers :: rows) in
    Ok (<[filePath := content]> files)
  end.

End Csv.

(** Neither a comma nor a line break occurs in the string. *)
Definition plain (s : string) : Prop :=
  occurs "," s = false ∧ occurs newline s = false.

(** ** [Result.partition] ([result.ts]) *)

Definition partition {T E : Type} (results : list (Result T E))
    : list T * list E :=
  foldl (fun acc result =>
           match result with
           | Ok data => (acc.1 ++ [data], acc.2)
           | Error error => (acc.1, acc.2 ++ [error])
           end)
    ([], []) results.

(** ** The host ports of the sandboxes ([setupPorts]) *)

(** [PORTS] after [setupPorts()], for the names of [entries] in order.
    [PORTS[name] = port] creates or overwrites the own property [name] of
    the plain object [PORTS], except for the name ["__proto__"]: there the
    assignment reaches the setter of [Object.prototype], which ignores a
    number, and no own property is created. *)
Definition setupPorts (names : list string) : gmap string Z :=
  (foldl (fun acc name =>
            (if bool_decide (name = "__proto__") then acc.1
             else <[name := acc.2]> acc.1,
             (acc.2 + 1)%Z))
     (∅, 8000%Z) names).1.

(** [PORTS[name]] *)
Definition portOf (ports : gmap string Z) (name : string) : Member Z :=
  memberOf (ports !! name) name.

(** * Properties *)

(** ** Scheduler: the pairing enumeration *)

Section PairingFacts.

Implicit Types (l array : list string) (e v : string) (p : Pair).

Lemma reduce_pairings array pre l acc :
  array = pre ++ l ->
  reduce (fun acc v i => acc ++ map (fun w => (v, w)) (drop (i + 1) array))
    (length pre) l acc = acc ++ pairings l.
Proof.
  revert pre acc. induction l as [|v l IH]; intros pre acc ->; simpl.
  - by rewrite app_nil_r.
  - replace (drop (length pre + 1) (pre ++ v :: l)) with l.
    + specialize (IH (pre ++ [v])). rewrite length_app in IH. simpl in IH.
      rewrite Nat.add_1_r in IH. rewrite IH.
      * by rewrite <- app_assoc.
      * by rewrite <- app_assoc.
    + rewrite drop_app_ge by lia.
      replace (length pre + 1 - length pre) with 1 by lia. done.
Qed.

Lemma permutations_pairings array : permutations array = pairings array.
Proof. exact (reduce_pairings array [] array [] eq_refl). Qed.

Lemma pairings_double_length l :
  2 * length (pairings l) = length l * (length l - 1).
Proof.
  induction l as [|v l IH]; [done|].
  cbn [pairings length]. rewrite length_app, length_map.
  replace (S (length l) - 1) with (length l) by lia.
  unfold Pair in *. revert IH.
  generalize (length (pairings l)). generalize (length l).
  intros [|k] m IH; [lia|].
  replace (S k - 1) with k in IH by lia. nia.
Qed.

Lemma pairings_elem p l :
  p ∈ pairings l -> NoDup l -> p.1 ≠ p.2 ∧ p.1 ∈ l ∧ p.2 ∈ l.
Proof.
  induction l as [|v l IH]; simpl; [by intros ?%elem_of_nil|].
  intros Hp Hnd. apply NoDup_cons in Hnd as [Hv Hnd].
  apply elem_of_app in Hp as [Hp|Hp].
  - apply list_elem_of_fmap in Hp as (w & -> & Hw). simpl.
    split; [|split]; [|left|by right]. intros ->. done.
  - destruct (IH Hp Hnd) as (? & ? & ?).
    split; [done|]. split; by right.
Qed.

Lemma appearances_app e (g1 g2 : list Pair) :
  appearances e (g1 ++ g2) = appearances e g1 + appearances e g2.
Proof. unfold appearances. by rewrite filter_app, length_app. Qed.

Lemma appearances_zero e (g : list Pair) :
  (∀ p, p ∈ g -> includes p e = false) -> appearances e g = 0.
Proof.
  unfold appearances. induction g as [|p g IH]; intros H; [done|].
  rewrite filter_cons. case_decide as Hc.
  - rewrite (H p) in Hc by left. done.
  - apply IH. intros q Hq. apply H. by right.
Qed.

Lemma includes_true p e : includes p e = true <-> p.1 = e ∨ p.2 = e.
Proof.
  unfold includes. rewrite orb_true_iff, !bool_decide_eq_true. done.
Qed.

Lemma includes_false p e : includes p e = false <-> p.1 ≠ e ∧ p.2 ≠ e.
Proof.
  unfold includes. rewrite orb_false_iff, !bool_decide_eq_false. done.
Qed.

Lemma appearances_pairings_absent e l :
  e ∉ l -> appearances e (pairings l) = 0.
Proof.
  intros He. apply appearances_zero. intros p Hp.
  apply includes_false. revert Hp He. clear.
  induction l as [|v l IH]; simpl; [by intros ?%elem_of_nil|].
  intros Hp He. apply not_elem_of_cons in He as [Hev He].
  apply elem_of_app in Hp as [Hp|Hp]; [|by apply IH].
  apply list_elem_of_fmap in Hp as (w & -> & Hw). simpl.
  split; [done|]. intros ->. done.
Qed.

Lemma appearances_first v l :
  v ∉ l -> appearances v (map (fun w => (v, w)) l) = length l.
Proof.
  unfold appearances. induction l as [|w l IH]; intros Hv; [done|].
  apply not_elem_of_cons in Hv as [_ Hv]. simpl.
  rewrite filter_cons. case_decide as Hc.
  - simpl. by rewrite IH.
  - exfalso. apply Hc. apply includes_true. by left.
Qed.

Lemma appearances_second e v l :
  e ≠ v -> e ∈ l -> NoDup l ->
  appearances e (map (fun w => (v, w)) l) = 1.
Proof.
  unfold appearances. intros Hev. induction l as [|w l IH]; intros He Hnd.
  - by apply elem_of_nil in He.
  - apply NoDup_cons in Hnd as [Hw Hnd]. simpl. rewrite filter_cons.
    case_decide as Hc.
    + apply includes_true in Hc as [Hc|Hc]; simpl in Hc; [congruence|].
      subst w. simpl. f_equal.
      apply (appearances_zero e). intros p Hp.
      apply list_elem_of_fmap in Hp as (u & -> & Hu).
      apply includes_false. simpl. split; [congruence|]. intros ->. done.
    + apply elem_of_cons in He as [->|He].
      * exfalso. apply Hc. apply includes_true. by right.
      * by apply IH.
Qed.

Lemma appearances_pairings e l :
  e ∈ l -> NoDup l -> appearances e (pairings l) = length l - 1.
Proof.
  induction l as [|v l IH]; intros He Hnd; [by apply elem_of_nil in He|].
  apply NoDup_cons in Hnd as [Hv Hnd]. simpl.
  rewrite appearances_app. destruct (decide (e = v)) as [->|Hev].
  - rewrite appearances_first, appearances_pairings_absent by done. lia.
  - apply elem_of_cons in He as [?|He]; [done|].
    rewrite appearances_second, IH by done.
    destruct l; [by apply elem_of_nil in He|]. simpl. lia.
Qed.

End PairingFacts.

(** C2. For [N] distinct entrant names, [permutations] returns exactly
    [N * (N - 1) / 2] pairs, every pair is made of two distinct entrants of
    the list, and every entrant appears in exactly [N - 1] pairs. *)
Theorem permutations_round_robin (array : list string) :
  NoDup array ->
  length (permutations array) = length array * (length array - 1) / 2
  ∧ (∀ p, p ∈ permutations array -> p.1 ≠ p.2 ∧ p.1 ∈ array ∧ p.2 ∈ array)
  ∧ (∀ e, e ∈ array ->
        appearances e (permutations array) = length array - 1).
Proof.
  intros Hnd. rewrite permutations_pairings. split; [|split].
  - pose proof (pairings_double_length array) as H.
    apply Nat.div_unique_exact; lia.
  - intros p Hp. by apply pairings_elem.
  - intros e He. by apply appearances_pairings.
Qed.

Lemma permutations_round_robin_witness :
  NoDup ["a"; "b"; "c"; "d"]
  ∧ length (permutations ["a"; "b"; "c"; "d"]) = 6
  ∧ appearances "c" (permutations ["a"; "b"; "c"; "d"]) = 3.
Proof.
  assert (Hnd : NoDup ["a"; "b"; "c"; "d"]) by compute_done.
  split; [exact Hnd|].
  destruct (permutations_round_robin ["a"; "b"; "c"; "d"] Hnd)
    as (Hlen & _ & Happ).
  split; [exact Hlen|]. apply Happ. compute_done.
Defined.

(** ** Scheduler: the greedy grouping *)

Lemma appearances_single e (pair : Pair) : appearances e [pair] ≤ 1.
Proof.
  unfold appearances. rewrite filter_cons, filter_nil.
  case_decide; simpl; lia.
Qed.

Lemma available_spec capacity pair group :
  available capacity pair group = true ->
  (Z.of_nat (length group) < capacity)%Z
  ∧ ∀ p, p ∈ group -> includes pair p.1 = false ∧ includes pair p.2 = false.
Proof.
  unfold available. rewrite andb_true_iff, bool_decide_eq_true.
  rewrite negb_true_iff. intros [Hlen Hex]. split; [done|].
  intros p Hp. apply orb_false_iff.
  destruct (includes pair p.1 || includes pair p.2) eqn:E; [|done].
  assert (existsb (fun p => includes pair p.1 || includes pair p.2) group
          = true) as Hc; [|congruence].
  apply existsb_exists. exists p. split; [|done]. by apply list_elem_of_In.
Qed.

Lemma groupOk_push capacity pair group :
  groupOk capacity group -> available capacity pair group = true ->
  groupOk capacity (group ++ [pair]).
Proof.
  intros [Happ Hlen] [Hroom Hfree]%available_spec. split.
  - intros e. rewrite appearances_app.
    destruct (includes pair e) eqn:He.
    + rewrite (appearances_zero e group).
      * pose proof (appearances_single e pair). lia.
      * intros p Hp. destruct (Hfree p Hp) as [H1 H2].
        apply includes_true in He. apply includes_false.
        apply includes_false in H1 as [? ?]. apply includes_false in H2 as [? ?].
        destruct He; split; congruence.
    + specialize (Happ e). unfold appearances at 2.
      rewrite filter_cons, filter_nil. case_decide; [congruence|].
      simpl. lia.
  - rewrite length_app. simpl. lia.
Qed.

Lemma placePair_ok capacity groups pair :
  (0 < capacity)%Z -> Forall (groupOk capacity) groups ->
  Forall (groupOk capacity) (placePair capacity groups pair).
Proof.
  intros Hcap Hall. unfold placePair.
  destruct (list_find _ groups) as [[i group]|] eqn:Hfind.
  - apply list_find_Some in Hfind as (Hi & Hav & _).
    apply Forall_alter; [done|]. intros g Hg Hok.
    assert (g = group) as -> by congruence. by apply groupOk_push.
  - apply Forall_app. split; [done|]. apply Forall_singleton. split.
    + intros e. apply appearances_single.
    + simpl. lia.
Qed.

Lemma makeGroups_ok capacity pairs groups :
  (0 < capacity)%Z -> Forall (groupOk capacity) groups ->
  Forall (groupOk capacity) (foldl (placePair capacity) groups pairs).
Proof.
  intros Hcap. revert groups.
  induction pairs as [|pair pairs IH]; intros groups Hall; [done|].
  simpl. apply IH. by apply placePair_ok.
Qed.

(** C1. For every list of entrants and every positive capacity
    [floor((cpus - 2) / 4)], the greedy grouping of the pairing list gives
    groups in which no entrant appears in more than one pairing and whose
    pairing count does not exceed the capacity. *)
Theorem roundRobinGroups_bounded (cpus : nat) (names : list string) :
  (0 < pairsPerGroup cpus)%Z ->
  Forall (fun group =>
            (∀ e, appearances e group ≤ 1)
            ∧ (Z.of_nat (length group) ≤ pairsPerGroup cpus)%Z)
    (roundRobinGroups cpus names).
Proof.
  intros Hcap. unfold roundRobinGroups, makeGroups.
  by apply (makeGroups_ok (pairsPerGroup cpus) _ []).
Qed.

Example roundRobinGroups_four_on_ten_cores :
  roundRobinGroups 10 ["a"; "b"; "c"; "d"]
  = [[("a", "b"); ("c", "d")]; [("a", "c"); ("b", "d")];
     [("a", "d"); ("b", "c")]].
Proof. reflexivity. Qed.

Lemma roundRobinGroups_bounded_witness :
  (0 < pairsPerGroup 10)%Z
  ∧ Forall (fun group =>
              (∀ e, appearances e group ≤ 1)
              ∧ (Z.of_nat (length group) ≤ pairsPerGroup 10)%Z)
      (roundRobinGroups 10 ["a"; "b"; "c"; "d"]).
Proof.
  assert (H : (0 < pairsPerGroup 10)%Z) by (vm_compute; reflexivity).
  split; [exact H|]. exact (roundRobinGroups_bounded 10 _ H).
Defined.

(** ** The retry protocol of a turn *)

Section TurnFacts.

Context {engine : RulesEngine} {network : Network}.

Lemma doFetch_spec (world world' : World) request result :
  doFetch world request = (result, world') ->
  exchanges world' = exchanges world ++ [(request, result)]
  ∧ files world' = files world ∧ docker world' = docker world.
Proof.
  unfold doFetch. destruct (fetch (net world) request) as [r n].
  intros [= <- <-]. done.
Qed.

(** Everything [makeMove] does, read off the network log. *)
Lemma makeMove_while_spec remaining chess players player fen :
  ∀ failedMoves errors (world : World) res chess' world',
  makeMove_while remaining chess players player fen failedMoves errors world
  = (res, chess', world') ->
  ∃ new,
    exchanges world' = exchanges world ++ new
    ∧ files world' = files world
    ∧ docker world' = docker world
    ∧ length new ≤ remaining
    ∧ (∀ i exchange, new !! i = Some exchange ->
         exchange.1
         = mkRequest (playerOf players player) fen player
             (failedMoves ++ omap (illegalText chess) (take i new)))
    ∧ match res with
      | Ok response =>
        mr_player response = player
        ∧ mr_errors response = errors ++ omap (attemptError chess) new
        ∧ match mr_move response with
          | None =>
            chess' = chess ∧ length new = remaining
            ∧ Forall (failing chess) new
          | Some m =>
            ∃ pre request status text,
              new = pre ++ [(request, Responded true status text)]
              ∧ Forall (failing chess) pre
              ∧ move chess text = Some (chessMove m, chess')
          end
      | Error e =>
        chess' = chess
        ∧ ∃ pre request status text,
            new = pre ++ [(request, Responded false status text)]
            ∧ Forall (failing chess) pre
            ∧ e = mkInvalidResponse text status
      end.
Proof.
  induction remaining as [|remaining IH];
    intros failedMoves errors world res chess' world'; simpl.
  - intros [= <- <- <-]. exists []. rewrite !app_nil_r. simpl.
    repeat split; done.
  - set (request := mkRequest (playerOf players player) fen player failedMoves).
    destruct (doFetch world request) as [result world1] eqn:Hfetch.
    apply doFetch_spec in Hfetch as (Hlog & Hfiles & Hdocker).
    assert (Hhead : ∀ rest i exchange,
      ((request, result) :: rest) !! i = Some exchange ->
      (∀ j ex, rest !! j = Some ex ->
         ex.1 = mkRequest (playerOf players player) fen player
                  ((failedMoves
                    ++ option_list (illegalText chess (request, result)))
                   ++ omap (illegalText chess) (take j rest))) ->
      exchange.1
      = mkRequest (playerOf players player) fen player
          (failedMoves
           ++ omap (illegalText chess) (take i ((request, result) :: rest)))).
    { intros rest [|j] ex Hi Hrest; simpl in Hi.
      - injection Hi as <-. simpl. by rewrite app_nil_r.
      - rewrite (Hrest j ex Hi). f_equal. rewrite <- app_assoc. f_equal.
        simpl. by destruct (illegalText chess (request, result)). }
    destruct result as [name|[|] status text].
    + intros Hrun. apply IH in Hrun as (new & Hnew & Hf & Hd & Hlen & Hreq & Hres).
      exists ((request, Rejected name) :: new).
      rewrite Hnew, Hlog, Hf, Hd, <- app_assoc. simpl.
      split; [done|]. split; [done|]. split; [done|]. split; [lia|].
      split.
      { intros i ex Hi. apply (Hhead new i ex Hi).
        intros j ex' Hj. rewrite (Hreq j ex' Hj). f_equal.
        unfold illegalText at 2, attemptError. simpl.
        case_bool_decide; simpl; by rewrite app_nil_r. }
      destruct res as [response|e].
      * destruct Hres as (Hp & He & Hm). split; [done|]. split.
        { rewrite He, <- app_assoc. done. }
        destruct (mr_move response).
        -- destruct Hm as (pre & rq & st & tx & -> & Hpre & Hmv).
           exists ((request, Rejected name) :: pre), rq, st, tx.
           split; [done|]. split; [|done].
           apply Forall_cons. split; [|done]. by eexists.
        -- destruct Hm as (-> & <- & Hall). split; [done|]. split; [done|].
           apply Forall_cons. split; [|done]. by eexists.
      * destruct Hres as (-> & pre & rq & st & tx & -> & Hpre & ->).
        split; [done|].
        exists ((request, Rejected name) :: pre), rq, st, tx.
        split; [done|]. split; [|done].
        apply Forall_cons. split; [|done]. by eexists.
    + destruct (move chess text) as [[data chess1]|] eqn:Hmove.
      * intros [= <- <- <-]. exists [(request, Responded true status text)].
        rewrite Hlog, Hfiles, Hdocker. simpl.
        split; [done|]. split; [done|]. split; [done|]. split; [lia|].
        split.
        { intros i ex Hi. apply (Hhead [] i ex Hi).
          intros j ex' Hj. by rewrite lookup_nil in Hj. }
        split; [done|]. split.
        { unfold attemptError. simpl. rewrite Hmove. simpl.
          by rewrite app_nil_r. }
        exists [], request, status, text. done.
      * intros Hrun.
        apply IH in Hrun as (new & Hnew & Hf & Hd & Hlen & Hreq & Hres).
        assert (Herr : attemptError chess (request, Responded true status text)
                       = Some (INVALID_MOVE text)).
        { unfold attemptError. simpl. by rewrite Hmove. }
        exists ((request, Responded true status text) :: new).
        rewrite Hnew, Hlog, Hf, Hd, <- app_assoc. simpl.
        split; [done|]. split; [done|]. split; [done|]. split; [lia|].
        split.
        { intros i ex Hi. apply (Hhead new i ex Hi).
          intros j ex' Hj. rewrite (Hreq j ex' Hj). f_equal.
          unfold illegalText at 2. by rewrite Herr. }
        rewrite Herr. simpl.
        destruct res as [response|e].
        -- destruct Hres as (Hp & He & Hm). split; [done|]. split.
           { rewrite He, <- app_assoc. done. }
           destruct (mr_move response).
           ++ destruct Hm as (pre & rq & st & tx & -> & Hpre & Hmv).
              exists ((request, Responded true status text) :: pre), rq, st, tx.
              split; [done|]. split; [|done].
              apply Forall_cons. split; [|done]. unfold failing.
              by rewrite Herr.
           ++ destruct Hm as (-> & <- & Hall). split; [done|]. split; [done|].
              apply Forall_cons. split; [|done]. unfold failing.
              by rewrite Herr.
        -- destruct Hres as (-> & pre & rq & st & tx & -> & Hpre & ->).
           split; [done|].
           exists ((request, Responded true status text) :: pre), rq, st, tx.
           split; [done|]. split; [|done].
           apply Forall_cons. split; [|done]. unfold failing.
           by rewrite Herr.
    + intros [= <- <- <-]. exists [(request, Responded false status text)].
      rewrite Hlog, Hfiles, Hdocker. simpl.
      split; [done|]. split; [done|]. split; [done|]. split; [lia|].
      split.
      { intros i ex Hi. apply (Hhead [] i ex Hi).
        intros j ex' Hj. by rewrite lookup_nil in Hj. }
      split; [done|]. exists [], request, status, text. done.
Qed.

End TurnFacts.

Section RetryProtocol.

Context {engine : RulesEngine} {network : Network}.

Lemma legal_not_failing (chess chess' : Chess) request status text data :
  move chess text = Some (data, chess') ->
  ¬ failing chess (request, Responded true status text).
Proof.
  intros Hmove [e He]. unfold attemptError in He. simpl in He.
  by rewrite Hmove in He.
Qed.

Lemma invalid_not_failing (chess : Chess) request status text :
  ¬ failing chess (request, Responded false status text).
Proof. by intros [e He]. Qed.

(** C5. A turn makes at least one and at most 3 move requests; the
    [failed_moves] of each request are the illegal moves proposed earlier
    in the turn, in order; an attempt that fails (illegal move, timeout or
    transport failure) is followed by another request as long as fewer than
    3 were made; the errors of the response are exactly those of the failed
    attempts; and the turn ends with no move exactly when every attempt
    failed: there were 3 of them then, the response carries their errors
    and the position is unchanged. *)
Theorem makeMove_retry_protocol (chess : Chess) (players : Players)
    (world : World) res chess' world' :
  makeMove chess players world = (res, chess', world') ->
  ∃ new,
    exchanges world' = exchanges world ++ new
    ∧ 1 ≤ length new ≤ 3
    ∧ (∀ i exchange, new !! i = Some exchange ->
         r_failed_moves exchange.1 = omap (illegalText chess) (take i new))
    ∧ (∀ i exchange, new !! i = Some exchange -> failing chess exchange ->
         S i < 3 -> S i < length new)
    ∧ (∀ response, res = Ok response ->
         mr_errors response = omap (attemptError chess) new)
    ∧ (Forall (failing chess) new ->
         length new = 3
         ∧ res = Ok (mkMoveResponse None (colourToPlayer (turn chess))
                       (omap (attemptError chess) new))
         ∧ chess' = chess)
    ∧ (∀ response, res = Ok response -> mr_move response = None ->
         length new = 3 ∧ Forall (failing chess) new).
Proof.
  unfold makeMove. intros Hrun.
  apply makeMove_while_spec in Hrun
    as (new & Hlog & _ & _ & Hlen & Hreq & Hres).
  unfold MAX_ATTEMPTS_PER_TURN in *.
  exists new. split; [done|].
  assert (Hshape :
    (length new = 3 ∧ Forall (failing chess) new
     ∧ res = Ok (mkMoveResponse None (colourToPlayer (turn chess))
                   (omap (attemptError chess) new))
     ∧ chess' = chess)
    ∨ (∃ pre last, new = pre ++ [last] ∧ Forall (failing chess) pre
                   ∧ ¬ failing chess last
                   ∧ ∀ response, res = Ok response ->
                                 is_Some (mr_move response))).
  { destruct res as [[[m|] p errs]|e]; simpl in Hres.
    - right. destruct Hres as (_ & _ & pre & rq & st & tx & -> & Hpre & Hmv).
      exists pre, (rq, Responded true st tx). split; [done|].
      split; [done|]. split; [by eapply legal_not_failing|].
      intros response [= <-]. by eexists.
    - left. destruct Hres as (-> & -> & -> & Hl & Hall). done.
    - right. destruct Hres as (_ & pre & rq & st & tx & -> & Hpre & _).
      exists pre, (rq, Responded false st tx). split; [done|].
      split; [done|]. split; [apply invalid_not_failing|]. by intros ?. }
  split; [|split; [|split; [|split; [|split]]]].
  - destruct Hshape as [(Hl & _)|(pre & last & -> & _)]; [lia|].
    rewrite length_app in *. simpl in *. lia.
  - intros i ex Hi. by rewrite (Hreq i ex Hi).
  - intros i ex Hi Hfail Hlt.
    destruct Hshape as [(Hl & _)|(pre & last & -> & _ & Hlast & _)]; [lia|].
    rewrite length_app. simpl.
    destruct (decide (i < length pre)) as [?|Hge]; [lia|].
    apply lookup_lt_Some in Hi as Hi'. rewrite length_app in Hi'.
    simpl in Hi'. assert (i = length pre) as -> by lia.
    rewrite list_lookup_middle in Hi by done. injection Hi as <-. done.
  - intros response ->. by destruct Hres as (_ & -> & _).
  - intros Hall.
    destruct Hshape as [(Hl & _ & -> & ->)|(pre & last & -> & _ & Hlast & _)];
      [done|].
    rewrite Forall_app, Forall_singleton in Hall. by destruct Hall.
  - intros response -> Hnone.
    destruct Hshape as [(Hl & Hall & _)|(pre & last & -> & _ & _ & Hsome)];
      [done|].
    destruct (Hsome response eq_refl) as [m Hm]. congruence.
Qed.

End RetryProtocol.

Example makeMove_stubborn :
  let '(res, chess', world') :=
    @makeMove (Toy.engine 60) (Toy.network Toy.stubbornWhite) []
      Toy.players (Toy.start Toy.stubbornWhite) in
  res = Ok (mkMoveResponse None white
              [INVALID_MOVE "Qh9"; OUT_OF_MEMORY; INVALID_MOVE "Ke9"])
  ∧ map (fun exchange => r_failed_moves exchange.1) (exchanges world')
    = [[]; ["Qh9"]; ["Qh9"]].
Proof. vm_compute. done. Qed.

Lemma makeMove_retry_protocol_witness :
  let run :=
    @makeMove (Toy.engine 60) (Toy.network Toy.stubbornWhite) []
      Toy.players (Toy.start Toy.stubbornWhite) in
  length (exchanges run.2) = 3
  ∧ run.1.1
    = Ok (mkMoveResponse None white
            (omap (@attemptError (Toy.engine 60) []) (exchanges run.2)))
  ∧ run.1.2 = []
  ∧ map (fun exchange => r_failed_moves exchange.1) (exchanges run.2)
    = [[]; ["Qh9"]; ["Qh9"]].
Proof.
  intros run.
  destruct (@makeMove_retry_protocol (Toy.engine 60)
              (Toy.network Toy.stubbornWhite) [] Toy.players
              (Toy.start Toy.stubbornWhite) run.1.1 run.1.2 run.2)
    as (new & Hlog & _ & _ & _ & _ & Hall & _).
  { vm_compute. reflexivity. }
  change (exchanges run.2 = new) in Hlog. rewrite Hlog.
  destruct Hall as (Hlen & Hres & Hchess).
  - rewrite <- Hlog. vm_compute. repeat constructor; by eexists.
  - split; [done|]. split; [done|]. split; [done|].
    rewrite <- Hlog. vm_compute. reflexivity.
Defined.

(** ** The game loop *)

Section LoopFacts.

Context {engine : RulesEngine} {network : Network}.

Implicit Types (log new : list (Request * FetchResult)) (p : Player).

Lemma recordedTimeouts_app p log1 log2 :
  recordedTimeouts p (log1 ++ log2) = recordedTimeouts p log1 + recordedTimeouts p log2.
Proof. unfold recordedTimeouts. by rewrite filter_app, length_app. Qed.

Lemma recordedTimeouts_le p log : recordedTimeouts p log ≤ length log.
Proof. apply length_filter. Qed.

Lemma recordedTimeouts_legal p request status text :
  recordedTimeouts p [(request, Responded true status text)] = 0.
Proof.
  unfold recordedTimeouts. rewrite filter_cons, filter_nil.
  case_decide as H; [|done]. by destruct H as [_ H].
Qed.

Lemma recordedTimeouts_other p log :
  Forall (fun exchange => r_turn exchange.1 = p) log ->
  recordedTimeouts (opponent p) log = 0.
Proof.
  unfold recordedTimeouts. induction 1 as [|exchange log Hp _ IH]; [done|].
  rewrite filter_cons. case_decide as H; [|done].
  destruct H as [H _]. rewrite Hp in H. by destruct p.
Qed.

Lemma timeouts_of_errors (chess : Chess) p log :
  Forall (fun exchange => r_turn exchange.1 = p) log ->
  length (filter (fun err => err = TIMEOUT) (omap (attemptError chess) log))
  = recordedTimeouts p log.
Proof.
  unfold recordedTimeouts.
  induction log as [|[request result] log IH]; intros Hall; [done|].
  apply Forall_cons in Hall as [Hp Hall]. simpl in Hp. specialize (IH Hall).
  rewrite (filter_cons (recordedAsTimeout p)). cbn [omap list_omap].
  unfold attemptError at 1, recordedAsTimeout at 1. cbn [fst snd].
  destruct result as [name|[|] status text].
  - case_bool_decide as Hname.
    + subst name. rewrite filter_cons.
      case_decide as H1; [|done]. case_decide as H2; [|by destruct H2].
      simpl. by rewrite IH.
    + rewrite filter_cons. case_decide as H1; [done|].
      case_decide as H2; [|done]. destruct H2 as [_ [= ?]]. done.
  - case_decide as H; [by destruct H as [_ H]|].
    destruct (move chess text); [done|].
    rewrite filter_cons. by case_decide.
  - case_decide as H; [by destruct H as [_ H]|]. done.
Qed.

Lemma timeoutsOf_add timeouts p q n :
  timeoutsOf (addTimeouts timeouts p n) q
  = timeoutsOf timeouts q + (if decide (q = p) then n else 0).
Proof. destruct p, q; simpl; lia. Qed.

Lemma gameLoop_end_plain players startTime (st : LoopState) (world : World) :
  ¬ timeoutForfeit (gameLoop_end players startTime st world)
  ∧ ¬ turnAborted (gameLoop_end players startTime st world).
Proof.
  unfold gameLoop_end, timeoutForfeit, turnAborted.
  repeat match goal with |- context [if ?b then _ else _] => destruct b end;
    (split;
     [intros (o & w & e & H1 & H2)
     |intros [(o & w & e & H1 & H2)|(n & p & e & H1)]]);
    try discriminate H1; try (injection H1 as <-; discriminate H2).
Qed.

(** One turn, read off the network log: the loop goes on with at most 14
    timeouts counted for the mover, or the game is cut short inside the
    turn, or the mover's count has reached 15 on a legal move. *)
Lemma gameTurn_spec players startTime (st : LoopState) (world : World) :
  let p := colourToPlayer (turn (ls_chess st)) in
  ∃ new,
    Forall (fun exchange => r_turn exchange.1 = p) new
    ∧ match gameTurn players startTime st world with
      | Continue st' world' =>
        exchanges world' = exchanges world ++ new
        ∧ files world' = files world ∧ docker world' = docker world
        ∧ ls_timeouts st'
          = addTimeouts (ls_timeouts st) p (recordedTimeouts p new)
        ∧ timeoutsOf (ls_timeouts st') p ≤ 14
        ∧ ∃ text m,
            move (ls_chess st) text = Some (chessMove m, ls_chess st')
            ∧ ls_moves st' = ls_moves st ++ [m]
      | Return res world' =>
        exchanges world' = exchanges world ++ new
        ∧ files world' = files world ∧ docker world' = docker world
        ∧ ((turnAborted res ∧ ¬ timeoutForfeit res)
           ∨ ∃ text m chess' errors duration,
               move (ls_chess st) text = Some (chessMove m, chess')
               ∧ 15 ≤ timeoutsOf (ls_timeouts st) p + recordedTimeouts p new
               ∧ recordedTimeouts p new ≤ 2
               ∧ res = Ok (mkOutcome players (pgn chess') duration
                             (ls_moves st)
                             (WIN_FORFEIT (playerOf players (opponent p))
                                OPPONENT_TIMEOUT errors)))
      end.
Proof.
  intros p. unfold gameTurn. fold p.
  destruct (makeMove (ls_chess st) players world)
    as [[moveResult chess'] world1] eqn:Hmake.
  unfold makeMove in Hmake. fold p in Hmake.
  apply makeMove_while_spec in Hmake
    as (new & Hlog & Hfiles & Hdocker & Hlen & Hreq & Hres).
  exists new.
  assert (Hturn : Forall (fun exchange => r_turn exchange.1 = p) new).
  { apply Forall_lookup. intros i ex Hi. by rewrite (Hreq i ex Hi). }
  split; [done|].
  destruct moveResult as [response|e].
  - destruct Hres as (_ & Herrs & Hmove). simpl in Herrs.
    destruct (mr_move response) as [m|].
    + destruct Hmove as (pre & rq & status & text & -> & _ & Hmv).
      rewrite Herrs, (timeouts_of_errors _ p) by done.
      assert (Hle : recordedTimeouts p (pre ++ [(rq, Responded true status text)])
                    ≤ 2).
      { rewrite recordedTimeouts_app, recordedTimeouts_legal.
        pose proof (recordedTimeouts_le p pre). rewrite length_app in Hlen.
        simpl in Hlen. unfold MAX_ATTEMPTS_PER_TURN in Hlen. lia. }
      case_bool_decide as Hmax.
      * split; [done|]. split; [done|]. split; [done|]. right.
        exists text, m, chess'. eexists _, _. split; [done|].
        rewrite timeoutsOf_add in Hmax. rewrite decide_True in Hmax by done.
        unfold MAX_TIMEOUTS_PER_GAME in Hmax. done.
      * simpl. split; [done|]. split; [done|]. split; [done|].
        split; [done|]. split.
        { unfold MAX_TIMEOUTS_PER_GAME in Hmax. lia. }
        by exists text, m.
    + split; [done|]. split; [done|]. split; [done|]. left. split.
      * left. by eexists _, _, _.
      * intros (o & w & errs & [= <-] & H). by simpl in H.
  - split; [done|]. split; [done|]. split; [done|]. left. split.
    + right. by eexists _, _, _.
    + by intros (o & w & errs & H & _).
Qed.

(** The bound on the number of turns does not change what a game returns:
    a game that ends within [fuel] turns ends in the same way under any
    larger bound. *)
Lemma gameLoop_while_more_fuel players startTime fuel :
  ∀ fuel' (st : LoopState) (world : World) run,
  gameLoop_while fuel players startTime st world = Some run ->
  fuel ≤ fuel' ->
  gameLoop_while fuel' players startTime st world = Some run.
Proof.
  induction fuel as [|fuel IH]; intros fuel' st world run Hrun Hle;
    [done|].
  destruct fuel' as [|fuel']; [lia|]. simpl in *.
  destruct (isGameOver (ls_chess st)); [done|].
  destruct (gameTurn players startTime st world); [done|].
  apply IH; [done|lia].
Qed.

Lemma replay_snoc (chess0 final last : Chess) texts datas text data :
  replay chess0 texts = Some (datas, final) ->
  move final text = Some (data, last) ->
  replay chess0 (texts ++ [text]) = Some (datas ++ [data], last).
Proof.
  revert chess0 datas. induction texts as [|t texts IH];
    intros chess0 datas; simpl.
  - intros [= <- <-] ->. done.
  - destruct (move chess0 t) as [[d c]|]; [|done].
    destruct (replay c texts) as [[ds f]|] eqn:Hr; [|done].
    intros [= <- <-] Hmv. by rewrite (IH c ds Hr Hmv).
Qed.

(** The invariant of the loop and what it gives when the loop ends: the
    counters agree with the network log and stay at 14 or less, and the
    recorded moves are those that led to the position. *)
Lemma gameLoop_while_run players startTime (chess0 : Chess) fuel :
  ∀ (st : LoopState) (world : World) res world' base sofar texts,
  gameLoop_while fuel players startTime st world = Some (res, world') ->
  exchanges world = base ++ sofar ->
  (∀ p, timeoutsOf (ls_timeouts st) p = recordedTimeouts p sofar) ->
  (∀ p, timeoutsOf (ls_timeouts st) p ≤ 14) ->
  replay chess0 texts = Some (map chessMove (ls_moves st), ls_chess st) ->
  ∃ game,
    exchanges world' = base ++ game
    ∧ files world' = files world ∧ docker world' = docker world
    ∧ ((¬ timeoutForfeit res
        ∧ (turnAborted res ∨ ∀ p, recordedTimeouts p game ≤ 14))
       ∨ ∃ p outcome errors texts' final text data last,
           res = Ok outcome
           ∧ o_verdict outcome
             = WIN_FORFEIT (playerOf players (opponent p)) OPPONENT_TIMEOUT
                 errors
           ∧ 15 ≤ recordedTimeouts p game ∧ recordedTimeouts p game ≤ 16
           ∧ recordedTimeouts (opponent p) game ≤ 14
           ∧ replay chess0 texts'
             = Some (map chessMove (o_moves outcome), final)
           ∧ move final text = Some (data, last)
           ∧ o_pgn outcome = pgn last).
Proof.
  induction fuel as [|fuel IH];
    intros st world res world' base sofar texts Hrun Hlog Hcount Hmax Hplay;
    simpl in Hrun; [done|].
  destruct (isGameOver (ls_chess st)).
  { injection Hrun as <- <-. exists sofar. split; [done|].
    split; [done|]. split; [done|]. left.
    destruct (gameLoop_end_plain players startTime st world) as [H1 H2].
    split; [done|]. right. intros p. rewrite <- Hcount. apply Hmax. }
  pose proof (gameTurn_spec players startTime st world) as Hturn.
  simpl in Hturn. destruct Hturn as (new & Hp & Hturn).
  set (p := colourToPlayer (turn (ls_chess st))) in *.
  destruct (gameTurn players startTime st world) as [res1 world1|st1 world1].
  - injection Hrun as <- <-.
    destruct Hturn as (Hlog1 & Hf & Hd & Hcases).
    exists (sofar ++ new). rewrite Hlog1, Hlog, <- app_assoc.
    split; [done|]. split; [done|]. split; [done|].
    destruct Hcases as [[Hab Hnf]|Hforfeit].
    + left. split; [done|]. by left.
    + right.
      destruct Hforfeit as (text & m & chess' & errs & dur & Hmv & H15 & H2
                            & ->).
      exists p. eexists _, errs, texts, (ls_chess st), text, (chessMove m),
        chess'.
      split; [done|]. split; [done|].
      rewrite !recordedTimeouts_app, (recordedTimeouts_other p new) by done.
      rewrite <- !Hcount. pose proof (Hmax p). pose proof (Hmax (opponent p)).
      split; [lia|]. split; [lia|]. split; [lia|]. done.
  - destruct Hturn as (Hlog1 & Hf & Hd & Ht & Hle & text & m & Hmv & Hmoves).
    apply (IH st1 world1 res world' base (sofar ++ new) (texts ++ [text]))
      in Hrun.
    + destruct Hrun as (game & Hgame & Hf' & Hd' & Hres).
      exists game. rewrite Hf', Hd', Hf, Hd. done.
    + by rewrite Hlog1, Hlog, <- app_assoc.
    + intros q. rewrite Ht, timeoutsOf_add, recordedTimeouts_app, Hcount.
      case_decide as Hq; [by subst q|].
      assert (q = opponent p) as -> by (by destruct p, q).
      by rewrite (recordedTimeouts_other p new).
    + intros q. destruct (decide (q = p)) as [->|Hq]; [done|].
      rewrite Ht, timeoutsOf_add, decide_False by done.
      pose proof (Hmax q). lia.
    + rewrite Hmoves, map_app. simpl. by apply replay_snoc with (ls_chess st).
Qed.

End LoopFacts.

(** ** Forfeits *)

Section Forfeits.

Context {engine : RulesEngine} {network : Network}.
Context (readText : string -> string).

Lemma gameLoop_run fuel players pgnPath (world : World) res world' :
  gameLoop readText fuel players pgnPath world = Some (res, world') ->
  ∃ game,
    exchanges world' = exchanges world ++ game
    ∧ files world' = files world ∧ docker world' = docker world
    ∧ ((¬ timeoutForfeit res
        ∧ (turnAborted res ∨ ∀ p, recordedTimeouts p game ≤ 14))
       ∨ ∃ p outcome errors texts' final text data last,
           res = Ok outcome
           ∧ o_verdict outcome
             = WIN_FORFEIT (playerOf players (opponent p)) OPPONENT_TIMEOUT
                 errors
           ∧ 15 ≤ recordedTimeouts p game ∧ recordedTimeouts p game ≤ 16
           ∧ recordedTimeouts (opponent p) game ≤ 14
           ∧ replay (loadPgn (readText pgnPath)) texts'
             = Some (map chessMove (o_moves outcome), final)
           ∧ move final text = Some (data, last)
           ∧ o_pgn outcome = pgn last).
Proof.
  unfold gameLoop. intros Hrun.
  apply (gameLoop_while_run players _ (loadPgn (readText pgnPath)) fuel _ _
           _ _ (exchanges world) [] []) in Hrun.
  - exact Hrun.
  - simpl. by rewrite app_nil_r.
  - by intros [].
  - intros []; simpl; lia.
  - done.
Qed.

Lemma replay_length (chess final : Chess) texts datas :
  replay chess texts = Some (datas, final) -> length datas = length texts.
Proof.
  revert chess datas. induction texts as [|t texts IH];
    intros chess datas; simpl.
  - by intros [= <- _].
  - destruct (move chess t) as [[d c]|]; [|done].
    destruct (replay c texts) as [[ds f]|] eqn:Hr; [|done].
    intros [= <- <-]. simpl. by rewrite (IH c ds Hr).
Qed.

(** C9. When a game ends with reason [OPPONENT_TIMEOUT], the legal move of
    the forfeiting turn has been applied to the position whose PGN the
    outcome carries, and it is not in the outcome's move list: the list
    holds the moves that led to the position before it, one ply less than
    the PGN. *)
Theorem timeout_forfeit_drops_last_move fuel players pgnPath
    (world : World) outcome world' winner errors :
  gameLoop readText fuel players pgnPath world = Some (Ok outcome, world') ->
  o_verdict outcome = WIN_FORFEIT winner OPPONENT_TIMEOUT errors ->
  ∃ texts text data last,
    replay (loadPgn (readText pgnPath)) (texts ++ [text])
    = Some (map chessMove (o_moves outcome) ++ [data], last)
    ∧ o_pgn outcome = pgn last
    ∧ length (o_moves outcome) = length texts.
Proof.
  intros Hrun Hv. apply gameLoop_run in Hrun as (game & _ & _ & _ & Hcases).
  destruct Hcases as [[Hnf _]|Hforfeit].
  - destruct Hnf. by eexists _, _, _.
  - destruct Hforfeit
      as (p & o & e & texts & final & text & data & last & [= <-] & _ & _ & _
          & _ & Hplay & Hmv & Hpgn).
    exists texts, text, data, last. split; [|split; [done|]].
    + by apply replay_snoc with final.
    + apply replay_length in Hplay. by rewrite length_map in Hplay.
Qed.

(** A turn of a bot all of whose requests are rejected under one name. *)
Lemma makeMove_while_rejected (chess : Chess) players p fen name remaining :
  (∀ n request, r_turn request = p ->
     (fetch n request).1 = Rejected name) ->
  ∀ failedMoves errors (world : World),
  ∃ world' new,
    makeMove_while remaining chess players p fen failedMoves errors world
    = (Ok (mkMoveResponse None p (errors ++ omap (attemptError chess) new)),
       chess, world')
    ∧ exchanges world' = exchanges world ++ new
    ∧ length new = remaining
    ∧ Forall (fun exchange =>
                r_turn exchange.1 = p ∧ exchange.2 = Rejected name) new.
Proof.
  intros Hsilent. induction remaining as [|remaining IH];
    intros failedMoves errors world; simpl.
  - exists world, []. by rewrite !app_nil_r.
  - set (request := mkRequest (playerOf players p) fen p failedMoves).
    destruct (doFetch world request) as [result world1] eqn:Hfetch.
    assert (result = Rejected name) as ->.
    { unfold doFetch in Hfetch. pose proof (Hsilent (net world) request) as H.
      destruct (fetch (net world) request) as [r n]. simpl in H.
      injection Hfetch as <- _. by apply H. }
    apply doFetch_spec in Hfetch as (Hlog & _ & _).
    set (e := if bool_decide (name = "DOMException")
              then TIMEOUT else OUT_OF_MEMORY).
    destruct (IH failedMoves (errors ++ [e]) world1)
      as (world' & new & -> & Hnew & Hlen & Hall).
    exists world', ((request, Rejected name) :: new).
    rewrite <- app_assoc. split; [done|]. rewrite Hnew, Hlog, <- app_assoc.
    split; [done|]. simpl. split; [by rewrite Hlen|]. by constructor.
Qed.

Lemma timeoutCount_all p (log : list (Request * FetchResult)) :
  Forall (fun exchange =>
            r_turn exchange.1 = p ∧ exchange.2 = Rejected TIMEOUT_ERROR_NAME)
    log ->
  timeoutCount p log = length log.
Proof.
  unfold timeoutCount. induction 1 as [|exchange log H _ IH]; [done|].
  rewrite filter_cons, decide_True by done. simpl. by rewrite IH.
Qed.

Lemma errors_of_rejected (chess : Chess) p name
    (log : list (Request * FetchResult)) :
  Forall (fun exchange =>
            r_turn exchange.1 = p ∧ exchange.2 = Rejected name) log ->
  length (omap (attemptError chess) log) = length log.
Proof.
  induction 1 as [|[request result] log [_ H] _ IH]; [done|].
  simpl in H. subst result. simpl. f_equal. exact IH.
Qed.

(** C4, as the code has it. When the bot to move never answers within the
    timeout, that single turn makes three requests, each of which times
    out, and the game ends there with a WIN for the opponent for reason
    [OPPONENT_EXCEEDED_MAX_ATTEMPTS], carrying one error for each of the
    three requests; the position and the move list are those before the
    turn. *)
Theorem silent_bot_forfeits_first_turn fuel players startTime
    (st : LoopState) (world : World) :
  let p := colourToPlayer (turn (ls_chess st)) in
  isGameOver (ls_chess st) = false ->
  (∀ n request, r_turn request = p ->
     (fetch n request).1 = Rejected TIMEOUT_ERROR_NAME) ->
  ∃ world' new,
    gameLoop_while (S fuel) players startTime st world
    = Some (Ok (mkOutcome players (pgn (ls_chess st))
                  (clock world' - startTime)%Z (ls_moves st)
                  (WIN_FORFEIT (playerOf players (opponent p))
                     OPPONENT_EXCEEDED_MAX_ATTEMPTS
                     (omap (attemptError (ls_chess st)) new))),
            world')
    ∧ exchanges world' = exchanges world ++ new
    ∧ length new = 3
    ∧ timeoutCount p new = 3
    ∧ length (omap (attemptError (ls_chess st)) new) = 3.
Proof.
  intros p Hover Hsilent. simpl. rewrite Hover.
  unfold gameTurn, makeMove. fold p.
  destruct (makeMove_while_rejected (ls_chess st) players p
              (fen (ls_chess st)) TIMEOUT_ERROR_NAME MAX_ATTEMPTS_PER_TURN
              Hsilent [] [] world)
    as (world' & new & -> & Hlog & Hlen & Hall).
  exists world', new. simpl.
  rewrite (timeoutCount_all _ _ Hall), (errors_of_rejected _ _ _ _ Hall).
  done.
Qed.

End Forfeits.

(** ** The forfeits on scripted games *)

Lemma timeoutForfeit_verdict {M : Type}
    (result : Result (GameOutcome M) string) :
  timeoutForfeit result ->
  ∃ winner errors,
    Toy.verdictOf result = Some (WIN_FORFEIT winner OPPONENT_TIMEOUT errors).
Proof. intros (o & w & e & -> & Hv). exists w, e. simpl. by rewrite Hv. Qed.

(** C3, where the code departs from it. White lets two requests time out
    before each of its 30 moves: its count of timeouts reaches 15 on its
    eighth turn and ends at 60. No timeout is recorded as [TIMEOUT], since
    the error of a request that times out is named ["TimeoutError"] and
    not ["DOMException"]: each is recorded as [OUT_OF_MEMORY], nothing is
    added to [timeouts], and the game is not forfeited but played to its
    end, a draw after 60 moves. *)
Theorem timeouts_are_not_counted :
  let run := Toy.play Toy.slowWhite in
  let world' := Toy.worldOf run (Toy.start Toy.slowWhite) in
  let turn1 :=
    @makeMove (Toy.engine 60) (Toy.network Toy.slowWhite) []
      Toy.players (Toy.start Toy.slowWhite) in
  timeoutCount white (exchanges world') = 60
  ∧ recordedTimeouts white (exchanges world') = 0
  ∧ match turn1.1.1 with
    | Ok response => mr_errors response
    | Error _ => []
    end = [OUT_OF_MEMORY; OUT_OF_MEMORY]
  ∧ Toy.verdictOf (Toy.resultOf run) = Some (DRAW OTHER)
  ∧ length (o_moves (Toy.outcomeOf run)) = 60
  ∧ ¬ timeoutForfeit (Toy.resultOf run).
Proof.
  intros run world' turn1. repeat split; try (vm_compute; reflexivity).
  intros (w & e & Hv)%timeoutForfeit_verdict.
  vm_compute in Hv. discriminate Hv.
Qed.

Lemma timeout_forfeit_drops_last_move_witness :
  let run := Toy.play Toy.rejectedWhite in
  let outcome := Toy.outcomeOf run in
  ∃ texts text data last,
    @replay (Toy.engine 60) [] (texts ++ [text])
    = Some (map chessMove (o_moves outcome) ++ [data], last)
    ∧ o_pgn outcome = @pgn (Toy.engine 60) last
    ∧ length (o_moves outcome) = length texts.
Proof.
  intros run outcome.
  apply (@timeout_forfeit_drops_last_move (Toy.engine 60)
           (Toy.network Toy.rejectedWhite) (fun _ => EmptyString) 100
           Toy.players "silversuite/001-open.pgn"
           (Toy.start Toy.rejectedWhite) outcome
           (Toy.worldOf run (Toy.start Toy.rejectedWhite)) "bob"
           [TIMEOUT; TIMEOUT]).
  - vm_compute. reflexivity.
  - vm_compute. reflexivity.
Defined.

(** C4 as stated fails: black never answers; the three requests of its
    first turn time out and end the game, after one move of white, with
    reason [OPPONENT_EXCEEDED_MAX_ATTEMPTS]: there is no second affected
    turn, and no [OPPONENT_TIMEOUT]. *)
Lemma silent_bot_is_not_a_timeout_forfeit :
  let run := Toy.play Toy.silentBlack in
  let world' := Toy.worldOf run (Toy.start Toy.silentBlack) in
  timeoutCount black (exchanges world') = 3
  ∧ count (fun exchange => r_turn exchange.1 = black) (exchanges world') = 3
  ∧ length (o_moves (Toy.outcomeOf run)) = 1
  ∧ (∃ errors,
       Toy.verdictOf (Toy.resultOf run)
       = Some (WIN_FORFEIT "alice" OPPONENT_EXCEEDED_MAX_ATTEMPTS errors)
       ∧ length errors = 3)
  ∧ ¬ timeoutForfeit (Toy.resultOf run).
Proof.
  intros run world'. repeat split; try (vm_compute; reflexivity).
  - eexists. split; vm_compute; reflexivity.
  - intros (w & e & Hv)%timeoutForfeit_verdict.
    vm_compute in Hv. discriminate Hv.
Qed.

Lemma silent_bot_forfeits_first_turn_witness :
  let st : @LoopState (Toy.engine 60) :=
    mkLoopState (["pass"] : @Chess (Toy.engine 60)) white (mkTimeouts 0 0)
      [mkMove ("pass" : @ChessJsMove (Toy.engine 60)) 7] in
  ∃ world' new,
    @gameLoop_while (Toy.engine 60) (Toy.network Toy.silentBlack) 1
      Toy.players 0 st (Toy.start Toy.silentBlack)
    = Some (Ok (mkOutcome Toy.players "pass" (clock world' - 0)%Z
                  (ls_moves st)
                  (WIN_FORFEIT "alice" OPPONENT_EXCEEDED_MAX_ATTEMPTS
                     (omap (@attemptError (Toy.engine 60) ["pass"]) new))),
            world')
    ∧ exchanges world' = [] ++ new
    ∧ length new = 3
    ∧ timeoutCount black new = 3
    ∧ length (omap (@attemptError (Toy.engine 60) ["pass"]) new) = 3.
Proof.
  intros st.
  apply (@silent_bot_forfeits_first_turn (Toy.engine 60)
           (Toy.network Toy.silentBlack) 0 Toy.players 0%Z st
           (Toy.start Toy.silentBlack)).
  - reflexivity.
  - intros n request Hturn. simpl in *. rewrite Hturn. reflexivity.
Defined.

(** ** The result store and the sandboxes *)

Section StoreFacts.

Context {engine : RulesEngine} {network : Network}.
Context (readText : string -> string).

(** C6. When the result file of a game exists, [playAndSaveGame] returns the
    outcome it holds and leaves the world as it was: no sandbox is started,
    no request is made, no file is written; and running a game again after
    it has returned an outcome returns that same outcome, again with
    nothing started. *)
Theorem playAndSaveGame_resumes fuel players pgnPath saveDir
    (world : World) :
  (∀ existing,
     files world !! path_join saveDir (resultFileName players pgnPath)
     = Some existing ->
     playAndSaveGame readText fuel players pgnPath saveDir world
     = Some (Ok existing, world))
  ∧ (∀ fuel' outcome world',
       playAndSaveGame readText fuel players pgnPath saveDir world
       = Some (Ok outcome, world') ->
       playAndSaveGame readText fuel' players pgnPath saveDir world'
       = Some (Ok outcome, world')).
Proof.
  assert (Hresume : ∀ fuel0 (w : World) existing,
    files w !! path_join saveDir (resultFileName players pgnPath)
    = Some existing ->
    playAndSaveGame readText fuel0 players pgnPath saveDir w
    = Some (Ok existing, w)).
  { intros fuel0 w existing Hfile. unfold playAndSaveGame. by rewrite Hfile. }
  split; [by apply Hresume|].
  intros fuel' outcome world' Hrun. apply Hresume.
  unfold playAndSaveGame in Hrun.
  destruct (files world !! path_join saveDir (resultFileName players pgnPath))
    as [existing|] eqn:Hfile.
  - by injection Hrun as <- <-.
  - destruct (gameLoop readText fuel players pgnPath
                (dockerStartAll players world))
      as [[[data|e] world1]|]; [|done..].
    injection Hrun as <- <-. simpl. apply lookup_insert_eq.
Qed.

(** A whole match over a results directory that holds all its games starts
    no sandbox and changes nothing. *)
Lemma playMatch_resumes fuel player1 player2 saveDir (world : World)
    pgnPaths :
  (∀ pgnPath, pgnPath ∈ pgnPaths ->
     is_Some (files world
              !! path_join saveDir
                   (resultFileName (mkPlayers player1 player2) pgnPath))
     ∧ is_Some (files world
                !! path_join saveDir
                     (resultFileName (mkPlayers player2 player1) pgnPath))) ->
  playMatch readText fuel player1 player2 pgnPaths saveDir world
  = Some (Ok tt, world).
Proof.
  induction pgnPaths as [|pgnPath pgnPaths IH]; intros Hall; [done|].
  destruct (Hall pgnPath) as [[o1 H1] [o2 H2]]; [by left|].
  simpl. unfold playAndSaveGame. rewrite H1, H2.
  apply IH. intros p Hp. apply Hall. by right.
Qed.

(** What [playAndSaveGame] does to the sandboxes when the game is played:
    both are started; both are stopped when the game loop returns an
    outcome, and neither is when it returns an error. *)
Lemma playAndSaveGame_docker fuel players pgnPath saveDir
    (world : World) res world' :
  files world !! path_join saveDir (resultFileName players pgnPath) = None ->
  playAndSaveGame readText fuel players pgnPath saveDir world
  = Some (res, world') ->
  match res with
  | Ok _ =>
    docker world'
    = docker world
      ++ [DockerRun (pl_white players) white;
          DockerRun (pl_black players) black;
          DockerStop (pl_white players) white;
          DockerStop (pl_black players) black]
  | Error _ =>
    docker world'
    = docker world
      ++ [DockerRun (pl_white players) white;
          DockerRun (pl_black players) black]
    ∧ files world' = files world
  end.
Proof.
  intros Hfile Hrun. unfold playAndSaveGame in Hrun. rewrite Hfile in Hrun.
  destruct (gameLoop readText fuel players pgnPath
              (dockerStartAll players world))
    as [[[data|e] world1]|] eqn:Hgame; [| |done].
  - injection Hrun as <- <-.
    apply gameLoop_run in Hgame as (_ & _ & _ & Hd & _).
    simpl. rewrite Hd. simpl. by rewrite <- !app_assoc.
  - injection Hrun as <- <-.
    apply gameLoop_run in Hgame as (_ & _ & Hf & Hd & _).
    rewrite Hd, Hf. simpl. by rewrite <- !app_assoc.
Qed.

End StoreFacts.

Example playAndSaveGame_twice :
  let play :=
    @playAndSaveGame (Toy.engine 4) (Toy.network Toy.silentBlack)
      (fun _ => EmptyString) 100 Toy.players "silversuite/001-open.pgn"
      "results/round-robin" in
  let run := play (Toy.start Toy.silentBlack) in
  let world' := Toy.worldOf run (Toy.start Toy.silentBlack) in
  Toy.resultOf run = Ok (Toy.outcomeOf run)
  ∧ files world' !! "results/round-robin/alice-bob-001.json"
    = Some (Toy.outcomeOf run)
  ∧ play world' = run
  ∧ docker world'
    = [DockerRun "alice" white; DockerRun "bob" black;
       DockerStop "alice" white; DockerStop "bob" black].
Proof. repeat split; vm_compute; reflexivity. Qed.

Lemma playAndSaveGame_resumes_witness :
  let play fuel :=
    @playAndSaveGame (Toy.engine 4) (Toy.network Toy.silentBlack)
      (fun _ => EmptyString) fuel Toy.players "silversuite/001-open.pgn"
      "results/round-robin" in
  let run := play 100 (Toy.start Toy.silentBlack) in
  let world' := Toy.worldOf run (Toy.start Toy.silentBlack) in
  play 7 world' = Some (Ok (Toy.outcomeOf run), world')
  ∧ play 0 world' = Some (Ok (Toy.outcomeOf run), world').
Proof.
  intros play run world'.
  destruct (@playAndSaveGame_resumes (Toy.engine 4)
              (Toy.network Toy.silentBlack) (fun _ => EmptyString) 7
              Toy.players "silversuite/001-open.pgn" "results/round-robin"
              world') as [Hexisting _].
  destruct (@playAndSaveGame_resumes (Toy.engine 4)
              (Toy.network Toy.silentBlack) (fun _ => EmptyString) 100
              Toy.players "silversuite/001-open.pgn" "results/round-robin"
              (Toy.start Toy.silentBlack)) as [_ Hagain].
  split.
  - apply Hexisting. vm_compute. reflexivity.
  - apply Hagain. vm_compute. reflexivity.
Defined.

(** C7 fails on the code: black answers HTTP 500, the game loop returns the
    fatal error, and [playAndSaveGame] returns it with both sandboxes
    started and neither stopped; no outcome is saved. *)
Theorem playAndSaveGame_fatal_leaves_sandboxes_running :
  let run :=
    @playAndSaveGame (Toy.engine 60) (Toy.network Toy.brokenBlack)
      (fun _ => EmptyString) 100 Toy.players "silversuite/001-open.pgn"
      "results/round-robin" (Toy.start Toy.brokenBlack) in
  let world' := Toy.worldOf run (Toy.start Toy.brokenBlack) in
  Toy.resultOf run = Error "Invalid response from bob as black: 500 boom"
  ∧ docker world' = [DockerRun "alice" white; DockerRun "bob" black]
  ∧ running (docker world') = [("alice", white); ("bob", black)]
  ∧ files world' = ∅.
Proof. repeat split; vm_compute; reflexivity. Qed.

(** ** Fatal errors in a group *)

Section RoundFacts.

Implicit Types (proc : Process) (settled : list (Pair * Result unit string)).

Lemma runGroups_concat groups proc :
  foldl runGroup proc groups = foldl matchSettled proc (concat groups).
Proof.
  revert proc. induction groups as [|group groups IH]; intros proc; [done|].
  simpl. rewrite foldl_app. apply IH.
Qed.

Lemma matchSettled_exited proc settled :
  is_Some (exitCode proc) -> foldl matchSettled proc settled = proc.
Proof.
  intros [c Hc]. induction settled as [|s settled IH]; [done|].
  simpl. unfold matchSettled at 2. by rewrite Hc.
Qed.

(** The run of a schedule in closed form: everything up to the first match
    that settles with an error finishes, that error alone is reported, and
    the process exits with status 1 there. *)
Lemma matchSettled_run settled proc :
  exitCode proc = None ->
  foldl matchSettled proc settled
  = match list_find (fun s => failed s = true) settled with
    | None =>
      mkProcess (stderr proc) None
        (finishedMatches proc ++ map fst settled)
    | Some (i, s) =>
      mkProcess (stderr proc ++ fatalMessages [s]) (Some 1%Z)
        (finishedMatches proc ++ map fst (take i settled))
    end.
Proof.
  revert proc. induction settled as [|[pair [[]|message]] settled IH];
    intros proc Hrunning.
  - simpl. rewrite app_nil_r. by destruct proc; simpl in *; subst.
  - simpl. unfold matchSettled at 2. rewrite Hrunning. simpl.
    rewrite IH by done. simpl.
    destruct (list_find _ settled) as [[i s]|]; simpl;
      by rewrite <- app_assoc.
  - simpl. unfold matchSettled at 2. rewrite Hrunning. simpl.
    rewrite matchSettled_exited by (by eexists).
    simpl. by rewrite app_nil_r.
Qed.

End RoundFacts.

(** C8 as stated fails: two matches of one group both fail; the process
    exits with status 1 on the first that settles, only its message is
    written, and the match that would have finished after it never does. *)
Lemma second_fatal_error_is_not_reported :
  let group :=
    [(("a", "b"), Error "Game between a and b failed: first");
     (("c", "d"), Error "Game between c and d failed: second");
     (("e", "f"), Ok tt)] in
  fatalMessages group
  = ["Game between a and b failed: first";
     "Game between c and d failed: second"]
  ∧ runGroups [group]
    = mkProcess ["Game between a and b failed: first"] (Some 1%Z) [].
Proof. vm_compute. done. Qed.

(** C8, as the code has it. Whatever the order in which the matches settle,
    the tournament exits with status 1 as soon as one match settles with a
    fatal error; that first error message is the only one reported, the
    matches that had not settled by then do not finish and later groups are
    not run; when no match fails every match finishes and [process.exit] is
    not called. *)
Theorem first_fatal_error_exits (groups : list (list (Pair * Result unit string))) :
  runGroups groups
  = match list_find (fun s => failed s = true)
            (concat groups) with
    | None => mkProcess [] None (map fst (concat groups))
    | Some (i, s) =>
      mkProcess (fatalMessages [s]) (Some 1%Z)
        (map fst (take i (concat groups)))
    end.
Proof.
  unfold runGroups. rewrite runGroups_concat.
  by rewrite matchSettled_run.
Qed.

(** ** Points *)

Section PointsFacts.

Local Open Scope Q_scope.

Implicit Types (totals : list (string * PointTotals)) (t : PointTotals).

Lemma totalPoints_app (l1 l2 : list PointTotals) :
  totalPoints (l1 ++ l2) == totalPoints l1 + totalPoints l2.
Proof.
  induction l1 as [|t l1 IH]; simpl; [ring|]. rewrite IH. ring.
Qed.

Lemma totalPoints_perm (l1 l2 : list PointTotals) :
  l1 ≡ₚ l2 -> totalPoints l1 == totalPoints l2.
Proof.
  induction 1 as [|t l1 l2 _ IH|a b l|l1 l2 l3 _ IH1 _ IH2]; simpl.
  - reflexivity.
  - by rewrite IH.
  - ring.
  - by rewrite IH1.
Qed.

Lemma insertByPoints_perm t (l : list PointTotals) :
  insertByPoints t l ≡ₚ t :: l.
Proof.
  induction l as [|b l IH]; simpl; [done|].
  destruct (Qle_bool (points b) (points t)); [done|].
  rewrite IH. apply perm_swap.
Qed.

Lemma toSorted_perm (l : list PointTotals) : toSorted l ≡ₚ l.
Proof.
  induction l as [|t l IH]; simpl; [done|].
  by rewrite insertByPoints_perm, IH.
Qed.

Lemma ownTotals_app name totals1 totals2 :
  ownTotals name (totals1 ++ totals2)
  = match ownTotals name totals1 with
    | Some t => Some t
    | None => ownTotals name totals2
    end.
Proof.
  induction totals1 as [|[key t] totals1 IH]; simpl; [done|].
  by case_bool_decide.
Qed.

Lemma ensureTotals_plain name totals :
  inherited name = false ->
  ensureTotals name totals
  = match ownTotals name totals with
    | Some _ => totals
    | None => totals ++ [(name, mkTotals name 0 0 0 0)]
    end.
Proof.
  intros Hname. unfold ensureTotals, totalsAt, memberOf.
  destruct (ownTotals name totals); [done|]. by rewrite Hname.
Qed.

Lemma insertByIndex_perm {A : Type} (key : A -> string) a (l : list A) :
  insertByIndex key a l ≡ₚ a :: l.
Proof.
  induction l as [|b l IH]; simpl; [done|].
  destruct (_ <=? _)%N; [done|]. rewrite IH. apply perm_swap.
Qed.

Lemma ownPropertyOrder_perm {A : Type} (key : A -> string) (l : list A) :
  ownPropertyOrder key l ≡ₚ l.
Proof.
  unfold ownPropertyOrder.
  rewrite <- (filter_app_complement
                (fun a => is_Some (arrayIndex (key a))) l) at 3.
  apply Permutation_app; [|done].
  induction (filter _ l) as [|a l' IH]; simpl; [done|].
  by rewrite insertByIndex_perm, IH.
Qed.

Lemma objectValues_perm totals : objectValues totals ≡ₚ map snd totals.
Proof. unfold objectValues. by rewrite ownPropertyOrder_perm. Qed.

Lemma ownTotals_ensure name name' totals :
  inherited name = false ->
  ownTotals name' (ensureTotals name totals)
  = match ownTotals name' totals with
    | Some t => Some t
    | None =>
      if bool_decide (name = name') then Some (mkTotals name 0 0 0 0)
      else None
    end.
Proof.
  intros Hplain. rewrite ensureTotals_plain by done.
  destruct (ownTotals name totals) as [t|] eqn:Hname.
  - destruct (ownTotals name' totals) eqn:Hname'; [done|].
    case_bool_decide; [congruence|done].
  - rewrite ownTotals_app. simpl.
    by destruct (ownTotals name' totals).
Qed.

Lemma ownTotals_update f name name' totals :
  ownTotals name' (updateTotals f name totals)
  = if bool_decide (name = name') then f <$> ownTotals name' totals
    else ownTotals name' totals.
Proof.
  induction totals as [|[key t] totals IH]; simpl.
  - by case_bool_decide.
  - destruct (decide (key = name)) as [->|Hkey].
    + rewrite bool_decide_true by done. simpl.
      destruct (decide (name = name')) as [->|Hn].
      * by rewrite !bool_decide_true.
      * by rewrite !bool_decide_false.
    + rewrite (bool_decide_false (key = name)) by done. simpl. rewrite IH.
      destruct (decide (key = name')) as [->|Hk].
      * rewrite bool_decide_true by done.
        by rewrite (bool_decide_false (name = name')) by congruence.
      * by rewrite (bool_decide_false (key = name')).
Qed.

Lemma totalPoints_update f name totals d :
  is_Some (ownTotals name totals) ->
  (∀ t, points (f t) == points t + d) ->
  totalPoints (map snd (updateTotals f name totals))
  == totalPoints (map snd totals) + d.
Proof.
  intros Hsome Hf. induction totals as [|[key t] totals IH]; simpl in *.
  - by destruct Hsome.
  - case_bool_decide; simpl.
    + rewrite Hf. ring.
    + rewrite IH by done. ring.
Qed.

Lemma totalPoints_ensure name totals :
  totalPoints (map snd (ensureTotals name totals))
  == totalPoints (map snd totals).
Proof.
  unfold ensureTotals, totalsAt, memberOf.
  destruct (ownTotals name totals); [reflexivity|].
  destruct (inherited name); [reflexivity|].
  rewrite map_app, totalPoints_app. simpl. ring.
Qed.

Lemma ownTotals_ensured name totals :
  inherited name = false ->
  is_Some (ownTotals name (ensureTotals name totals)).
Proof.
  intros Hplain. rewrite ownTotals_ensure by done.
  destruct (ownTotals name totals); [done|]. by rewrite bool_decide_true.
Qed.

Lemma ownTotals_ensure_mono name name' totals :
  is_Some (ownTotals name' totals) ->
  is_Some (ownTotals name' (ensureTotals name totals)).
Proof.
  intros [t Ht]. unfold ensureTotals, totalsAt, memberOf.
  destruct (ownTotals name totals); [by eexists|].
  destruct (inherited name); [by eexists|].
  rewrite ownTotals_app, Ht. by eexists.
Qed.

Lemma ownTotals_update_mono f name name' totals :
  is_Some (ownTotals name' totals) ->
  is_Some (ownTotals name' (updateTotals f name totals)).
Proof.
  intros [t Ht]. rewrite ownTotals_update, Ht. by case_bool_decide.
Qed.

Context {M : Type}.

Implicit Types (outcome : GameOutcome M) (outcomes : list (GameOutcome M)).

(** One outcome adds one point in all. *)
Lemma countOutcome_points totals outcome :
  ownNames outcome ->
  totalPoints (map snd (countOutcome totals outcome))
  == totalPoints (map snd totals) + 1.
Proof.
  intros [Hwhite Hblack]. unfold countOutcome.
  set (white := pl_white (o_players outcome)) in *.
  set (black := pl_black (o_players outcome)) in *.
  set (ensured := ensureTotals black (ensureTotals white totals)).
  assert (Hw : is_Some (ownTotals white ensured)).
  { by apply ownTotals_ensure_mono, ownTotals_ensured. }
  assert (Hb : is_Some (ownTotals black ensured)).
  { by apply ownTotals_ensured. }
  assert (He : totalPoints (map snd ensured) == totalPoints (map snd totals)).
  { unfold ensured. by rewrite !totalPoints_ensure. }
  destruct (verdictType (o_verdict outcome)); [case_bool_decide|].
  - rewrite (totalPoints_update addLoss black _ POINTS_PER_LOSS);
      [|by apply ownTotals_update_mono|by intros t].
    rewrite (totalPoints_update addWin white _ POINTS_PER_WIN);
      [|done|by intros t].
    rewrite He. unfold POINTS_PER_WIN, POINTS_PER_LOSS. ring.
  - rewrite (totalPoints_update addLoss white _ POINTS_PER_LOSS);
      [|by apply ownTotals_update_mono|by intros t].
    rewrite (totalPoints_update addWin black _ POINTS_PER_WIN);
      [|done|by intros t].
    rewrite He. unfold POINTS_PER_WIN, POINTS_PER_LOSS. ring.
  - rewrite (totalPoints_update addDraw black _ POINTS_PER_DRAW);
      [|by apply ownTotals_update_mono|by intros t].
    rewrite (totalPoints_update addDraw white _ POINTS_PER_DRAW);
      [|done|by intros t].
    rewrite He. unfold POINTS_PER_DRAW. ring.
Qed.

(** The points of all the bots add up to the number of outcomes, when no
    bot is named like a member of [Object.prototype]. *)
Lemma calculatePoints_conserves outcomes :
  Forall ownNames outcomes ->
  totalPoints (calculatePoints outcomes)
  == inject_Z (Z.of_nat (length outcomes)).
Proof.
  unfold calculatePoints.
  rewrite (totalPoints_perm _ _ (toSorted_perm _)).
  rewrite (totalPoints_perm _ _ (objectValues_perm _)).
  induction outcomes as [|outcome outcomes IH] using rev_ind; [done|].
  intros [Hall Hown]%Forall_app. rewrite Forall_singleton in Hown.
  rewrite foldl_snoc, (countOutcome_points _ _ Hown), (IH Hall), length_app.
  simpl.
  rewrite Nat2Z.inj_add, inject_Z_plus. reflexivity.
Qed.

End PointsFacts.

Section TallyFacts.

Context {M : Type}.

Implicit Types (totals : list (string * PointTotals)) (t : PointTotals).
Implicit Types (outcome : GameOutcome M) (outcomes : list (GameOutcome M)).

Lemma count_snoc {A : Type} (P : A -> Prop) `{∀ x, Decision (P x)}
    (l : list A) (x : A) :
  count P (l ++ [x]) = count P l + (if decide (P x) then 1 else 0).
Proof.
  unfold count. rewrite filter_app, length_app, filter_cons, filter_nil.
  by case_decide.
Qed.

Lemma ownTotals_ensured2 name x y totals :
  inherited x = false -> inherited y = false ->
  ownTotals name (ensureTotals x (ensureTotals y totals))
  = match ownTotals name totals with
    | Some t => Some t
    | None =>
      if decide (x = name ∨ y = name) then Some (mkTotals name 0 0 0 0)
      else None
    end.
Proof.
  intros Hplainx Hplainy.
  rewrite !ownTotals_ensure by done. destruct (ownTotals name totals); [done|].
  destruct (decide (y = name)) as [->|Hy].
  - rewrite bool_decide_true by done. by rewrite decide_True by (by right).
  - rewrite (bool_decide_false (y = name)) by done.
    destruct (decide (x = name)) as [->|Hx].
    + rewrite bool_decide_true by done. by rewrite decide_True by (by left).
    + rewrite bool_decide_false by done.
      by rewrite decide_False by (by intros [?|?]).
Qed.

Lemma ownTotals_updated2 name a b f g totals :
  a ≠ b ->
  ownTotals name (updateTotals g b (updateTotals f a totals))
  = (if bool_decide (a = name) then f
     else if bool_decide (b = name) then g else id)
    <$> ownTotals name totals.
Proof.
  intros Hab. rewrite !ownTotals_update.
  destruct (decide (a = name)) as [->|Ha].
  - rewrite (bool_decide_false (b = name)) by done.
    by rewrite bool_decide_true.
  - rewrite (bool_decide_false (a = name)) by done.
    case_bool_decide; [done|]. by destruct (ownTotals name totals).
Qed.

(** What one more outcome does to the entry of a bot. *)
Lemma countOutcome_entry name totals outcome :
  wellFormed outcome -> ownNames outcome ->
  ownTotals name (countOutcome totals outcome)
  = if decide (playsIn name outcome) then
      let t := default (mkTotals name 0 0 0 0) (ownTotals name totals) in
      Some (if decide (drawn outcome) then addDraw t
            else if decide (wonBy name outcome) then addWin t
                 else addLoss t)
    else ownTotals name totals.
Proof.
  intros [Hdistinct Hwinner] [Hwhite Hblack]. unfold countOutcome.
  set (white := pl_white (o_players outcome)) in *.
  set (black := pl_black (o_players outcome)) in *.
  assert (Hcases :
    (white = name ∧ black ≠ name) ∨ (white ≠ name ∧ black = name)
    ∨ (white ≠ name ∧ black ≠ name)).
  { destruct (decide (white = name)), (decide (black = name));
      [congruence|by left|by right; left|by right; right]. }
  assert (Hwin : verdictType (o_verdict outcome) = TYPE_WIN ->
    ∃ winner, verdictWinner (o_verdict outcome) = Some winner
              ∧ (winner = white ∨ winner = black)).
  { destruct (o_verdict outcome) as [?|winner|winner ? ?]; [done|..];
      intros _; exists winner; (split; [done|]);
      (destruct (Hwinner winner eq_refl) as [Hp|Hp]; [by left|by right]). }
  assert (Hplays : playsIn name outcome <-> white = name ∨ black = name)
    by done.
  destruct (verdictType (o_verdict outcome)) eqn:Htype.
  - destruct (Hwin eq_refl) as (winner & Hv & Hwho).
    rewrite (decide_False (P := drawn outcome))
      by (unfold drawn; congruence).
    assert (Hwon : wonBy name outcome <-> winner = name).
    { unfold wonBy. rewrite Hv. split; congruence. }
    rewrite Hv.
    assert (Hsame : bool_decide (Some winner = Some white)
                    = bool_decide (winner = white)).
    { apply bool_decide_ext. split; congruence. }
    rewrite Hsame.
    destruct Hwho as [->| ->].
    + rewrite bool_decide_true by done.
      rewrite ownTotals_updated2, ownTotals_ensured2 by done.
      destruct Hcases as [[Hw Hb]|[[Hw Hb]|[Hw Hb]]].
      * rewrite bool_decide_true by done.
        rewrite (decide_True (P := playsIn name outcome)) by tauto.
        rewrite (decide_True (P := wonBy name outcome)) by tauto.
        rewrite decide_True by tauto.
        by destruct (ownTotals name totals).
      * rewrite (bool_decide_false (white = name)), bool_decide_true by done.
        rewrite (decide_True (P := playsIn name outcome)) by tauto.
        rewrite (decide_False (P := wonBy name outcome)) by tauto.
        rewrite decide_True by tauto.
        by destruct (ownTotals name totals).
      * rewrite !bool_decide_false by done.
        rewrite (decide_False (P := playsIn name outcome)) by tauto.
        rewrite decide_False by tauto.
        by destruct (ownTotals name totals).
    + rewrite bool_decide_false by done.
      rewrite ownTotals_updated2, ownTotals_ensured2 by done.
      destruct Hcases as [[Hw Hb]|[[Hw Hb]|[Hw Hb]]].
      * rewrite (bool_decide_false (black = name)), bool_decide_true by done.
        rewrite (decide_True (P := playsIn name outcome)) by tauto.
        rewrite (decide_False (P := wonBy name outcome)) by tauto.
        rewrite decide_True by tauto.
        by destruct (ownTotals name totals).
      * rewrite bool_decide_true by done.
        rewrite (decide_True (P := playsIn name outcome)) by tauto.
        rewrite (decide_True (P := wonBy name outcome)) by tauto.
        rewrite decide_True by tauto.
        by destruct (ownTotals name totals).
      * rewrite !bool_decide_false by done.
        rewrite (decide_False (P := playsIn name outcome)) by tauto.
        rewrite decide_False by tauto.
        by destruct (ownTotals name totals).
  - rewrite (decide_True (P := drawn outcome)) by done.
    rewrite ownTotals_updated2, ownTotals_ensured2 by done.
    destruct Hcases as [[Hw Hb]|[[Hw Hb]|[Hw Hb]]].
    + rewrite bool_decide_true by done.
      rewrite (decide_True (P := playsIn name outcome)) by tauto.
      rewrite decide_True by tauto.
      by destruct (ownTotals name totals).
    + rewrite (bool_decide_false (white = name)), bool_decide_true by done.
      rewrite (decide_True (P := playsIn name outcome)) by tauto.
      rewrite decide_True by tauto.
      by destruct (ownTotals name totals).
    + rewrite !bool_decide_false by done.
      rewrite (decide_False (P := playsIn name outcome)) by tauto.
      rewrite decide_False by tauto.
      by destruct (ownTotals name totals).
Qed.

Lemma wonBy_plays name outcome :
  wellFormed outcome -> wonBy name outcome ->
  playsIn name outcome ∧ ¬ drawn outcome.
Proof.
  intros [_ Hwinner] Hwon. split; [by apply Hwinner|].
  unfold drawn, wonBy in *. by destruct (o_verdict outcome).
Qed.

(** The entry of a bot after all the outcomes are counted. *)
Lemma entry_tally name outcomes :
  Forall wellFormed outcomes -> Forall ownNames outcomes ->
  let entry := ownTotals name (foldl countOutcome [] outcomes) in
  let t := default (mkTotals name 0 0 0 0) entry in
  bot t = name
  ∧ talliesOf outcomes t
  ∧ (is_Some entry <-> 0 < count (playsIn name) outcomes).
Proof.
  induction outcomes as [|outcome outcomes IH] using rev_ind;
    intros Hall Hown.
  - simpl. split; [done|]. split.
    + unfold talliesOf, count. simpl. repeat split; reflexivity.
    + unfold count. simpl. split; [by intros [? ?]|lia].
  - apply Forall_app in Hall as [Hall Hwf]. rewrite Forall_singleton in Hwf.
    apply Forall_app in Hown as [Hown Hplain].
    rewrite Forall_singleton in Hplain.
    specialize (IH Hall Hown). simpl in IH.
    destruct IH as (Hbot & (Hw & Hd & Hl & Hsum & Hp) & Hsome).
    simpl. rewrite foldl_snoc, countOutcome_entry by done.
    set (entry := ownTotals name (foldl countOutcome [] outcomes)) in *.
    set (t := default (mkTotals name 0 0 0 0) entry) in *.
    rewrite Hbot in Hw, Hd, Hl, Hsum.
    pose proof (wonBy_plays name outcome Hwf) as Hwon.
    destruct (decide (playsIn name outcome)) as [Hplays|Hplays].
    + simpl. split; [by destruct (decide (drawn outcome)),
                          (decide (wonBy name outcome))|].
      split; [|rewrite count_snoc,
                 (decide_True (P := playsIn name outcome)) by done;
               split; [intros _; lia|intros _; by eexists]].
      unfold talliesOf.
      assert (Hb : bot (if decide (drawn outcome) then addDraw t
                        else if decide (wonBy name outcome) then addWin t
                             else addLoss t) = name).
      { by destruct (decide (drawn outcome)),
          (decide (wonBy name outcome)). }
      rewrite Hb, !count_snoc.
      rewrite (decide_True (P := playsIn name outcome)) by done.
      destruct (decide (drawn outcome)) as [Hdr|Hdr].
      * rewrite (decide_False (P := wonBy name outcome)) by tauto.
        rewrite decide_True by tauto. rewrite decide_False by tauto.
        simpl. repeat split; try lia.
        rewrite Hp, !Nat2Z.inj_add, !inject_Z_plus.
        unfold POINTS_PER_WIN, POINTS_PER_DRAW, POINTS_PER_LOSS. ring.
      * rewrite (decide_False (P := drawn outcome ∧ playsIn name outcome))
          by tauto.
        destruct (decide (wonBy name outcome)) as [Hwo|Hwo].
        -- rewrite decide_False by tauto.
           simpl. repeat split; try lia.
           rewrite Hp, !Nat2Z.inj_add, !inject_Z_plus.
           unfold POINTS_PER_WIN, POINTS_PER_DRAW, POINTS_PER_LOSS. ring.
        -- rewrite decide_True by tauto.
           simpl. repeat split; try lia.
           rewrite Hp, !Nat2Z.inj_add, !inject_Z_plus.
           unfold POINTS_PER_WIN, POINTS_PER_DRAW, POINTS_PER_LOSS. ring.
    + fold entry. fold t. split; [done|]. split.
      * unfold talliesOf. rewrite Hbot, !count_snoc.
        rewrite (decide_False (P := wonBy name outcome)) by tauto.
        rewrite (decide_False (P := playsIn name outcome)) by done.
        rewrite !decide_False by tauto.
        rewrite !Nat.add_0_r. done.
      * rewrite count_snoc, decide_False by done. by rewrite Nat.add_0_r.
Qed.

Lemma updateTotals_keys f name totals :
  map fst (updateTotals f name totals) = map fst totals.
Proof.
  induction totals as [|[key t] totals IH]; simpl; [done|].
  case_bool_decide; simpl; [done|]. by rewrite IH.
Qed.

Lemma ownTotals_None name totals :
  ownTotals name totals = None <-> name ∉ map fst totals.
Proof.
  induction totals as [|[key t] totals IH]; simpl.
  - split; [intros _; apply not_elem_of_nil|done].
  - rewrite not_elem_of_cons. case_bool_decide as Hkey.
    + split; [done|]. intros [Hne _]. by subst.
    + rewrite IH. split; [by intros ?|by intros [_ ?]].
Qed.

Lemma ownTotals_elem key t totals :
  NoDup (map fst totals) -> (key, t) ∈ totals ->
  ownTotals key totals = Some t.
Proof.
  induction totals as [|[key' t'] totals IH]; simpl.
  - by intros _ ?%elem_of_nil.
  - intros [Hfresh Hnd]%NoDup_cons [[= -> ->]|Hin]%elem_of_cons.
    + by rewrite bool_decide_true.
    + rewrite bool_decide_false; [by apply IH|].
      intros ->. apply Hfresh. apply list_elem_of_fmap. by exists (key, t).
Qed.

Lemma ownTotals_Some key t totals :
  ownTotals key totals = Some t -> (key, t) ∈ totals.
Proof.
  induction totals as [|[key' t'] totals IH]; simpl; [done|].
  case_bool_decide as Hkey.
  - intros [= ->]. subst. by left.
  - intros H. right. by apply IH.
Qed.

Lemma ensureTotals_NoDup name totals :
  NoDup (map fst totals) -> NoDup (map fst (ensureTotals name totals)).
Proof.
  intros Hnd. unfold ensureTotals, totalsAt, memberOf.
  destruct (ownTotals name totals) eqn:Hname; [done|].
  destruct (inherited name); [done|].
  rewrite map_app. simpl. apply NoDup_app. split; [done|]. split.
  - intros key Hkey ->%list_elem_of_singleton.
    by apply ownTotals_None in Hname.
  - apply NoDup_singleton.
Qed.

Lemma countOutcome_NoDup totals outcome :
  NoDup (map fst totals) -> NoDup (map fst (countOutcome totals outcome)).
Proof.
  intros Hnd. unfold countOutcome.
  destruct (verdictType (o_verdict outcome)); [case_bool_decide|];
    rewrite !updateTotals_keys; by do 2 apply ensureTotals_NoDup.
Qed.

Lemma counted_NoDup outcomes :
  NoDup (map fst (foldl (@countOutcome M) [] outcomes)).
Proof.
  induction outcomes as [|outcome outcomes IH] using rev_ind.
  - apply NoDup_nil_2.
  - rewrite foldl_snoc. by apply countOutcome_NoDup.
Qed.

(** X29. When the two players of every outcome differ, every win names
    one of them as the winner and no bot is named like a member of
    [Object.prototype]: the points of all the bots add up to the number of
    outcomes; every bot that plays is listed once; and the tallies of a
    listed bot are one win and [POINTS_PER_WIN] for each outcome it won,
    one loss and [POINTS_PER_LOSS] for each outcome it played that the
    other bot won, one draw and [POINTS_PER_DRAW] for each drawn outcome it
    played, wins, draws and losses adding up to the number of outcomes it
    appears in. *)
Theorem calculatePoints_tallies outcomes :
  Forall wellFormed outcomes ->
  Forall ownNames outcomes ->
  (totalPoints (calculatePoints outcomes)
   == inject_Z (Z.of_nat (length outcomes)))%Q
  ∧ (∀ t, t ∈ calculatePoints outcomes ->
          talliesOf outcomes t ∧ 0 < count (playsIn (bot t)) outcomes)
  ∧ (∀ name, 0 < count (playsIn name) outcomes ->
             ∃ t, t ∈ calculatePoints outcomes ∧ bot t = name)
  ∧ NoDup (map bot (calculatePoints outcomes)).
Proof.
  intros Hall Hown. split; [by apply calculatePoints_conserves|].
  unfold calculatePoints.
  set (totals := foldl countOutcome [] outcomes).
  pose proof (counted_NoDup outcomes) as Hnd. fold totals in Hnd.
  assert (Hentry : ∀ key t, (key, t) ∈ totals ->
    bot t = key ∧ talliesOf outcomes t
    ∧ 0 < count (playsIn key) outcomes).
  { intros key t Hin. apply ownTotals_elem in Hin; [|done].
    pose proof (entry_tally key outcomes Hall Hown) as Ht. simpl in Ht.
    fold totals in Ht. rewrite Hin in Ht. simpl in Ht.
    destruct Ht as (Hbot & Htally & Hsome). split; [done|]. split; [done|].
    apply Hsome. by eexists. }
  split; [|split].
  - intros t Ht. rewrite toSorted_perm, objectValues_perm in Ht.
    apply list_elem_of_fmap in Ht as ([key t'] & -> & Hin). simpl.
    destruct (Hentry key t' Hin) as (-> & ? & ?). done.
  - intros name Hplays.
    pose proof (entry_tally name outcomes Hall Hown) as Ht. simpl in Ht.
    fold totals in Ht. destruct Ht as (_ & _ & Hsome).
    apply Hsome in Hplays as [t Ht]. apply ownTotals_Some in Ht.
    exists t. split.
    + rewrite toSorted_perm, objectValues_perm.
      apply list_elem_of_fmap. by exists (name, t).
    + by destruct (Hentry name t Ht).
  - rewrite toSorted_perm, objectValues_perm.
    replace (map bot (map snd totals)) with (map fst totals); [done|].
    rewrite map_map. apply map_ext_in. intros [key t] Hin. simpl.
    apply list_elem_of_In in Hin. by destruct (Hentry key t Hin).
Qed.

End TallyFacts.

(** C10, where the code departs from it. A bot named [constructor] beats
    bob and then draws with bob. [totals["constructor"]] is the inherited
    [Object.prototype.constructor], so no entry is created for the bot and
    its win and its draw are written on that function: the standings list
    bob alone, with one loss, one draw and half a point, and the points add
    up to 1/2 for 2 outcomes. *)
Theorem calculatePoints_misses_constructor :
  let outcomes : list (GameOutcome unit) :=
    [mkOutcome (mkPlayers "constructor" "bob") EmptyString 0 []
       (WIN_CHECKMATE "constructor");
     mkOutcome (mkPlayers "bob" "constructor") EmptyString 0 []
       (DRAW STALEMATE)] in
  map (fun t => (bot t, wins t, draws t, losses t, Qred (points t)))
    (calculatePoints outcomes)
  = [("bob", 0, 1, 1, (1 # 2)%Q)]
  ∧ count (playsIn "constructor") outcomes = 2
  ∧ count (wonBy "constructor") outcomes = 1
  ∧ Qred (totalPoints (calculatePoints outcomes)) = (1 # 2)%Q
  ∧ length outcomes = 2
  ∧ Forall wellFormed outcomes.
Proof.
  intros outcomes. repeat split; try (vm_compute; reflexivity).
  unfold outcomes. repeat (apply Forall_cons; split);
    try apply Forall_nil_2;
    (split; [discriminate|]); intros winner Hw; simpl in Hw;
    try discriminate Hw; injection Hw as <-; unfold playsIn; simpl;
    first [by left|by right].
Qed.

Lemma calculatePoints_tallies_witness :
  let outcomes : list (GameOutcome unit) :=
    [mkOutcome (mkPlayers "alice" "bob") EmptyString 0 []
       (WIN_CHECKMATE "alice");
     mkOutcome (mkPlayers "bob" "alice") EmptyString 0 [] (DRAW STALEMATE);
     mkOutcome (mkPlayers "carol" "alice") EmptyString 0 []
       (WIN_FORFEIT "carol" OPPONENT_EXCEEDED_MAX_ATTEMPTS
          [OUT_OF_MEMORY; OUT_OF_MEMORY; OUT_OF_MEMORY])] in
  (totalPoints (calculatePoints outcomes) == 3)%Q
  ∧ (∀ t, t ∈ calculatePoints outcomes ->
          talliesOf outcomes t ∧ 0 < count (playsIn (bot t)) outcomes)
  ∧ (∀ name, 0 < count (playsIn name) outcomes ->
             ∃ t, t ∈ calculatePoints outcomes ∧ bot t = name)
  ∧ NoDup (map bot (calculatePoints outcomes)).
Proof.
  intros outcomes.
  apply (calculatePoints_tallies outcomes).
  - unfold outcomes. repeat (apply Forall_cons; split);
      try apply Forall_nil_2;
      (split; [discriminate|]); intros winner Hw; simpl in Hw;
      try discriminate Hw; injection Hw as <-; unfold playsIn; simpl;
      first [by left|by right].
  - unfold outcomes. repeat (apply Forall_cons; split);
      try apply Forall_nil_2; split; vm_compute; reflexivity.
Defined.

Example calculatePoints_three_games :
  map (fun t => (bot t, wins t, draws t, losses t, Qred (points t)))
    (calculatePoints
       [mkOutcome (M := unit) (mkPlayers "alice" "bob") EmptyString 0 []
          (WIN_CHECKMATE "alice");
        mkOutcome (mkPlayers "bob" "alice") EmptyString 0 [] (DRAW STALEMATE);
        mkOutcome (mkPlayers "carol" "alice") EmptyString 0 []
          (WIN_FORFEIT "carol" OPPONENT_EXCEEDED_MAX_ATTEMPTS
             [OUT_OF_MEMORY; OUT_OF_MEMORY; OUT_OF_MEMORY])])
  = [("alice", 1, 1, 1, (3 # 2)%Q); ("carol", 1, 0, 0, 1%Q);
     ("bob", 0, 1, 1, (1 # 2)%Q)].
Proof. vm_compute. reflexivity. Qed.

(** * Further properties of the runner *)

(** ** Scheduler: what the grouping keeps *)

Section GroupingFacts.

Implicit Types (pair : Pair) (groups : list (list Pair)).

Lemma concat_alter_push pair groups i group :
  groups !! i = Some group ->
  concat (alter (fun g => g ++ [pair]) i groups) ≡ₚ concat groups ++ [pair].
Proof.
  revert i. induction groups as [|g groups IH]; intros [|i] Hi;
    simpl in *; try done.
  - injection Hi as ->. rewrite <- !app_assoc.
    apply Permutation_app_head, Permutation_app_comm.
  - rewrite (IH i Hi). by rewrite app_assoc.
Qed.

Lemma placePair_concat capacity groups pair :
  concat (placePair capacity groups pair) ≡ₚ concat groups ++ [pair].
Proof.
  unfold placePair.
  destruct (list_find _ groups) as [[i group]|] eqn:Hfind.
  - apply list_find_Some in Hfind as (Hi & _ & _).
    by apply concat_alter_push with group.
  - rewrite concat_app. simpl. done.
Qed.

Lemma placePair_nonempty capacity groups pair :
  Forall (fun group => group ≠ []) groups ->
  Forall (fun group => group ≠ []) (placePair capacity groups pair).
Proof.
  intros Hall. unfold placePair.
  destruct (list_find _ groups) as [[i group]|].
  - apply Forall_alter; [done|]. intros g _ _. by destruct g.
  - apply Forall_app. split; [done|]. by apply Forall_singleton.
Qed.

Lemma foldl_placePair capacity pairs groups :
  concat (foldl (placePair capacity) groups pairs) ≡ₚ concat groups ++ pairs
  ∧ (Forall (fun group => group ≠ []) groups ->
     Forall (fun group => group ≠ [])
       (foldl (placePair capacity) groups pairs)).
Proof.
  revert groups. induction pairs as [|pair pairs IH]; intros groups; simpl.
  - by rewrite app_nil_r.
  - destruct (IH (placePair capacity groups pair)) as [Hperm Hne]. split.
    + rewrite Hperm, placePair_concat, <- app_assoc. done.
    + intros Hall. by apply Hne, placePair_nonempty.
Qed.

Lemma placePair_no_room capacity groups pair :
  (capacity ≤ 0)%Z -> placePair capacity groups pair = groups ++ [[pair]].
Proof.
  intros Hcap. unfold placePair.
  destruct (list_find _ groups) as [[i group]|] eqn:Hfind; [|done].
  apply list_find_Some in Hfind as (_ & Hav & _).
  unfold available in Hav. apply andb_true_iff in Hav as [Hroom _].
  apply bool_decide_eq_true in Hroom. lia.
Qed.

End GroupingFacts.

(** X1. Whatever the capacity, the grouping places every pairing in exactly
    one group and opens no empty group: the groups laid end to end are a
    rearrangement of the list of pairings. *)
Theorem makeGroups_places_each_pair_once (capacity : Z) (pairs : list Pair) :
  concat (makeGroups capacity pairs) ≡ₚ pairs
  ∧ Forall (fun group => group ≠ []) (makeGroups capacity pairs).
Proof.
  unfold makeGroups. destruct (foldl_placePair capacity pairs []) as [H1 H2].
  split; [exact H1|]. by apply H2.
Qed.

(** X2. On a machine with fewer than 6 cores the capacity is zero or
    negative, no group ever has room, and every pairing is put in a group
    of its own: the matches are played one pairing at a time. *)
Theorem roundRobinGroups_few_cores (cpus : nat) (names : list string) :
  cpus < 6 ->
  roundRobinGroups cpus names = map (fun pair => [pair]) (permutations names).
Proof.
  intros Hcpus. unfold roundRobinGroups, makeGroups.
  assert (Hcap : (pairsPerGroup cpus ≤ 0)%Z).
  { unfold pairsPerGroup.
    assert ((Z.of_nat cpus - 2) `div` 4 < 1)%Z; [|lia].
    apply Z.div_lt_upper_bound; lia. }
  generalize (permutations names) as pairs.
  assert (Hfold : ∀ pairs groups,
    foldl (placePair (pairsPerGroup cpus)) groups pairs
    = groups ++ map (fun pair => [pair]) pairs).
  { induction pairs as [|pair pairs IH]; intros groups; simpl.
    - by rewrite app_nil_r.
    - rewrite placePair_no_room, IH, <- app_assoc by done. done. }
  intros pairs. apply (Hfold pairs []).
Qed.

Lemma roundRobinGroups_few_cores_witness :
  4 < 6
  ∧ roundRobinGroups 4 ["a"; "b"; "c"]
    = [[("a", "b")]; [("a", "c")]; [("b", "c")]].
Proof.
  assert (H : 4 < 6) by lia. split; [exact H|].
  exact (roundRobinGroups_few_cores 4 ["a"; "b"; "c"] H).
Defined.

(** ** Scheduler: the pairs listed *)

Lemma pairings_lookup (l : list string) v w :
  (v, w) ∈ pairings l
  <-> ∃ i j, i < j ∧ l !! i = Some v ∧ l !! j = Some w.
Proof.
  induction l as [|x l IH]; simpl.
  - split; [by intros ?%elem_of_nil|]. by intros (i & j & _ & Hi & _).
  - rewrite elem_of_app, list_elem_of_fmap, IH. split.
    + intros [(u & [= -> ->] & Hu)|(i & j & Hij & Hi & Hj)].
      * apply list_elem_of_lookup in Hu as [j Hj]. exists 0, (S j).
        split; [lia|done].
      * exists (S i), (S j). split; [lia|done].
    + intros ([|i] & j & Hij & Hi & Hj).
      * destruct j as [|j]; [lia|]. simpl in *. injection Hi as ->.
        left. exists w. split; [done|]. apply list_elem_of_lookup.
        by exists j.
      * destruct j as [|j]; [lia|]. simpl in *. right.
        exists i, j. split; [lia|done].
Qed.

(** X3. [permutations] lists a pair [(v, w)] exactly when [v] stands before
    [w] in the array: each entrant is paired with each later one, in that
    orientation. *)
Theorem permutations_lookup (array : list string) (v w : string) :
  (v, w) ∈ permutations array
  <-> ∃ i j, i < j ∧ array !! i = Some v ∧ array !! j = Some w.
Proof. rewrite permutations_pairings. apply pairings_lookup. Qed.

Lemma pairings_NoDup (l : list string) : NoDup l -> NoDup (pairings l).
Proof.
  induction l as [|x l IH]; simpl; [intros _; apply NoDup_nil_2|].
  intros [Hx Hnd]%NoDup_cons. apply NoDup_app. split; [|split].
  - apply NoDup_fmap_2; [|done]. by intros u1 u2 [= ->].
  - intros [v w] (u & [= -> ->] & Hu)%list_elem_of_fmap Hin.
    apply pairings_lookup in Hin as (i & j & _ & Hi & _).
    apply Hx. apply list_elem_of_lookup. by exists i.
  - by apply IH.
Qed.

(** X4. For distinct names no pairing is listed twice, in either
    orientation: the list of pairs has no duplicate and never holds both
    [(v, w)] and [(w, v)]. *)
Theorem permutations_unordered (array : list string) :
  NoDup array ->
  NoDup (permutations array)
  ∧ ∀ v w, (v, w) ∈ permutations array -> (w, v) ∉ permutations array.
Proof.
  intros Hnd. rewrite permutations_pairings. split; [by apply pairings_NoDup|].
  intros v w (i & j & Hij & Hi & Hj)%pairings_lookup
    (i' & j' & Hij' & Hi' & Hj')%pairings_lookup.
  assert (i = j') by (by eapply NoDup_lookup).
  assert (j = i') by (by eapply NoDup_lookup). lia.
Qed.

Lemma permutations_unordered_witness :
  NoDup ["a"; "b"; "c"]
  ∧ NoDup (permutations ["a"; "b"; "c"])
  ∧ ("b", "a") ∉ permutations ["a"; "b"; "c"].
Proof.
  assert (Hnd : NoDup ["a"; "b"; "c"]) by compute_done.
  destruct (permutations_unordered ["a"; "b"; "c"] Hnd) as [H1 H2].
  split; [exact Hnd|]. split; [exact H1|].
  apply H2. compute_done.
Defined.

(** ** The openings of the three phases *)

(** X5. With at least 31 opening files the round robin, the match for third
    place and the finals play three separate stretches of the sorted
    listing: its first 11 files, then (after the files no phase uses) the 10
    before the last 10, then the last 10. *)
Theorem openings_are_disjoint_blocks (files : list string) :
  31 ≤ length files ->
  ∃ unused,
    files = getRoundRobinPgns files ++ unused
            ++ getThirdPlaceGames files ++ getFinalsGames files
    ∧ length (getRoundRobinPgns files) = 11
    ∧ length (getThirdPlaceGames files) = 10
    ∧ length (getFinalsGames files) = 10.
Proof.
  intros Hlen.
  unfold getRoundRobinPgns, getThirdPlaceGames, getFinalsGames, slice,
    sliceFrom, sliceIndex, ROUND_ROBIN_STARTING_POSITIONS, NUM_FINALS_GAMES.
  set (n := length files) in *.
  rewrite !bool_decide_false by lia.
  replace (Z.to_nat (0 `min` Z.of_nat n)) with 0 by lia.
  replace (Z.to_nat (11 `min` Z.of_nat n)) with 11 by lia.
  replace (Z.to_nat ((Z.of_nat n - 2 * 10) `min` Z.of_nat n))
    with (n - 20) by lia.
  replace (Z.to_nat ((Z.of_nat n - 10) `min` Z.of_nat n))
    with (n - 10) by lia.
  replace (n - 10 - (n - 20)) with 10 by lia.
  rewrite drop_0, Nat.sub_0_r.
  exists (take (n - 31) (drop 11 files)).
  rewrite !length_take, !length_drop. fold n.
  split; [|lia].
  rewrite <- (take_drop 11 files) at 1. f_equal.
  rewrite <- (take_drop (n - 31) (drop 11 files)) at 1. f_equal.
  rewrite drop_drop. replace (11 + (n - 31)) with (n - 20) by lia.
  rewrite <- (take_drop 10 (drop (n - 20) files)) at 1. f_equal.
  rewrite drop_drop. f_equal. lia.
Qed.

Lemma openings_are_disjoint_blocks_witness :
  let files := map (fun k : nat => pretty k) (seq 0 33) in
  31 ≤ length files
  ∧ ∃ unused,
      files = getRoundRobinPgns files ++ unused
              ++ getThirdPlaceGames files ++ getFinalsGames files
      ∧ length (getRoundRobinPgns files) = 11
      ∧ length (getThirdPlaceGames files) = 10
      ∧ length (getFinalsGames files) = 10.
Proof.
  intros files.
  assert (H : 31 ≤ length files) by (vm_compute; lia).
  split; [exact H|]. exact (openings_are_disjoint_blocks files H).
Defined.

(** X6. With 20 to 30 opening files the round robin and the match for third
    place share openings: the first opening of the third-place stretch is
    also one of the 11 round-robin openings. *)
Theorem openings_overlap_below_31 (files : list string) :
  20 ≤ length files -> length files < 31 ->
  ∃ opening,
    head (getThirdPlaceGames files) = Some opening
    ∧ opening ∈ getRoundRobinPgns files.
Proof.
  intros Hlo Hhi.
  unfold getRoundRobinPgns, getThirdPlaceGames, slice, sliceIndex,
    ROUND_ROBIN_STARTING_POSITIONS, NUM_FINALS_GAMES.
  set (n := length files) in *.
  rewrite !bool_decide_false by lia.
  replace (Z.to_nat (0 `min` Z.of_nat n)) with 0 by lia.
  replace (Z.to_nat (11 `min` Z.of_nat n)) with 11 by lia.
  replace (Z.to_nat ((Z.of_nat n - 2 * 10) `min` Z.of_nat n))
    with (n - 20) by lia.
  replace (Z.to_nat ((Z.of_nat n - 10) `min` Z.of_nat n))
    with (n - 10) by lia.
  replace (n - 10 - (n - 20)) with 10 by lia.
  rewrite drop_0, Nat.sub_0_r.
  destruct (lookup_lt_is_Some_2 files (n - 20)) as [opening Hopening];
    [fold n; lia|].
  exists opening. split.
  - rewrite head_lookup, lookup_take_lt, lookup_drop by lia.
    by rewrite Nat.add_0_r.
  - apply list_elem_of_lookup. exists (n - 20).
    by rewrite lookup_take_lt by lia.
Qed.

Lemma openings_overlap_below_31_witness :
  let files := map (fun k : nat => pretty k) (seq 0 25) in
  20 ≤ length files ∧ length files < 31
  ∧ ∃ opening,
      head (getThirdPlaceGames files) = Some opening
      ∧ opening ∈ getRoundRobinPgns files.
Proof.
  intros files.
  assert (H1 : 20 ≤ length files) by (vm_compute; lia).
  assert (H2 : length files < 31) by (vm_compute; lia).
  split; [exact H1|]. split; [exact H2|].
  exact (openings_overlap_below_31 files H1 H2).
Defined.

(** X7. With fewer than 10 opening files the start of the finals slice is
    negative and is counted from the end: the finals play the files from
    position [2 * length - 10] on (all of them up to 5 files, the last 3 of
    7), and the match for third place plays the files before those. *)
Theorem openings_short_listing (files : list string) :
  length files < 10 ->
  getFinalsGames files = drop (2 * length files - 10) files
  ∧ getThirdPlaceGames files = take (2 * length files - 10) files.
Proof.
  intros Hlen.
  unfold getThirdPlaceGames, getFinalsGames, slice, sliceFrom, sliceIndex,
    NUM_FINALS_GAMES.
  set (n := length files) in *.
  rewrite !bool_decide_true by lia.
  replace (Z.to_nat ((Z.of_nat n + (Z.of_nat n - 10)) `max` 0))
    with (2 * n - 10) by lia.
  replace (Z.to_nat ((Z.of_nat n + (Z.of_nat n - 2 * 10)) `max` 0))
    with 0 by lia.
  by rewrite drop_0, Nat.sub_0_r.
Qed.

Lemma openings_short_listing_witness :
  let files := ["001-a.pgn"; "002-b.pgn"; "003-c.pgn"; "004-d.pgn";
                "005-e.pgn"; "006-f.pgn"; "007-g.pgn"] in
  length files < 10
  ∧ getFinalsGames files = ["005-e.pgn"; "006-f.pgn"; "007-g.pgn"]
  ∧ getThirdPlaceGames files
    = ["001-a.pgn"; "002-b.pgn"; "003-c.pgn"; "004-d.pgn"].
Proof.
  intros files.
  assert (H : length files < 10) by (vm_compute; lia).
  split; [exact H|]. exact (openings_short_listing files H).
Defined.

(** ** Result file names *)

Section FileNames.

Implicit Types (s a b : string) (sep c : ascii).

Lemma append_nil_l s : EmptyString +:+ s = s.
Proof. reflexivity. Qed.

Lemma append_cons c a s : String c a +:+ s = String c (a +:+ s).
Proof. reflexivity. Qed.

Lemma append_assoc' a b s : (a +:+ b) +:+ s = a +:+ (b +:+ s).
Proof.
  induction a as [|c a IH]; [done|]. rewrite !append_cons. by rewrite IH.
Qed.

Lemma length_append' a b :
  String.length (a +:+ b) = String.length a + String.length b.
Proof.
  induction a as [|c a IH]; [done|]. rewrite append_cons. simpl.
  by rewrite IH.
Qed.

Lemma append_cancel_r a b s : a +:+ s = b +:+ s -> a = b.
Proof.
  revert b. induction a as [|c a IH]; intros [|c' b] H;
    rewrite ?append_cons, ?append_nil_l in H.
  - done.
  - apply (f_equal String.length) in H. simpl in H.
    rewrite length_append' in H. lia.
  - apply (f_equal String.length) in H. simpl in H.
    rewrite length_append' in H. lia.
  - injection H as -> H. f_equal. by apply IH.
Qed.

Lemma split_nonempty sep s : split sep s ≠ [].
Proof.
  destruct s as [|c s]; simpl; [done|].
  case_bool_decide; [done|]. by destruct (split sep s).
Qed.

Lemma split_append sep a b :
  split sep (a +:+ String sep b) = split sep a ++ split sep b.
Proof.
  induction a as [|c a IH]; rewrite ?append_cons, ?append_nil_l; simpl.
  - by rewrite bool_decide_true.
  - case_bool_decide; [by rewrite IH|]. rewrite IH.
    pose proof (split_nonempty sep a). by destruct (split sep a).
Qed.

Lemma split_free sep s : occurs sep s = false -> split sep s = [s].
Proof.
  induction s as [|c s IH]; simpl; [done|].
  intros [Hc Hs]%orb_false_iff. rewrite Hc, (IH Hs). done.
Qed.

Lemma occurs_append c a b : occurs c (a +:+ b) = occurs c a || occurs c b.
Proof.
  induction a as [|c' a IH]; [done|]. rewrite append_cons. simpl.
  by rewrite IH, orb_assoc.
Qed.

Lemma split_head_free sep s :
  occurs sep (default EmptyString (head (split sep s))) = false.
Proof.
  induction s as [|c s IH]; simpl; [done|].
  case_bool_decide as Hc; [done|].
  pose proof (split_nonempty sep s).
  destruct (split sep s) as [|x xs]; [done|]. simpl in *.
  rewrite IH. by rewrite bool_decide_false.
Qed.

Lemma pgnNumber_free pgnPath : occurs "-" (pgnNumber pgnPath) = false.
Proof.
  unfold pgnNumber. destruct (last (split "/" pgnPath)); [|done].
  apply split_head_free.
Qed.

(** Cutting at the first separator is unambiguous. *)
Lemma append_sep_inj sep a a' b b' :
  occurs sep a = false -> occurs sep a' = false ->
  a +:+ String sep b = a' +:+ String sep b' -> a = a' ∧ b = b'.
Proof.
  revert a'. induction a as [|c a IH]; intros [|c' a'];
    rewrite ?append_cons, ?append_nil_l; simpl.
  - by intros _ _ [= ->].
  - intros _ [Hc _]%orb_false_iff [= <- _].
    by rewrite bool_decide_true in Hc.
  - intros [Hc _]%orb_false_iff _ [= -> _].
    by rewrite bool_decide_true in Hc.
  - intros [_ Ha]%orb_false_iff [_ Ha']%orb_false_iff [= -> H].
    destruct (IH a' Ha Ha' H) as [-> ->]. done.
Qed.

End FileNames.

(** X8. The result file of an opening in a directory is named after the
    part of the opening's file name before its first dash:
    [dir/007-sicilian.pgn] gives the number [007]. *)
Theorem pgnNumber_of_path (dir number rest : string) :
  occurs "/" number = false -> occurs "/" rest = false ->
  occurs "-" number = false ->
  pgnNumber (dir +:+ "/" +:+ number +:+ "-" +:+ rest) = number.
Proof.
  intros Hnumber Hrest Hdash. unfold pgnNumber.
  change ("/" +:+ number +:+ "-" +:+ rest)
    with (String "/" (number +:+ String "-" rest)).
  rewrite split_append.
  assert (Hname : split "/" (number +:+ String "-" rest)
                  = [number +:+ String "-" rest]).
  { apply split_free. rewrite occurs_append. simpl.
    by rewrite Hnumber, Hrest. }
  rewrite Hname, last_snoc, split_append, (split_free "-" number) by done.
  done.
Qed.

Lemma pgnNumber_of_path_witness :
  occurs "/" "007" = false ∧ occurs "/" "sicilian.pgn" = false
  ∧ occurs "-" "007" = false
  ∧ pgnNumber "data/silversuite/007-sicilian.pgn" = "007".
Proof.
  split; [reflexivity|]. split; [reflexivity|]. split; [reflexivity|].
  exact (pgnNumber_of_path "data/silversuite" "007" "sicilian.pgn"
           eq_refl eq_refl eq_refl).
Defined.

(** X9. For bot names without a dash the result file name tells the game:
    two games with the same file name have the same white player, the same
    black player and the same opening number. *)
Theorem resultFileName_inj (players players' : Players)
    (pgnPath pgnPath' : string) :
  occurs "-" (pl_white players) = false ->
  occurs "-" (pl_black players) = false ->
  occurs "-" (pl_white players') = false ->
  occurs "-" (pl_black players') = false ->
  resultFileName players pgnPath = resultFileName players' pgnPath' ->
  players = players' ∧ pgnNumber pgnPath = pgnNumber pgnPath'.
Proof.
  destruct players as [w b], players' as [w' b']. simpl.
  intros Hw Hb Hw' Hb' Hname. unfold resultFileName in Hname. simpl in Hname.
  rewrite !append_cons, !append_nil_l in Hname.
  apply append_sep_inj in Hname as [-> Hname]; [|done..].
  apply append_sep_inj in Hname as [-> Hname]; [|done..].
  apply append_cancel_r in Hname. done.
Qed.

Lemma resultFileName_inj_witness :
  resultFileName (mkPlayers "alice" "bob") "silversuite/001-open.pgn"
  = resultFileName (mkPlayers "alice" "bob") "other/001-closed.pgn"
  ∧ pgnNumber "silversuite/001-open.pgn" = pgnNumber "other/001-closed.pgn".
Proof.
  split; [reflexivity|].
  exact (proj2 (resultFileName_inj (mkPlayers "alice" "bob")
                  (mkPlayers "alice" "bob") "silversuite/001-open.pgn"
                  "other/001-closed.pgn" eq_refl eq_refl eq_refl eq_refl
                  eq_refl)).
Defined.

(** X10. A dash inside a bot name makes result files collide: the game of
    white [a-b] against black [c] and the game of white [a] against black
    [b-c] on the same opening have the same result file name. *)
Theorem resultFileName_dash_collision (a b c pgnPath : string) :
  resultFileName (mkPlayers (a +:+ "-" +:+ b) c) pgnPath
  = resultFileName (mkPlayers a (b +:+ "-" +:+ c)) pgnPath.
Proof.
  unfold resultFileName. simpl.
  repeat first [rewrite append_assoc'|rewrite append_cons
               |rewrite append_nil_l].
  done.
Qed.

(** ** The result store across games *)

Section StoreMore.

Context {engine : RulesEngine} {network : Network}.
Context (readText : string -> string).

(** The two ways [playAndSaveGame] returns: the result file was there and
    nothing happened, or the game was played between a start and (on an
    outcome) a stop of the two sandboxes. *)
Lemma playAndSaveGame_cases fuel players pgnPath saveDir
    (world : World) res world' :
  playAndSaveGame readText fuel players pgnPath saveDir world
  = Some (res, world') ->
  let key := path_join saveDir (resultFileName players pgnPath) in
  (∃ existing,
      files world !! key = Some existing ∧ res = Ok existing
      ∧ world' = world)
  ∨ (files world !! key = None
     ∧ match res with
       | Ok outcome =>
         files world' = <[key := outcome]> (files world)
         ∧ docker world'
           = docker world
             ++ [DockerRun (pl_white players) white;
                 DockerRun (pl_black players) black;
                 DockerStop (pl_white players) white;
                 DockerStop (pl_black players) black]
       | Error _ =>
         files world' = files world
         ∧ docker world'
           = docker world
             ++ [DockerRun (pl_white players) white;
                 DockerRun (pl_black players) black]
       end).
Proof.
  intros Hrun key. unfold playAndSaveGame in Hrun. fold key in Hrun.
  destruct (files world !! key) as [existing|] eqn:Hfile.
  - injection Hrun as <- <-. left. by exists existing.
  - right. split; [done|].
    destruct (gameLoop readText fuel players pgnPath
                (dockerStartAll players world))
      as [[[data|e] world1]|] eqn:Hgame; [| |done].
    + injection Hrun as <- <-.
      apply gameLoop_run in Hgame as (_ & _ & Hf & Hd & _).
      simpl. rewrite Hf, Hd. simpl. by rewrite <- !app_assoc.
    + injection Hrun as <- <-.
      apply gameLoop_run in Hgame as (_ & _ & Hf & Hd & _).
      rewrite Hd, Hf. simpl. by rewrite <- !app_assoc.
Qed.

Lemma playAndSaveGame_keeps_files fuel players pgnPath saveDir
    (world : World) res world' :
  playAndSaveGame readText fuel players pgnPath saveDir world
  = Some (res, world') ->
  files world ⊆ files world'.
Proof.
  intros [(o & _ & _ & ->)|[Hfile Hres]]%playAndSaveGame_cases; [done|].
  destruct res as [outcome|e]; destruct Hres as [-> _]; [|done].
  by apply insert_subseteq.
Qed.

Lemma playAndSaveGame_saved fuel players pgnPath saveDir
    (world : World) outcome world' :
  playAndSaveGame readText fuel players pgnPath saveDir world
  = Some (Ok outcome, world') ->
  files world' !! path_join saveDir (resultFileName players pgnPath)
  = Some outcome.
Proof.
  intros [(o & Hfile & [= <-] & ->)|[_ [-> _]]]%playAndSaveGame_cases;
    [done|]. apply lookup_insert_eq.
Qed.

Lemma playAndSaveGame_existing fuel players pgnPath saveDir
    (world : World) existing :
  files world !! path_join saveDir (resultFileName players pgnPath)
  = Some existing ->
  playAndSaveGame readText fuel players pgnPath saveDir world
  = Some (Ok existing, world).
Proof. intros Hfile. unfold playAndSaveGame. by rewrite Hfile. Qed.

(** X11. Two games whose result files have the same name share their
    result: once the first has returned an outcome, the second is not
    played and returns the outcome of the first, whoever its players are. *)
Theorem shared_result_file_skips_game fuel fuel' players players'
    pgnPath pgnPath' saveDir (world : World) outcome world' :
  resultFileName players pgnPath = resultFileName players' pgnPath' ->
  playAndSaveGame readText fuel players pgnPath saveDir world
  = Some (Ok outcome, world') ->
  playAndSaveGame readText fuel' players' pgnPath' saveDir world'
  = Some (Ok outcome, world').
Proof.
  intros Hname Hrun. apply playAndSaveGame_existing.
  rewrite <- Hname. by apply playAndSaveGame_saved in Hrun.
Qed.

(** X12. A game that is played writes its own result file and no other, and
    a game that ends in a fatal error writes nothing. *)
Theorem playAndSaveGame_writes_own_file fuel players pgnPath saveDir
    (world : World) res world' :
  files world !! path_join saveDir (resultFileName players pgnPath) = None ->
  playAndSaveGame readText fuel players pgnPath saveDir world
  = Some (res, world') ->
  match res with
  | Ok outcome =>
    files world'
    = <[path_join saveDir (resultFileName players pgnPath) := outcome]>
        (files world)
  | Error _ => files world' = files world
  end.
Proof.
  intros Hfile [(o & Hsome & _)|[_ Hres]]%playAndSaveGame_cases;
    [congruence|].
  by destruct res; destruct Hres.
Qed.

Lemma playMatch_keeps_files fuel player1 player2 saveDir pgnPaths :
  ∀ (world : World) res world',
  playMatch readText fuel player1 player2 pgnPaths saveDir world
  = Some (res, world') ->
  files world ⊆ files world'.
Proof.
  induction pgnPaths as [|pgnPath pgnPaths IH]; intros world res world';
    simpl.
  - by intros [= _ <-].
  - destruct (playAndSaveGame readText fuel (mkPlayers player1 player2)
                pgnPath saveDir world) as [[[o1|e1] world1]|] eqn:H1;
      [| |done].
    + apply playAndSaveGame_keeps_files in H1.
      destruct (playAndSaveGame readText fuel (mkPlayers player2 player1)
                  pgnPath saveDir world1) as [[[o2|e2] world2]|] eqn:H2;
        [| |done].
      * apply playAndSaveGame_keeps_files in H2. intros Hrest%IH.
        by etrans; [|etrans].
      * apply playAndSaveGame_keeps_files in H2. intros [= _ <-].
        by etrans.
    + apply playAndSaveGame_keeps_files in H1. by intros [= _ <-].
Qed.

(** X13. Result files are written once: whatever a match does, and however
    it ends, every result file that was there before is still there with
    the same outcome. *)
Theorem playMatch_never_overwrites fuel player1 player2 pgnPaths saveDir
    (world : World) res world' file outcome :
  playMatch readText fuel player1 player2 pgnPaths saveDir world
  = Some (res, world') ->
  files world !! file = Some outcome ->
  files world' !! file = Some outcome.
Proof.
  intros Hrun%playMatch_keeps_files Hfile.
  by eapply lookup_weaken.
Qed.

Lemma playMatch_complete fuel player1 player2 saveDir pgnPaths :
  ∀ (world : World) world',
  playMatch readText fuel player1 player2 pgnPaths saveDir world
  = Some (Ok tt, world') ->
  ∀ pgnPath, pgnPath ∈ pgnPaths ->
    is_Some (files world'
             !! path_join saveDir
                  (resultFileName (mkPlayers player1 player2) pgnPath))
    ∧ is_Some (files world'
               !! path_join saveDir
                    (resultFileName (mkPlayers player2 player1) pgnPath)).
Proof.
  induction pgnPaths as [|pgnPath pgnPaths IH]; intros world world' Hrun p Hp.
  - by apply elem_of_nil in Hp.
  - simpl in Hrun.
    destruct (playAndSaveGame readText fuel (mkPlayers player1 player2)
                pgnPath saveDir world) as [[[o1|e1] world1]|] eqn:H1;
      [| |done]; [|by injection Hrun].
    destruct (playAndSaveGame readText fuel (mkPlayers player2 player1)
                pgnPath saveDir world1) as [[[o2|e2] world2]|] eqn:H2;
      [| |done]; [|by injection Hrun].
    apply elem_of_cons in Hp as [->|Hp]; [|by eapply IH].
    apply playAndSaveGame_saved in H1. pose proof H2 as H2'.
    apply playAndSaveGame_saved in H2.
    apply playAndSaveGame_keeps_files in H2'.
    apply playMatch_keeps_files in Hrun. split.
    + exists o1. eapply lookup_weaken; [|exact Hrun].
      eapply lookup_weaken; [exact H1|exact H2'].
    + exists o2. eapply lookup_weaken; [exact H2|exact Hrun].
Qed.

(** X14. When a match returns without error, the result files of both
    colour assignments of each of its openings exist, and playing the match
    again starts nothing and changes nothing. *)
Theorem playMatch_completes_and_resumes fuel fuel' player1 player2 pgnPaths
    saveDir (world : World) world' :
  playMatch readText fuel player1 player2 pgnPaths saveDir world
  = Some (Ok tt, world') ->
  (∀ pgnPath, pgnPath ∈ pgnPaths ->
     is_Some (files world'
              !! path_join saveDir
                   (resultFileName (mkPlayers player1 player2) pgnPath))
     ∧ is_Some (files world'
                !! path_join saveDir
                     (resultFileName (mkPlayers player2 player1) pgnPath)))
  ∧ playMatch readText fuel' player1 player2 pgnPaths saveDir world'
    = Some (Ok tt, world').
Proof.
  intros Hrun. pose proof (playMatch_complete _ _ _ _ _ _ _ Hrun) as Hall.
  split; [exact Hall|]. by apply playMatch_resumes.
Qed.

Lemma running_run log name player :
  running (log ++ [DockerRun name player]) = running log ++ [(name, player)].
Proof. unfold running. by rewrite foldl_snoc. Qed.

Lemma running_stop log name player :
  running (log ++ [DockerStop name player])
  = filter (fun c => c ≠ (name, player)) (running log).
Proof. unfold running. by rewrite foldl_snoc. Qed.

Lemma running_started log players :
  running log = [] ->
  running (log ++ [DockerRun (pl_white players) white;
                   DockerRun (pl_black players) black])
  = [(pl_white players, white); (pl_black players, black)].
Proof.
  intros Hlog.
  change (log ++ [DockerRun (pl_white players) white;
                  DockerRun (pl_black players) black])
    with (log ++ [DockerRun (pl_white players) white]
              ++ [DockerRun (pl_black players) black]).
  rewrite app_assoc, !running_run, Hlog. done.
Qed.

Lemma running_stopped log players :
  running log = [] ->
  running (log ++ [DockerRun (pl_white players) white;
                   DockerRun (pl_black players) black;
                   DockerStop (pl_white players) white;
                   DockerStop (pl_black players) black]) = [].
Proof.
  intros Hlog.
  replace (log ++ [DockerRun (pl_white players) white;
                   DockerRun (pl_black players) black;
                   DockerStop (pl_white players) white;
                   DockerStop (pl_black players) black])
    with (((log ++ [DockerRun (pl_white players) white;
                    DockerRun (pl_black players) black])
             ++ [DockerStop (pl_white players) white])
            ++ [DockerStop (pl_black players) black])
    by (by rewrite <- !app_assoc).
  rewrite !running_stop, running_started by done.
  rewrite filter_cons, decide_False by (by intros H; apply H).
  rewrite filter_cons, decide_True by (by intros [= _ ?]).
  rewrite filter_nil, filter_cons, decide_False by (by intros H; apply H).
  done.
Qed.

(** X15. Starting with no sandbox running, a match that returns without
    error leaves none running; a match that returns an error returns the
    error of its failed game under the names of that game's white and black
    players, and leaves the two sandboxes of that game running. *)
Theorem playMatch_sandboxes fuel player1 player2 pgnPaths saveDir
    (world : World) res world' :
  running (docker world) = [] ->
  playMatch readText fuel player1 player2 pgnPaths saveDir world
  = Some (res, world') ->
  match res with
  | Ok _ => running (docker world') = []
  | Error e =>
    ∃ first second message,
      e = matchFailure first second message
      ∧ ((first, second) = (player1, player2)
         ∨ (first, second) = (player2, player1))
      ∧ running (docker world') = [(first, white); (second, black)]
  end.
Proof.
  revert world. induction pgnPaths as [|pgnPath pgnPaths IH];
    intros world Hclean; simpl.
  - by intros [= <- <-].
  - destruct (playAndSaveGame readText fuel (mkPlayers player1 player2)
                pgnPath saveDir world) as [[[o1|e1] world1]|] eqn:H1;
      [| |done].
    + assert (Hclean1 : running (docker world1) = []).
      { apply playAndSaveGame_cases in H1
          as [(o & _ & _ & ->)|[_ [_ ->]]]; [done|].
        by apply (running_stopped _ (mkPlayers player1 player2)). }
      destruct (playAndSaveGame readText fuel (mkPlayers player2 player1)
                  pgnPath saveDir world1) as [[[o2|e2] world2]|] eqn:H2;
        [| |done].
      * apply IH.
        apply playAndSaveGame_cases in H2
          as [(o & _ & _ & ->)|[_ [_ ->]]]; [done|].
        by apply (running_stopped _ (mkPlayers player2 player1)).
      * intros [= <- <-]. exists player2, player1, e2.
        split; [done|]. split; [by right|].
        apply playAndSaveGame_cases in H2 as [(o & _ & [=] & _)|[_ [_ ->]]].
        by apply (running_started _ (mkPlayers player2 player1)).
    + intros [= <- <-]. exists player1, player2, e1.
      split; [done|]. split; [by left|].
      apply playAndSaveGame_cases in H1 as [(o & _ & [=] & _)|[_ [_ ->]]].
      by apply (running_started _ (mkPlayers player1 player2)).
Qed.

End StoreMore.

Lemma shared_result_file_skips_game_witness :
  let world := Bench.start Toy.silentBlack in
  let run :=
    Bench.saveGame Toy.silentBlack (mkPlayers "a" "b-c")
      "silversuite/001-open.pgn" world in
  let world' := Toy.worldOf run world in
  Bench.saveGame Toy.silentBlack (mkPlayers "a-b" "c")
    "silversuite/001-open.pgn" world'
  = Some (Ok (Toy.outcomeOf run), world').
Proof.
  intros world run world'.
  apply (@shared_result_file_skips_game (Toy.engine 4)
           (Toy.network Toy.silentBlack) (fun _ => EmptyString) 100 100
           (mkPlayers "a" "b-c") (mkPlayers "a-b" "c")
           "silversuite/001-open.pgn" "silversuite/001-open.pgn"
           "results/round-robin" world (Toy.outcomeOf run) world').
  - vm_compute. reflexivity.
  - vm_compute. reflexivity.
Defined.

Lemma playAndSaveGame_writes_own_file_witness :
  let world := Bench.start Toy.silentBlack in
  let run :=
    Bench.saveGame Toy.silentBlack Toy.players "silversuite/001-open.pgn"
      world in
  match Toy.resultOf run with
  | Ok outcome =>
    files (Toy.worldOf run world)
    = <["results/round-robin/alice-bob-001.json" := outcome]> (files world)
  | Error _ => files (Toy.worldOf run world) = files world
  end.
Proof.
  intros world run.
  apply (@playAndSaveGame_writes_own_file (Toy.engine 4)
           (Toy.network Toy.silentBlack) (fun _ => EmptyString) 100
           Toy.players "silversuite/001-open.pgn" "results/round-robin"
           world (Toy.resultOf run) (Toy.worldOf run world)).
  - vm_compute. reflexivity.
  - vm_compute. reflexivity.
Defined.

Lemma playMatch_never_overwrites_witness :
  let world := Bench.start Toy.silentBlack in
  let first :=
    Bench.playOpenings Toy.silentBlack ["silversuite/001-open.pgn"] world in
  let world1 := Toy.worldOf first world in
  let second :=
    Bench.playOpenings Toy.silentBlack
      ["silversuite/001-open.pgn"; "silversuite/002-closed.pgn"] world1 in
  let file := "results/round-robin/bob-alice-001.json" in
  is_Some (files world1 !! file)
  ∧ files (Toy.worldOf second world1) !! file = files world1 !! file.
Proof.
  intros world first world1 second file.
  destruct (files world1 !! file) as [outcome|] eqn:Hfile;
    [|vm_compute in Hfile; discriminate Hfile].
  split; [by eexists|].
  apply (@playMatch_never_overwrites (Toy.engine 4)
           (Toy.network Toy.silentBlack) (fun _ => EmptyString) 100
           "alice" "bob"
           ["silversuite/001-open.pgn"; "silversuite/002-closed.pgn"]
           "results/round-robin" world1 (Toy.resultOf second)
           (Toy.worldOf second world1) file outcome).
  - vm_compute. reflexivity.
  - exact Hfile.
Defined.

Lemma playMatch_completes_and_resumes_witness :
  let world := Bench.start Toy.silentBlack in
  let openings :=
    ["silversuite/001-open.pgn"; "silversuite/002-closed.pgn"] in
  let run := Bench.playOpenings Toy.silentBlack openings world in
  let world' := Toy.worldOf run world in
  (∀ pgnPath, pgnPath ∈ openings ->
     is_Some (files world'
              !! path_join "results/round-robin"
                   (resultFileName (mkPlayers "alice" "bob") pgnPath))
     ∧ is_Some (files world'
                !! path_join "results/round-robin"
                     (resultFileName (mkPlayers "bob" "alice") pgnPath)))
  ∧ Bench.playOpenings Toy.silentBlack openings world' = Some (Ok tt, world').
Proof.
  intros world openings run world'.
  apply (@playMatch_completes_and_resumes (Toy.engine 4)
           (Toy.network Toy.silentBlack) (fun _ => EmptyString) 100 100
           "alice" "bob" openings "results/round-robin" world world').
  vm_compute. reflexivity.
Defined.

Lemma playMatch_sandboxes_witness :
  let world := Bench.start Toy.brokenBlack in
  let run :=
    Bench.playOpenings Toy.brokenBlack ["silversuite/001-open.pgn"] world in
  Toy.resultOf run
  = Error "Game between alice and bob failed: Invalid response from bob as black: 500 boom"
  ∧ match Toy.resultOf run with
    | Ok _ => running (docker (Toy.worldOf run world)) = []
    | Error e =>
      ∃ first second message,
        e = matchFailure first second message
        ∧ ((first, second) = ("alice", "bob")
           ∨ (first, second) = ("bob", "alice"))
        ∧ running (docker (Toy.worldOf run world))
          = [(first, white); (second, black)]
    end.
Proof.
  intros world run. split; [vm_compute; reflexivity|].
  apply (@playMatch_sandboxes (Toy.engine 4) (Toy.network Toy.brokenBlack)
           (fun _ => EmptyString) 100 "alice" "bob"
           ["silversuite/001-open.pgn"] "results/round-robin" world
           (Toy.resultOf run) (Toy.worldOf run world)).
  - reflexivity.
  - vm_compute. reflexivity.
Defined.

(** ** How a game ends *)

Section EndingFacts.

Context {engine : RulesEngine} {network : Network}.

Implicit Types (p : Player) (st : LoopState).

Lemma lastMover_snoc (chess0 final last : Chess) texts datas text data
    current :
  replay chess0 texts = Some (datas, final) ->
  move final text = Some (data, last) ->
  lastMover chess0 (texts ++ [text]) current
  = Some (colourToPlayer (turn final)).
Proof.
  revert chess0 datas current. induction texts as [|t texts IH];
    intros chess0 datas current; simpl.
  - intros [= <- <-] ->. done.
  - destruct (move chess0 t) as [[d c]|]; [|done].
    destruct (replay c texts) as [[ds f]|] eqn:Hr; [|done].
    intros [= <- <-] Hmv. by apply (IH c ds).
Qed.

Lemma errors_length (chess : Chess) new :
  Forall (failing chess) new ->
  length (omap (attemptError chess) new) = length new.
Proof.
  induction 1 as [|exchange new [e He] _ IH]; [done|].
  simpl. rewrite He. simpl. f_equal. exact IH.
Qed.

Lemma errors_of_legal (chess chess' : Chess) pre request status text data :
  Forall (failing chess) pre ->
  move chess text = Some (data, chess') ->
  length (omap (attemptError chess)
            (pre ++ [(request, Responded true status text)]))
  = length pre.
Proof.
  intros Hpre Hmove. rewrite omap_app, length_app, errors_length by done.
  simpl. unfold attemptError. simpl. by rewrite Hmove.
Qed.

(** One turn in full: where its requests go and how it can end. *)
Lemma gameTurn_detail players startTime st (world : World) :
  let p := colourToPlayer (turn (ls_chess st)) in
  ∃ new,
    Forall (fun exchange => r_bot exchange.1 = playerOf players p
                            ∧ r_turn exchange.1 = p
                            ∧ r_fen exchange.1 = fen (ls_chess st)) new
    ∧ match gameTurn players startTime st world with
      | Continue st' world' =>
        exchanges world' = exchanges world ++ new
        ∧ ls_currentPlayer st' = p
        ∧ ∃ text m,
            move (ls_chess st) text = Some (chessMove m, ls_chess st')
            ∧ ls_moves st' = ls_moves st ++ [m]
      | Return res world' =>
        exchanges world' = exchanges world ++ new
        ∧ ((∃ pre request status text,
               new = pre ++ [(request, Responded false status text)]
               ∧ res = Error (invalidResponseMessage (playerOf players p) p
                                (mkInvalidResponse text status)))
           ∨ (∃ duration,
                res = Ok (mkOutcome players (pgn (ls_chess st)) duration
                            (ls_moves st)
                            (WIN_FORFEIT (playerOf players (opponent p))
                               OPPONENT_EXCEEDED_MAX_ATTEMPTS
                               (omap (attemptError (ls_chess st)) new)))
                ∧ length new = 3
                ∧ Forall (failing (ls_chess st)) new)
           ∨ (∃ text data last errors duration,
                move (ls_chess st) text = Some (data, last)
                ∧ res = Ok (mkOutcome players (pgn last) duration
                              (ls_moves st)
                              (WIN_FORFEIT (playerOf players (opponent p))
                                 OPPONENT_TIMEOUT errors))
                ∧ length errors ≤ 2
                ∧ 15 ≤ timeoutsOf (ls_timeouts st) p
                       + length (filter (fun err => err = TIMEOUT) errors)))
      end.
Proof.
  intros p. unfold gameTurn. fold p.
  destruct (makeMove (ls_chess st) players world)
    as [[moveResult chess'] world1] eqn:Hmake.
  unfold makeMove in Hmake. fold p in Hmake.
  apply makeMove_while_spec in Hmake
    as (new & Hlog & _ & _ & Hlen & Hreq & Hres).
  exists new. split.
  { apply Forall_lookup. intros i ex Hi. by rewrite (Hreq i ex Hi). }
  destruct moveResult as [response|e].
  - destruct Hres as (_ & Herrs & Hmove). simpl in Herrs.
    destruct (mr_move response) as [m|].
    + destruct Hmove as (pre & rq & status & text & -> & Hpre & Hmv).
      assert (Herrlen : length (mr_errors response) ≤ 2).
      { rewrite Herrs, (errors_of_legal _ _ _ _ _ _ _ Hpre Hmv).
        rewrite length_app in Hlen. simpl in Hlen.
        unfold MAX_ATTEMPTS_PER_TURN in Hlen. lia. }
      case_bool_decide as Hmax.
      * split; [done|]. right. right.
        exists text, (chessMove m), chess'. eexists _, _.
        split; [done|]. split; [done|]. split; [done|].
        rewrite timeoutsOf_add in Hmax. rewrite decide_True in Hmax by done.
        unfold MAX_TIMEOUTS_PER_GAME in Hmax. done.
      * simpl. split; [done|]. split; [done|]. by exists text, m.
    + destruct Hmove as (-> & Hlen3 & Hall). split; [done|]. right. left.
      eexists. split; [by rewrite <- Herrs|]. done.
  - destruct Hres as (_ & pre & rq & status & text & -> & _ & ->).
    split; [done|]. left. by exists pre, rq, status, text.
Qed.

(** A game in full: the moves recorded lead from the opening to the
    position reached, [currentPlayer] is the side that moved last, and the
    game ends after the loop or inside a turn in one of three ways. *)
Lemma gameLoop_while_outcome players startTime (chess0 : Chess) fuel :
  ∀ st (world : World) res world' texts,
  gameLoop_while fuel players startTime st world = Some (res, world') ->
  (∀ q, timeoutsOf (ls_timeouts st) q ≤ 14) ->
  replay chess0 texts = Some (map chessMove (ls_moves st), ls_chess st) ->
  lastMover chess0 texts white = Some (ls_currentPlayer st) ->
  ∃ game texts' final moves current,
    exchanges world' = exchanges world ++ game
    ∧ Forall (fun exchange =>
                r_bot exchange.1 = playerOf players (r_turn exchange.1)) game
    ∧ replay chess0 texts' = Some (map chessMove moves, final)
    ∧ lastMover chess0 texts' white = Some current
    ∧ ((isGameOver final = true
        ∧ ∃ st', ls_chess st' = final ∧ ls_moves st' = moves
                 ∧ ls_currentPlayer st' = current
                 ∧ res = gameLoop_end players startTime st' world')
       ∨ (isGameOver final = false
          ∧ let p := colourToPlayer (turn final) in
            (∃ pre request status text,
               game = pre ++ [(request, Responded false status text)]
               ∧ r_turn request = p
               ∧ res = Error (invalidResponseMessage (r_bot request) p
                                (mkInvalidResponse text status)))
            ∨ (∃ earlier turn duration,
                 game = earlier ++ turn
                 ∧ length turn = 3
                 ∧ Forall (failing final) turn
                 ∧ Forall (fun exchange =>
                             r_turn exchange.1 = p
                             ∧ r_fen exchange.1 = fen final) turn
                 ∧ res = Ok (mkOutcome players (pgn final) duration moves
                               (WIN_FORFEIT (playerOf players (opponent p))
                                  OPPONENT_EXCEEDED_MAX_ATTEMPTS
                                  (omap (attemptError final) turn))))
            ∨ (∃ text data last errors duration,
                 move final text = Some (data, last)
                 ∧ res = Ok (mkOutcome players (pgn last) duration moves
                               (WIN_FORFEIT (playerOf players (opponent p))
                                  OPPONENT_TIMEOUT errors))
                 ∧ length errors ≤ 2
                 ∧ 1 ≤ length (filter (fun err => err = TIMEOUT) errors)))).
Proof.
  induction fuel as [|fuel IH];
    intros st world res world' texts Hrun Hmax Hplay Hlast;
    simpl in Hrun; [done|].
  destruct (isGameOver (ls_chess st)) eqn:Hover.
  { injection Hrun as <- <-.
    exists [], texts, (ls_chess st), (ls_moves st), (ls_currentPlayer st).
    rewrite app_nil_r. split; [done|]. split; [done|]. split; [done|].
    split; [done|]. left. split; [done|]. by exists st. }
  pose proof (gameTurn_detail players startTime st world) as Hturn.
  pose proof (gameTurn_spec players startTime st world) as Hspec.
  simpl in Hturn, Hspec.
  destruct Hturn as (new & Hto & Hturn). destruct Hspec as (new' & _ & Hspec).
  set (p := colourToPlayer (turn (ls_chess st))) in *.
  assert (Hbots : Forall (fun exchange =>
            r_bot exchange.1 = playerOf players (r_turn exchange.1)) new).
  { eapply Forall_impl; [exact Hto|]. intros ex (Hb & Ht & _).
    by rewrite Hb, Ht. }
  destruct (gameTurn players startTime st world) as [res1 world1|st1 world1].
  - injection Hrun as <- <-. destruct Hturn as (Hlog & Hcases).
    exists new, texts, (ls_chess st), (ls_moves st), (ls_currentPlayer st).
    split; [done|]. split; [done|]. split; [done|]. split; [done|].
    right. split; [done|]. simpl. fold p.
    destruct Hcases as [He|[Hex|Hto15]];
      [|right; left; destruct Hex as (dur & -> & Hlen3 & Hall);
        exists [], new, dur; split; [done|]; split; [done|]; split; [done|];
        split; [|done];
        eapply Forall_impl; [exact Hto|]; by intros ex (_ & ? & ?)|].
    { left. destruct He as (pre & rq & status & text & -> & ->).
      exists pre, rq, status, text. split; [done|].
      rewrite Forall_app, Forall_singleton in Hto.
      destruct Hto as (_ & Hb & Ht & _). simpl in Hb, Ht.
      by rewrite Hb, Ht. }
    right. right.
    destruct Hto15 as (text & data & last & errors & dur & Hmv & -> & Hle
                       & H15).
    exists text, data, last, errors, dur.
    split; [done|]. split; [done|]. split; [done|].
    pose proof (Hmax p). lia.
  - destruct Hturn as (Hlog & Hcur & text & m & Hmv & Hmoves).
    destruct Hspec as (_ & _ & _ & Ht & Hle & _).
    apply (IH st1 world1 res world' (texts ++ [text])) in Hrun.
    + destruct Hrun as (game & texts' & final & moves & cur & Hgame & Hb
                        & Hrest).
      exists (new ++ game), texts', final, moves, cur.
      rewrite Hgame, Hlog, <- app_assoc. split; [done|].
      split; [by apply Forall_app|].
      destruct Hrest as (Hr1 & Hr2 & [Hend|[Hgo Hin]]);
        (split; [done|]); (split; [done|]); [by left|].
      right. split; [done|]. simpl in *.
      destruct Hin as [(pre & rq & status & tx & -> & Hin)
                      |[(earlier & turnx & dur & -> & Hin)|Hin]].
      * left. exists (new ++ pre), rq, status, tx. by rewrite <- app_assoc.
      * right. left. exists (new ++ earlier), turnx, dur.
        by rewrite <- app_assoc.
      * by right; right.
    + intros q. destruct (decide (q = p)) as [->|Hq]; [done|].
      rewrite Ht, timeoutsOf_add, decide_False by done.
      pose proof (Hmax q). lia.
    + rewrite Hmoves, map_app. simpl. by apply replay_snoc with (ls_chess st).
    + rewrite Hcur. by eapply lastMover_snoc.
Qed.

Context (readText : string -> string).

Lemma gameLoop_outcome fuel players pgnPath (world : World) res world' :
  gameLoop readText fuel players pgnPath world = Some (res, world') ->
  let chess0 := loadPgn (readText pgnPath) in
  ∃ game texts final moves current startTime,
    exchanges world' = exchanges world ++ game
    ∧ Forall (fun exchange =>
                r_bot exchange.1 = playerOf players (r_turn exchange.1)) game
    ∧ replay chess0 texts = Some (map chessMove moves, final)
    ∧ lastMover chess0 texts white = Some current
    ∧ ((isGameOver final = true
        ∧ ∃ st', ls_chess st' = final ∧ ls_moves st' = moves
                 ∧ ls_currentPlayer st' = current
                 ∧ res = gameLoop_end players startTime st' world')
       ∨ (isGameOver final = false
          ∧ let p := colourToPlayer (turn final) in
            (∃ pre request status text,
               game = pre ++ [(request, Responded false status text)]
               ∧ r_turn request = p
               ∧ res = Error (invalidResponseMessage (r_bot request) p
                                (mkInvalidResponse text status)))
            ∨ (∃ earlier turn duration,
                 game = earlier ++ turn
                 ∧ length turn = 3
                 ∧ Forall (failing final) turn
                 ∧ Forall (fun exchange =>
                             r_turn exchange.1 = p
                             ∧ r_fen exchange.1 = fen final) turn
                 ∧ res = Ok (mkOutcome players (pgn final) duration moves
                               (WIN_FORFEIT (playerOf players (opponent p))
                                  OPPONENT_EXCEEDED_MAX_ATTEMPTS
                                  (omap (attemptError final) turn))))
            ∨ (∃ text data last errors duration,
                 move final text = Some (data, last)
                 ∧ res = Ok (mkOutcome players (pgn last) duration moves
                               (WIN_FORFEIT (playerOf players (opponent p))
                                  OPPONENT_TIMEOUT errors))
                 ∧ length errors ≤ 2
                 ∧ 1 ≤ length (filter (fun err => err = TIMEOUT) errors)))).
Proof.
  intros Hrun. cbv zeta. unfold gameLoop in Hrun.
  apply (gameLoop_while_outcome players _ (loadPgn (readText pgnPath)) fuel
           _ _ _ _ []) in Hrun.
  - destruct Hrun as (game & texts & final & moves & cur & Hrun).
    by exists game, texts, final, moves, cur, (clock (settle world)).
  - intros []; simpl; lia.
  - done.
  - done.
Qed.

Lemma gameLoop_end_fields players startTime st (world : World) outcome :
  gameLoop_end players startTime st world = Ok outcome ->
  o_moves outcome = ls_moves st
  ∧ o_pgn outcome = pgn (ls_chess st)
  ∧ ¬ forfeited outcome
  ∧ ∀ winner, o_verdict outcome = WIN_CHECKMATE winner ->
              winner = playerOf players (ls_currentPlayer st).
Proof.
  unfold gameLoop_end, forfeited.
  repeat match goal with |- context [if ?b then _ else _] => destruct b end;
    intros [= <-]; simpl; repeat split; try done; try tauto;
    by intros w [= <-].
Qed.

(** X16. Every move request of a game is sent to the bot that plays the
    side named in the request. *)
Theorem game_requests_go_to_the_mover fuel players pgnPath (world : World)
    res world' :
  gameLoop readText fuel players pgnPath world = Some (res, world') ->
  ∃ game,
    exchanges world' = exchanges world ++ game
    ∧ Forall (fun exchange =>
                r_bot exchange.1 = playerOf players (r_turn exchange.1)) game.
Proof.
  intros Hrun. apply gameLoop_outcome in Hrun.
  destruct Hrun as (game & _ & _ & _ & _ & _ & Hlog & Hbots & _).
  by exists game.
Qed.

(** X17. A game that ends in a draw or by checkmate has recorded every
    move: its move list leads from the opening to a position where the game
    is over, the PGN is that of this position, and a checkmate is awarded to
    the player of the side that moved last (to white's player when the
    opening was already over). *)
Theorem finished_game_records_every_move fuel players pgnPath
    (world : World) outcome world' :
  gameLoop readText fuel players pgnPath world = Some (Ok outcome, world') ->
  ¬ forfeited outcome ->
  ∃ texts final current,
    replay (loadPgn (readText pgnPath)) texts
    = Some (map chessMove (o_moves outcome), final)
    ∧ o_pgn outcome = pgn final
    ∧ isGameOver final = true
    ∧ lastMover (loadPgn (readText pgnPath)) texts white = Some current
    ∧ ∀ winner, o_verdict outcome = WIN_CHECKMATE winner ->
                winner = playerOf players current.
Proof.
  intros Hrun Hnf. apply gameLoop_outcome in Hrun. simpl in Hrun.
  destruct Hrun as (game & texts & final & moves & cur & start & _ & _
                    & Hplay & Hlast & Hcases).
  destruct Hcases as [(Hover & st' & <- & <- & <- & Hend)|(_ & Hturn)].
  - symmetry in Hend. apply gameLoop_end_fields in Hend
      as (-> & -> & _ & Hwin).
    by exists texts, (ls_chess st'), (ls_currentPlayer st').
  - destruct Hturn as [(? & ? & ? & ? & _ & _ & [=])
                      |[(? & ? & ? & _ & _ & _ & _ & [= ->])
                       |(? & ? & ? & ? & ? & _ & [= ->] & _)]];
      exfalso; apply Hnf; exact I.
Qed.

(** X18. When a game is forfeited for [OPPONENT_EXCEEDED_MAX_ATTEMPTS], the
    move list leads from the opening to the position whose PGN the outcome
    carries, the game is not over there, the winner is the player of the
    side that is not to move there, and the errors the outcome carries are
    exactly those of the failed turn: the last 3 exchanges of the game are
    requests to the side to move on that position, each of them failed,
    and the errors are theirs, in order. *)
Theorem exhausted_turn_forfeit fuel players pgnPath (world : World)
    outcome world' winner errors :
  gameLoop readText fuel players pgnPath world = Some (Ok outcome, world') ->
  o_verdict outcome
  = WIN_FORFEIT winner OPPONENT_EXCEEDED_MAX_ATTEMPTS errors ->
  ∃ texts final earlier attempts,
    replay (loadPgn (readText pgnPath)) texts
    = Some (map chessMove (o_moves outcome), final)
    ∧ o_pgn outcome = pgn final
    ∧ isGameOver final = false
    ∧ winner = playerOf players (opponent (colourToPlayer (turn final)))
    ∧ exchanges world' = exchanges world ++ earlier ++ attempts
    ∧ length attempts = 3
    ∧ Forall (fun exchange =>
                r_turn exchange.1 = colourToPlayer (turn final)
                ∧ r_fen exchange.1 = fen final
                ∧ failing final exchange) attempts
    ∧ errors = omap (attemptError final) attempts
    ∧ length errors = 3.
Proof.
  intros Hrun Hv. apply gameLoop_outcome in Hrun. simpl in Hrun.
  destruct Hrun as (game & texts & final & moves & cur & start & Hlog & _
                    & Hplay & Hlast & Hcases).
  destruct Hcases as [(Hover & st' & <- & <- & <- & Hend)|(Hgo & Hturn)].
  - symmetry in Hend. apply gameLoop_end_fields in Hend as (_ & _ & Hnf & _).
    destruct Hnf. unfold forfeited. by rewrite Hv.
  - destruct Hturn as [(? & ? & ? & ? & _ & _ & [=])
                      |[(earlier & turnx & dur & -> & Hlen & Hfail & Hreq
                         & [= ->])
                       |(? & ? & ? & ? & ? & _ & [= ->] & _)]];
      simpl in Hv; [|done].
    injection Hv as <- <-. exists texts, final, earlier, turnx.
    split; [done|]. split; [done|]. split; [done|]. split; [done|].
    split; [done|]. split; [done|]. split.
    + apply Forall_lookup. intros i ex Hi.
      rewrite Forall_lookup in Hfail, Hreq.
      destruct (Hreq i ex Hi). split; [done|]. split; [done|].
      by apply (Hfail i).
    + split; [done|]. by rewrite errors_length.
Qed.

(** X19. A game is forfeited for [OPPONENT_TIMEOUT] only through requests
    rejected with an error named ["DOMException"]: when no exchange of the
    log is such a rejection, however many requests timed out, the outcome
    is not this forfeit. *)
Theorem timeout_forfeit_needs_DOMException fuel players pgnPath
    (world : World) res world' :
  gameLoop readText fuel players pgnPath world = Some (res, world') ->
  Forall (fun exchange => exchange.2 ≠ Rejected "DOMException")
    (exchanges world') ->
  ¬ timeoutForfeit res.
Proof.
  intros Hrun Hnone Hforfeit.
  apply gameLoop_run in Hrun as (game & Hlog & _ & _ & Hcases).
  destruct Hcases as [[Hnf _]|Hcase]; [done|].
  destruct Hcase as (p & _ & _ & _ & _ & _ & _ & _ & _ & _ & H15 & _).
  rewrite Hlog, Forall_app in Hnone. destruct Hnone as [_ Hnone].
  unfold recordedTimeouts in H15.
  assert (Hempty : filter (recordedAsTimeout p) game = []).
  { clear H15 Hlog. induction Hnone as [|exchange game Hex _ IH]; [done|].
    rewrite filter_cons, decide_False; [exact IH|]. by intros [_ ?]. }
  rewrite Hempty in H15. simpl in H15. lia.
Qed.

(** X20. A fatal error of a game is either ["unknown game state"] or names
    the last exchange of the game: that exchange is a response with a
    failing status, and the message holds the bot it was sent to, its side,
    the status and the body. *)
Theorem fatal_error_names_last_exchange fuel players pgnPath
    (world : World) e world' :
  gameLoop readText fuel players pgnPath world = Some (Error e, world') ->
  e = "unknown game state"
  ∨ ∃ pre request status text,
      exchanges world'
      = exchanges world ++ pre ++ [(request, Responded false status text)]
      ∧ e = invalidResponseMessage (r_bot request) (r_turn request)
              (mkInvalidResponse text status).
Proof.
  intros Hrun. apply gameLoop_outcome in Hrun. simpl in Hrun.
  destruct Hrun as (game & texts & final & moves & cur & start & Hlog & _
                    & _ & _ & Hcases).
  destruct Hcases as [(Hover & st' & _ & _ & _ & Hend)|(Hgo & Hturn)].
  - left. unfold gameLoop_end in Hend.
    repeat match type of Hend with
           | context [if ?b then _ else _] => destruct b
           end; congruence.
  - right.
    destruct Hturn as [(pre & rq & status & text & -> & <- & [= ->])
                      |[(? & ? & ? & _ & _ & _ & _ & [=])
                       |(? & ? & ? & ? & ? & _ & [=] & _)]].
    by exists pre, rq, status, text.
Qed.

(** X21. With a rules engine for which a game that is over is drawn or
    checkmate, as in chess.js, ["unknown game state"] is never returned:
    every fatal error of a game is an invalid response of a bot. *)
Theorem unknown_game_state_unreachable fuel players pgnPath (world : World)
    e world' :
  (∀ chess, isGameOver chess = true ->
            isDraw chess = true ∨ isCheckmate chess = true) ->
  gameLoop readText fuel players pgnPath world = Some (Error e, world') ->
  ∃ name p response, e = invalidResponseMessage name p response.
Proof.
  intros Hlaw Hrun. apply gameLoop_outcome in Hrun. simpl in Hrun.
  destruct Hrun as (game & texts & final & moves & cur & start & Hlog & _
                    & _ & _ & Hcases).
  destruct Hcases as [(Hover & st' & <- & _ & _ & Hend)|(Hgo & Hturn)].
  - exfalso. unfold gameLoop_end in Hend.
    destruct (Hlaw _ Hover) as [Hd|Hc].
    + rewrite Hd in Hend.
      repeat match type of Hend with
             | context [if ?b then _ else _] => destruct b
             end; discriminate Hend.
    + rewrite Hc in Hend.
      repeat match type of Hend with
             | context [if ?b then _ else _] => destruct b
             end; discriminate Hend.
  - destruct Hturn as [(pre & rq & status & text & _ & _ & [= ->])
                      |[(? & ? & ? & _ & _ & _ & _ & [=])
                       |(? & ? & ? & ? & ? & _ & [=] & _)]].
    by eexists _, _, _.
Qed.

End EndingFacts.

Lemma game_requests_go_to_the_mover_witness :
  let run := Bench2.play 4 Toy.slowWhite in
  let world' := Toy.worldOf run (Toy.start Toy.slowWhite) in
  ∃ game,
    exchanges world'
    = exchanges (@Toy.start (Toy.engine 4) Toy.slowWhite) ++ game
    ∧ Forall (fun exchange =>
                r_bot exchange.1 = playerOf Toy.players (r_turn exchange.1))
        game.
Proof.
  intros run world'.
  apply (@game_requests_go_to_the_mover (Toy.engine 4)
           (Toy.network Toy.slowWhite) (fun _ => EmptyString) 100
           Toy.players "silversuite/001-open.pgn"
           (Toy.start Toy.slowWhite) (Toy.resultOf run) world').
  vm_compute. reflexivity.
Defined.

Lemma finished_game_records_every_move_witness :
  let run := Bench2.play 4 Bench2.bothPass in
  let outcome := Toy.outcomeOf run in
  ∃ texts final current,
    @replay (Toy.engine 4) [] texts
    = Some (map chessMove (o_moves outcome), final)
    ∧ o_pgn outcome = @pgn (Toy.engine 4) final
    ∧ @isGameOver (Toy.engine 4) final = true
    ∧ @lastMover (Toy.engine 4) [] texts white = Some current
    ∧ ∀ winner, o_verdict outcome = WIN_CHECKMATE winner ->
                winner = playerOf Toy.players current.
Proof.
  intros run outcome.
  apply (@finished_game_records_every_move (Toy.engine 4)
           (Toy.network Bench2.bothPass) (fun _ => EmptyString) 100
           Toy.players "silversuite/001-open.pgn"
           (Toy.start Bench2.bothPass) outcome
           (Toy.worldOf run (Toy.start Bench2.bothPass))).
  - vm_compute. reflexivity.
  - vm_compute. intros [].
Defined.

Lemma exhausted_turn_forfeit_witness :
  let run := Bench2.play 4 Toy.silentBlack in
  let outcome := Toy.outcomeOf run in
  let world' := Toy.worldOf run (Toy.start Toy.silentBlack) in
  ∃ texts final earlier attempts,
    @replay (Toy.engine 4) [] texts
    = Some (map chessMove (o_moves outcome), final)
    ∧ o_pgn outcome = @pgn (Toy.engine 4) final
    ∧ @isGameOver (Toy.engine 4) final = false
    ∧ "alice"
      = playerOf Toy.players
          (opponent (colourToPlayer (@turn (Toy.engine 4) final)))
    ∧ exchanges world'
      = exchanges (@Toy.start (Toy.engine 4) Toy.silentBlack)
        ++ earlier ++ attempts
    ∧ length attempts = 3
    ∧ Forall (fun exchange =>
                r_turn exchange.1
                = colourToPlayer (@turn (Toy.engine 4) final)
                ∧ r_fen exchange.1 = @fen (Toy.engine 4) final
                ∧ @failing (Toy.engine 4) final exchange) attempts
    ∧ [OUT_OF_MEMORY; OUT_OF_MEMORY; OUT_OF_MEMORY]
      = omap (@attemptError (Toy.engine 4) final) attempts
    ∧ length [OUT_OF_MEMORY; OUT_OF_MEMORY; OUT_OF_MEMORY] = 3.
Proof.
  intros run outcome world'.
  apply (@exhausted_turn_forfeit (Toy.engine 4)
           (Toy.network Toy.silentBlack) (fun _ => EmptyString) 100
           Toy.players "silversuite/001-open.pgn"
           (Toy.start Toy.silentBlack) outcome world').
  - vm_compute. reflexivity.
  - vm_compute. reflexivity.
Defined.

Lemma timeout_forfeit_needs_DOMException_witness :
  let run := Bench2.play 40 Toy.slowWhite in
  ¬ timeoutForfeit (Toy.resultOf run).
Proof.
  intros run.
  apply (@timeout_forfeit_needs_DOMException (Toy.engine 40)
           (Toy.network Toy.slowWhite) (fun _ => EmptyString) 100
           Toy.players "silversuite/001-open.pgn"
           (Toy.start Toy.slowWhite) (Toy.resultOf run)
           (Toy.worldOf run (Toy.start Toy.slowWhite))).
  - vm_compute. reflexivity.
  - apply (bool_decide_unpack _). vm_compute. exact I.
Defined.

Lemma fatal_error_names_last_exchange_witness :
  let run := Bench2.play 4 Toy.brokenBlack in
  let start := @Toy.start (Toy.engine 4) Toy.brokenBlack in
  let e := "Invalid response from bob as black: 500 boom" in
  e = "unknown game state"
  ∨ ∃ pre request status text,
      exchanges (Toy.worldOf run start)
      = exchanges start ++ pre ++ [(request, Responded false status text)]
      ∧ e = invalidResponseMessage (r_bot request) (r_turn request)
              (mkInvalidResponse text status).
Proof.
  intros run start e.
  apply (@fatal_error_names_last_exchange (Toy.engine 4)
           (Toy.network Toy.brokenBlack) (fun _ => EmptyString) 100
           Toy.players "silversuite/001-open.pgn" start e
           (Toy.worldOf run start)).
  vm_compute. reflexivity.
Defined.

Lemma unknown_game_state_unreachable_witness :
  ∃ name p response,
    "Invalid response from bob as black: 500 boom"
    = invalidResponseMessage name p response.
Proof.
  apply (@unknown_game_state_unreachable (Toy.engine 4)
           (Toy.network Toy.brokenBlack) (fun _ => EmptyString) 100
           Toy.players "silversuite/001-open.pgn"
           (Toy.start Toy.brokenBlack)
           "Invalid response from bob as black: 500 boom"
           (Toy.worldOf (Bench2.play 4 Toy.brokenBlack)
              (Toy.start Toy.brokenBlack))).
  - intros chess Hover. left. exact Hover.
  - vm_compute. reflexivity.
Defined.

(** ** One turn of a bot *)

Section TurnMore.

Context {engine : RulesEngine} {network : Network}.

(** X22. Within a turn every request quotes the position and the side of the
    turn and goes to the bot of that side, and every exchange that is
    followed by another request is a failed attempt: after a legal move or
    a response with a failing status nothing more is asked. *)
Theorem makeMove_stops_at_first_answer (chess : Chess) (players : Players)
    (world : World) res chess' world' :
  makeMove chess players world = (res, chess', world') ->
  ∃ new,
    exchanges world' = exchanges world ++ new
    ∧ Forall (fun exchange =>
                r_fen exchange.1 = fen chess
                ∧ r_turn exchange.1 = colourToPlayer (turn chess)
                ∧ r_bot exchange.1
                  = playerOf players (colourToPlayer (turn chess))) new
    ∧ ∀ i exchange, new !! i = Some exchange -> S i < length new ->
                    failing chess exchange.
Proof.
  unfold makeMove. intros Hrun.
  apply makeMove_while_spec in Hrun
    as (new & Hlog & _ & _ & _ & Hreq & Hres).
  exists new. split; [done|]. split.
  - apply Forall_lookup. intros i ex Hi. by rewrite (Hreq i ex Hi).
  - assert (Hpre : ∃ pre last, (new = pre ++ last ∧ length last ≤ 1)
                               ∧ Forall (failing chess) pre).
    { destruct res as [[[m|] p errs]|e]; simpl in Hres.
      - destruct Hres as (_ & _ & pre & rq & st & tx & -> & Hpre & _).
        exists pre, [(rq, Responded true st tx)].
        split; [split; [done|simpl; lia]|done].
      - destruct Hres as (_ & _ & _ & _ & Hall).
        exists new, []. rewrite app_nil_r.
        split; [split; [done|simpl; lia]|done].
      - destruct Hres as (_ & pre & rq & st & tx & -> & Hpre & _).
        exists pre, [(rq, Responded false st tx)].
        split; [split; [done|simpl; lia]|done]. }
    destruct Hpre as (pre & last & [-> Hlast] & Hpre).
    intros i ex Hi Hlt. rewrite length_app in Hlt.
    rewrite lookup_app_l in Hi by lia.
    by eapply Forall_lookup_1.
Qed.

End TurnMore.

Lemma makeMove_stops_at_first_answer_witness :
  let world := @Toy.start (Toy.engine 4) Toy.stubbornWhite in
  let run := @makeMove (Toy.engine 4) (Toy.network Toy.stubbornWhite) []
               Toy.players world in
  ∃ new,
    exchanges run.2 = exchanges world ++ new
    ∧ Forall (fun exchange =>
                r_fen exchange.1 = @fen (Toy.engine 4) []
                ∧ r_turn exchange.1
                  = colourToPlayer (@turn (Toy.engine 4) [])
                ∧ r_bot exchange.1
                  = playerOf Toy.players
                      (colourToPlayer (@turn (Toy.engine 4) []))) new
    ∧ ∀ i exchange, new !! i = Some exchange -> S i < length new ->
                    @failing (Toy.engine 4) [] exchange.
Proof.
  intros world run.
  apply (@makeMove_stops_at_first_answer (Toy.engine 4)
           (Toy.network Toy.stubbornWhite) [] Toy.players world
           run.1.1 run.1.2 run.2).
  vm_compute. reflexivity.
Defined.

(** ** The order of the standings *)

Section StandingsOrder.

Context {M : Type}.

Implicit Types (outcome : GameOutcome M) (outcomes : list (GameOutcome M)).

Lemma insertByPoints_descending a (sorted : list PointTotals) :
  descending sorted -> descending (insertByPoints a sorted).
Proof.
  induction sorted as [|b sorted IH]; simpl; [done|].
  intros [Hall Hsorted].
  destruct (Qle_bool (points b) (points a)) eqn:Hle; simpl.
  - apply Qle_bool_iff in Hle. split; [|done].
    constructor; [done|].
    eapply Forall_impl; [exact Hall|]. intros c Hc. simpl in Hc.
    by apply Qle_trans with (points b).
  - split; [|by apply IH].
    rewrite insertByPoints_perm. constructor; [|done].
    apply Qlt_le_weak, Qnot_le_lt. intros Hle'.
    apply Qle_bool_iff in Hle'. by rewrite Hle' in Hle.
Qed.

Lemma toSorted_descending (l : list PointTotals) : descending (toSorted l).
Proof.
  induction l as [|a l IH]; simpl; [done|].
  by apply insertByPoints_descending.
Qed.

Lemma descending_lookup (l : list PointTotals) i j a b :
  descending l -> i < j -> l !! i = Some a -> l !! j = Some b ->
  (points b <= points a)%Q.
Proof.
  revert i j. induction l as [|c l IH]; intros i j Hd Hlt Hi Hj; [done|].
  destruct Hd as [Hall Hl].
  destruct j as [|j]; [lia|]. simpl in Hj. destruct i as [|i].
  - injection Hi as ->. rewrite Forall_forall in Hall.
    by eapply Hall, list_elem_of_lookup_2.
  - simpl in Hi. eapply (IH i j); [done|lia|done|done].
Qed.

Lemma insertByPoints_filter q a (sorted : list PointTotals) :
  filter (fun t => (points t == q)%Q) (insertByPoints a sorted)
  = filter (fun t => (points t == q)%Q) (a :: sorted).
Proof.
  induction sorted as [|b sorted IH]; simpl; [done|].
  destruct (Qle_bool (points b) (points a)) eqn:Hle; [done|].
  rewrite filter_cons, IH, !filter_cons.
  destruct (decide (points a == q)%Q) as [Ha|Ha];
    destruct (decide (points b == q)%Q) as [Hb|Hb]; try done.
  exfalso. rewrite <- Hb in Ha.
  assert (Qle_bool (points b) (points a) = true); [|congruence].
  apply Qle_bool_iff. rewrite Ha. apply Qle_refl.
Qed.

Lemma toSorted_filter q (l : list PointTotals) :
  filter (fun t => (points t == q)%Q) (toSorted l)
  = filter (fun t => (points t == q)%Q) l.
Proof.
  induction l as [|a l IH]; simpl; [done|].
  by rewrite insertByPoints_filter, !filter_cons, IH.
Qed.

Lemma noteName_ensure name totals :
  map fst (ensureTotals name totals) = noteName (map fst totals) name.
Proof.
  unfold ensureTotals, totalsAt, memberOf, noteName.
  destruct (ownTotals name totals) eqn:Hl.
  - rewrite (bool_decide_true (name ∈ map fst totals)), orb_true_r; [done|].
    destruct (decide (name ∈ map fst totals)) as [|Hn]; [done|].
    apply ownTotals_None in Hn. congruence.
  - apply ownTotals_None in Hl. rewrite (bool_decide_false _ Hl), orb_false_r.
    destruct (inherited name); [done|]. by rewrite map_app.
Qed.

Lemma countOutcome_keys totals outcome :
  map fst (countOutcome totals outcome)
  = noteName (noteName (map fst totals) (pl_white (o_players outcome)))
      (pl_black (o_players outcome)).
Proof.
  unfold countOutcome.
  destruct (verdictType (o_verdict outcome)); [case_bool_decide|];
    by rewrite !updateTotals_keys, !noteName_ensure.
Qed.

Lemma counted_keys outcomes :
  map fst (foldl countOutcome [] outcomes) = inOrderOfAppearance outcomes.
Proof.
  unfold inOrderOfAppearance.
  induction outcomes as [|outcome outcomes IH] using rev_ind; [done|].
  by rewrite !foldl_snoc, countOutcome_keys, IH.
Qed.

Lemma ensureTotals_named name totals :
  Forall (fun entry => bot entry.2 = entry.1) totals ->
  Forall (fun entry => bot entry.2 = entry.1) (ensureTotals name totals).
Proof.
  intros Hall. unfold ensureTotals. destruct (totalsAt name totals);
    [done|done|]. apply Forall_app. split; [done|]. by constructor.
Qed.

Lemma updateTotals_named f name totals :
  (∀ t, bot (f t) = bot t) ->
  Forall (fun entry => bot entry.2 = entry.1) totals ->
  Forall (fun entry => bot entry.2 = entry.1) (updateTotals f name totals).
Proof.
  intros Hf. induction 1 as [|[key t] totals Ht Hall IH]; simpl; [done|].
  case_bool_decide; constructor; simpl in *; try done. by rewrite Hf.
Qed.

Lemma counted_named outcomes :
  Forall (fun entry => bot entry.2 = entry.1)
    (foldl countOutcome [] outcomes).
Proof.
  induction outcomes as [|outcome outcomes IH] using rev_ind; [done|].
  rewrite foldl_snoc. unfold countOutcome.
  destruct (verdictType (o_verdict outcome)); [case_bool_decide|];
    repeat first [apply updateTotals_named; [by intros []|]
                 |apply ensureTotals_named]; done.
Qed.

Lemma insertByIndex_map {A B : Type} (f : A -> B) (key : B -> string) a
    (l : list A) :
  map f (insertByIndex (fun x => key (f x)) a l)
  = insertByIndex key (f a) (map f l).
Proof.
  induction l as [|b l IH]; simpl; [done|].
  destruct (_ <=? _)%N; simpl; [done|]. by rewrite IH.
Qed.

Lemma filter_map {A B : Type} (f : A -> B) (P : B -> Prop)
    `{∀ y, Decision (P y)} (l : list A) :
  map f (filter (fun x => P (f x)) l) = filter P (map f l).
Proof.
  induction l as [|a l IH]; simpl; [done|].
  rewrite !filter_cons. case_decide; simpl; by rewrite IH.
Qed.

Lemma ownPropertyOrder_map {A B : Type} (f : A -> B) (key : B -> string)
    (l : list A) :
  map f (ownPropertyOrder (fun x => key (f x)) l)
  = ownPropertyOrder key (map f l).
Proof.
  unfold ownPropertyOrder. rewrite map_app. f_equal.
  - rewrite <- (filter_map f (fun y => is_Some (arrayIndex (key y)))).
    induction (filter _ l) as [|a l' IH]; simpl; [done|].
    by rewrite insertByIndex_map, IH.
  - by rewrite <- (filter_map f (fun y => ¬ is_Some (arrayIndex (key y)))).
Qed.

Lemma ownPropertyOrder_plain {A : Type} (key : A -> string) (l : list A) :
  Forall (fun a => arrayIndex (key a) = None) l ->
  ownPropertyOrder key l = l.
Proof.
  intros Hall. unfold ownPropertyOrder.
  assert (filter (fun a => is_Some (arrayIndex (key a))) l = []) as ->.
  { induction Hall as [|a l Ha _ IH]; [done|].
    rewrite filter_cons, decide_False; [done|]. rewrite Ha. by intros [? ?]. }
  simpl. induction Hall as [|a l Ha _ IH]; [done|].
  rewrite filter_cons, decide_True; [by rewrite IH|].
  rewrite Ha. by intros [? ?].
Qed.

(** X23. The standings are in order of points, highest first, and bots with
    the same points stay in the order in which [Object.values] lists their
    entries: the bots whose names are array indices first, in ascending
    numeric order, then the other bots in the order in which the outcomes
    first name them; when no name is an array index this is the order of
    first appearance. *)
Theorem calculatePoints_order outcomes :
  (∀ i j a b, i < j -> calculatePoints outcomes !! i = Some a ->
              calculatePoints outcomes !! j = Some b ->
              (points b <= points a)%Q)
  ∧ (∀ q, sublist
            (map bot (filter (fun t => (points t == q)%Q)
                        (calculatePoints outcomes)))
            (ownPropertyOrder (fun name => name)
               (inOrderOfAppearance outcomes)))
  ∧ (Forall (fun name => arrayIndex name = None)
       (inOrderOfAppearance outcomes) ->
     ∀ q, sublist
            (map bot (filter (fun t => (points t == q)%Q)
                        (calculatePoints outcomes)))
            (inOrderOfAppearance outcomes)).
Proof.
  assert (Hties : ∀ q, sublist
            (map bot (filter (fun t => (points t == q)%Q)
                        (calculatePoints outcomes)))
            (ownPropertyOrder (fun name => name)
               (inOrderOfAppearance outcomes))).
  { intros q. unfold calculatePoints, objectValues.
    rewrite toSorted_filter, <- counted_keys.
    rewrite <- (ownPropertyOrder_map fst (fun name => name)).
    pose proof (counted_named outcomes) as Hnamed.
    rewrite <- (ownPropertyOrder_perm fst) in Hnamed.
    change (ownPropertyOrder (fun x => x.1) ?l)
      with (ownPropertyOrder fst l).
    induction (ownPropertyOrder fst (foldl countOutcome [] outcomes))
      as [|[key t] totals IH]; simpl; [done|].
    apply Forall_cons in Hnamed as [Hbot Hnamed]. simpl in Hbot.
    rewrite filter_cons. destruct (decide (points t == q)%Q); simpl.
    - rewrite Hbot. by apply sublist_skip, IH.
    - by apply sublist_cons, IH. }
  split; [|split; [exact Hties|]].
  - unfold calculatePoints. intros i j a b.
    apply descending_lookup, toSorted_descending.
  - intros Hplain q. rewrite <- (ownPropertyOrder_plain _ _ Hplain).
    apply Hties.
Qed.

End StandingsOrder.

Lemma calculatePoints_order_witness :
  let outcomes : list (GameOutcome unit) :=
    [mkOutcome (mkPlayers "10" "2") EmptyString 0 [] (DRAW STALEMATE);
     mkOutcome (mkPlayers "bob" "alice") EmptyString 0 [] (DRAW STALEMATE)] in
  sublist
    (map bot (filter (fun t => (points t == 1 # 2)%Q)
                (calculatePoints outcomes)))
    ["2"; "10"; "bob"; "alice"].
Proof.
  intros outcomes.
  destruct (calculatePoints_order outcomes) as (_ & Hties & _).
  exact (Hties (1 # 2)%Q).
Defined.

(** ** The CSV file of the standings *)

Section Csv.

Context (memberText : string -> string).

Lemma join_cons sep s t array :
  join sep (s :: t :: array) = s +:+ String sep (join sep (t :: array)).
Proof. reflexivity. Qed.

Lemma split_join sep (array : list string) :
  array ≠ [] -> Forall (fun s => occurs sep s = false) array ->
  split sep (join sep array) = array.
Proof.
  induction array as [|s array IH]; [done|]. intros _ Hall.
  apply Forall_cons in Hall as [Hs Hall].
  destruct array as [|t array]; [by apply split_free|].
  rewrite join_cons, split_append, (split_free _ _ Hs), IH by done. done.
Qed.

Lemma occurs_join c sep (array : list string) :
  c ≠ sep -> Forall (fun s => occurs c s = false) array ->
  occurs c (join sep array) = false.
Proof.
  intros Hc. induction array as [|s array IH]; [done|]. intros Hall.
  apply Forall_cons in Hall as [Hs Hall].
  destruct array as [|t array]; [done|].
  rewrite join_cons, occurs_append, Hs.
  change (occurs c (String sep ?s)) with (bool_decide (sep = c) || occurs c s).
  rewrite bool_decide_false by (by intros ->). by rewrite IH.
Qed.

Lemma field_cons header key value (obj : CsvObject) :
  field memberText header ((key, value) :: obj)
  = if bool_decide (key = header) then value
    else field memberText header obj.
Proof. unfold field. simpl. by case_bool_decide. Qed.

Lemma field_values (obj : CsvObject) :
  NoDup (map fst obj) ->
  map (fun header => field memberText header obj) (map fst obj)
  = map snd obj.
Proof.
  induction obj as [|[key value] obj IH]; [done|]. simpl.
  intros [Hkey Hnd]%NoDup_cons.
  rewrite field_cons, bool_decide_true by done. f_equal.
  rewrite <- (IH Hnd). apply map_ext_in. intros header Hin.
  rewrite field_cons, bool_decide_false; [done|]. intros ->.
  by apply Hkey, list_elem_of_In.
Qed.

(** X24. The CSV file can be read back: when the first object has a key,
    every object has the keys of the first in the same order, and neither a
    key nor a value holds a comma or a line break, cutting the written
    content at the line breaks and each line at the commas gives the keys
    followed by the values of each object. *)
Theorem saveToCsv_reads_back (first : CsvObject) (rest : list CsvObject)
    (filePath : string) (files : gmap string string) :
  first ≠ [] ->
  NoDup (map fst first) ->
  Forall (fun obj => map fst obj = map fst first) rest ->
  Forall (Forall (fun entry => plain entry.1 ∧ plain entry.2))
    (first :: rest) ->
  ∃ content,
    saveToCsv memberText (first :: rest) filePath files
    = Ok (<[filePath := content]> files)
    ∧ map (split ",") (split newline content)
      = map fst first :: map (map snd) (first :: rest).
Proof.
  intros Hfirst Hnd Hkeys Hplain. eexists. split; [reflexivity|].
  assert (Hrows : ∀ obj, obj ∈ first :: rest ->
    map (fun header => field memberText header obj) (map fst first)
    = map snd obj).
  { intros obj [->|Hin]%elem_of_cons; [by apply field_values|].
    rewrite Forall_forall in Hkeys. rewrite <- (Hkeys obj Hin).
    apply field_values. by rewrite (Hkeys obj Hin). }
  assert (Hvalues : ∀ obj, obj ∈ first :: rest ->
    map snd obj ≠ []
    ∧ Forall (fun s => occurs "," s = false) (map snd obj)
    ∧ Forall (fun s => occurs newline s = false) (map snd obj)).
  { intros obj Hin. rewrite Forall_forall in Hplain.
    pose proof (Hplain obj Hin) as Hobj. split; [|split].
    - intros Hnil. apply Hfirst.
      assert (length (map fst obj) = length (map fst first)) as Hlen.
      { apply elem_of_cons in Hin as [->|Hin]; [done|].
        rewrite Forall_forall in Hkeys. by rewrite (Hkeys obj Hin). }
      rewrite !length_map in Hlen. apply (f_equal length) in Hnil.
      rewrite length_map in Hnil. apply length_zero_iff_nil.
      simpl in Hnil. lia.
    - apply Forall_fmap. eapply Forall_impl; [exact Hobj|].
      by intros entry (_ & [? _]).
    - apply Forall_fmap. eapply Forall_impl; [exact Hobj|].
      by intros entry (_ & [_ ?]). }
  assert (Hheaders :
    map fst first ≠ []
    ∧ Forall (fun s => occurs "," s = false) (map fst first)
    ∧ Forall (fun s => occurs newline s = false) (map fst first)).
  { apply Forall_cons in Hplain as [Hobj _]. split; [|split].
    - by destruct first.
    - apply Forall_fmap. eapply Forall_impl; [exact Hobj|].
      by intros entry ([? _] & _).
    - apply Forall_fmap. eapply Forall_impl; [exact Hobj|].
      by intros entry ([_ ?] & _). }
  set (rows := map _ (first :: rest)).
  assert (Hr : rows = map (fun obj => join "," (map snd obj)) (first :: rest)).
  { apply map_ext_in. intros obj Hin%list_elem_of_In.
    by rewrite (Hrows obj Hin). }
  rewrite Hr. clear Hr rows.
  rewrite split_join.
  - rewrite map_cons, split_join by apply Hheaders. f_equal.
    rewrite map_map. apply map_ext_in. intros obj Hin%list_elem_of_In.
    apply split_join; by apply Hvalues.
  - done.
  - constructor.
    + apply occurs_join; [done|apply Hheaders].
    + apply Forall_fmap, Forall_forall. intros obj Hin. simpl.
      apply occurs_join; [done|]. by apply Hvalues.
Qed.

(** X25. Given no object, [saveToCsv] fails with [No objects provided].
    Given objects of which the first has a key, and when no key of the
    first object and no field written holds a comma or a line break, the
    file is a table: one line for the keys of the first object and one line
    for each object, every line with as many fields as the first object has
    keys, also for an object that lacks some of these keys or has others. *)
Theorem saveToCsv_lines (filePath : string) (files : gmap string string) :
  saveToCsv memberText [] filePath files = Error "No objects provided"
  ∧ ∀ (first : CsvObject) (rest : list CsvObject),
      first ≠ [] ->
      Forall plain (map fst first) ->
      Forall (fun obj =>
                Forall (fun header => plain (field memberText header obj))
                  (map fst first)) (first :: rest) ->
      ∃ content,
        saveToCsv memberText (first :: rest) filePath files
        = Ok (<[filePath := content]> files)
        ∧ length (split newline content) = S (length (first :: rest))
        ∧ Forall (fun line => length (split "," line) = length first)
            (split newline content).
Proof.
  split; [done|]. intros first rest Hfirst Hkeys Hfields.
  set (headers := map fst first) in *.
  assert (Hne : headers ≠ []) by (by destruct first).
  set (parts := fun obj : CsvObject =>
                  map (fun header => field memberText header obj) headers).
  assert (Hparts : ∀ obj, obj ∈ first :: rest ->
    parts obj ≠ [] ∧ length (parts obj) = length first
    ∧ Forall (fun s => occurs "," s = false) (parts obj)
    ∧ Forall (fun s => occurs newline s = false) (parts obj)).
  { intros obj Hin. rewrite Forall_forall in Hfields.
    pose proof (Hfields obj Hin) as Hobj. unfold parts.
    split; [by destruct headers|].
    split; [unfold headers; by rewrite !length_map|].
    split; apply Forall_fmap; (eapply Forall_impl; [exact Hobj|]);
      by intros header [? ?]. }
  assert (Hlines :
    split newline
      (join newline
         (join "," headers
          :: map (fun obj => join "," (parts obj)) (first :: rest)))
    = join "," headers
      :: map (fun obj => join "," (parts obj)) (first :: rest)).
  { apply split_join; [done|]. constructor.
    - apply occurs_join; [done|].
      eapply Forall_impl; [exact Hkeys|]. by intros header [_ ?].
    - apply Forall_fmap, Forall_forall. intros obj Hin. simpl.
      apply occurs_join; [done|]. by apply Hparts. }
  exists (join newline
            (join "," headers
             :: map (fun obj => join "," (parts obj)) (first :: rest))).
  split; [reflexivity|]. rewrite Hlines. split.
  - simpl. by rewrite length_map.
  - constructor.
    + rewrite split_join; [unfold headers; by rewrite length_map|done|].
      eapply Forall_impl; [exact Hkeys|]. by intros header [? _].
    + apply Forall_fmap, Forall_forall. intros obj Hin. simpl.
      destruct (Hparts obj Hin) as (Hp & Hlen & Hcomma & _).
      by rewrite split_join.
Qed.

End Csv.

Lemma saveToCsv_reads_back_witness :
  let alice := [("bot", "alice"); ("wins", "1"); ("points", "1.5")] in
  let bob := [("bot", "bob"); ("wins", "0"); ("points", "0.5")] in
  ∃ content,
    saveToCsv (fun _ => "[native code]") [alice; bob]
      "round-robin-results.csv" ∅
    = Ok (<["round-robin-results.csv" := content]> ∅)
    ∧ map (split ",") (split newline content)
      = map fst alice :: map (map snd) [alice; bob].
Proof.
  intros alice bob.
  apply (saveToCsv_reads_back (fun _ => "[native code]") alice [bob]
           "round-robin-results.csv" ∅).
  - discriminate.
  - compute_done.
  - vm_compute. repeat constructor.
  - vm_compute. repeat constructor.
Defined.

Lemma saveToCsv_lines_witness :
  let alice := [("bot", "alice"); ("wins", "1"); ("points", "1.5")] in
  let bob := [("bot", "bob"); ("elo", "1200"); ("points", "0.5")] in
  ∃ content,
    saveToCsv (fun _ => "[native code]") [alice; bob]
      "round-robin-results.csv" ∅
    = Ok (<["round-robin-results.csv" := content]> ∅)
    ∧ length (split newline content) = S (length [alice; bob])
    ∧ Forall (fun line => length (split "," line) = length alice)
        (split newline content).
Proof.
  intros alice bob.
  destruct (saveToCsv_lines (fun _ => "[native code]")
              "round-robin-results.csv" ∅) as [_ Htable].
  apply (Htable alice [bob]).
  - discriminate.
  - vm_compute. repeat constructor.
  - vm_compute. repeat constructor.
Defined.

(** ** [Result.partition] *)

Section Partition.

Context {T E : Type}.

Lemma partition_foldl (results : list (Result T E)) oks errs :
  foldl (fun acc result =>
           match result with
           | Ok data => (acc.1 ++ [data], acc.2)
           | Error error => (acc.1, acc.2 ++ [error])
           end)
    (oks, errs) results
  = (oks ++ omap (fun r => match r with Ok d => Some d | Error _ => None end)
              results,
     errs ++ omap (fun r => match r with Ok _ => None | Error e => Some e end)
               results).
Proof.
  revert oks errs. induction results as [|[d|e] results IH];
    intros oks errs; simpl.
  - by rewrite !app_nil_r.
  - by rewrite IH, <- app_assoc.
  - by rewrite IH, <- app_assoc.
Qed.

(** X26. [Result.partition] loses and invents nothing: the values and the
    errors it returns, wrapped again, are the results up to order, and each
    of the two lists keeps the order the results had. *)
Theorem partition_splits (results : list (Result T E)) :
  results ≡ₚ map Ok (partition results).1 ++ map Error (partition results).2
  ∧ sublist (map Ok (partition results).1) results
  ∧ sublist (map Error (partition results).2) results.
Proof.
  unfold partition. rewrite partition_foldl. simpl.
  induction results as [|[d|e] results (IHp & IHo & IHe)]; simpl.
  - done.
  - split; [by rewrite <- IHp|]. split; [by apply sublist_skip|].
    by apply sublist_cons.
  - split; [by rewrite <- Permutation_middle, <- IHp|].
    split; [by apply sublist_cons|by apply sublist_skip].
Qed.

End Partition.

(** ** Host ports *)

Section Ports.

Implicit Types (names : list string) (ports : gmap string Z).

Lemma setupPorts_counter names ports (port : Z) :
  (foldl (fun acc name =>
            (if bool_decide (name = "__proto__") then acc.1
             else <[name := acc.2]> acc.1,
             (acc.2 + 1)%Z))
     (ports, port) names).2
  = (port + Z.of_nat (length names))%Z.
Proof.
  revert ports port. induction names as [|n names IH]; intros ports port;
    simpl; [lia|]. rewrite IH. lia.
Qed.

Lemma setupPorts_snoc names n :
  setupPorts (names ++ [n])
  = if bool_decide (n = "__proto__") then setupPorts names
    else <[n := (8000 + Z.of_nat (length names))%Z]> (setupPorts names).
Proof.
  unfold setupPorts. rewrite foldl_snoc. simpl.
  by rewrite setupPorts_counter.
Qed.

Lemma setupPorts_unlisted names name :
  name ∉ names -> setupPorts names !! name = None.
Proof.
  induction names as [|n names IH] using rev_ind; [done|].
  rewrite not_elem_of_app, not_elem_of_cons. intros (Hnames & Hn & _).
  rewrite setupPorts_snoc. case_bool_decide; [by apply IH|].
  rewrite lookup_insert_ne by done. by apply IH.
Qed.

Lemma setupPorts_proto names : setupPorts names !! "__proto__" = None.
Proof.
  induction names as [|n names IH] using rev_ind; [done|].
  rewrite setupPorts_snoc. case_bool_decide as Hn; [done|].
  by rewrite lookup_insert_ne.
Qed.

(** X27. A bot is given the port 8000 plus the position of its name in the
    entries; when a name is entered more than once its last position
    counts. An entry named [__proto__] gets no port of its own, though it
    uses up a number: [PORTS["__proto__"]] stays the inherited member. For
    a name that is not entered [PORTS[name]] is the member of
    [Object.prototype] of that name when there is one, and [undefined]
    otherwise. *)
Theorem setupPorts_by_position names (i : nat) (name : string) :
  names !! i = Some name ->
  name ∉ drop (S i) names ->
  name ≠ "__proto__" ->
  portOf (setupPorts names) name = OwnMember (8000 + Z.of_nat i)%Z
  ∧ portOf (setupPorts names) "__proto__" = InheritedMember
  ∧ ∀ other, other ∉ names ->
             portOf (setupPorts names) other
             = if inherited other then InheritedMember else NoMember.
Proof.
  intros Hi Hlast Hname. unfold portOf, memberOf. split; [|split].
  - assert (setupPorts names !! name = Some (8000 + Z.of_nat i)%Z) as ->;
      [|done].
    revert Hi Hlast.
    induction names as [|n names IH] using rev_ind; [done|].
    intros Hi Hlast. rewrite setupPorts_snoc.
    destruct (decide (i = length names)) as [->|Hne].
    + rewrite list_lookup_middle in Hi by done. injection Hi as ->.
      rewrite bool_decide_false by done. by rewrite lookup_insert_eq.
    + assert (i < length names) as Hlt.
      { apply lookup_lt_Some in Hi. rewrite length_app in Hi. simpl in Hi.
        lia. }
      rewrite lookup_app_l in Hi by done.
      rewrite drop_app_le in Hlast by lia.
      rewrite not_elem_of_app, not_elem_of_cons in Hlast.
      destruct Hlast as (Hlast & Hn & _).
      case_bool_decide; [by apply IH|].
      rewrite lookup_insert_ne by done. by apply IH.
  - by rewrite setupPorts_proto.
  - intros other Hother. by rewrite setupPorts_unlisted.
Qed.

Lemma setupPorts_below names name (port : Z) :
  setupPorts names !! name = Some port ->
  (8000 <= port < 8000 + Z.of_nat (length names))%Z.
Proof.
  revert name port. induction names as [|n names IH] using rev_ind; [done|].
  intros name port. rewrite setupPorts_snoc, length_app. simpl.
  case_bool_decide; [intros Hp%IH; lia|].
  destruct (decide (n = name)) as [->|Hn].
  - rewrite lookup_insert_eq. intros [= <-]. lia.
  - rewrite lookup_insert_ne by done. intros Hp%IH. lia.
Qed.

(** X28. Bots with different names never share a port, and every port
    lies between 8000 and 8000 plus the number of entries. *)
Theorem setupPorts_distinct names (a b : string) (port port' : Z) :
  a ≠ b ->
  setupPorts names !! a = Some port ->
  setupPorts names !! b = Some port' ->
  port ≠ port' ∧ (8000 <= port < 8000 + Z.of_nat (length names))%Z.
Proof.
  intros Hab Ha Hb. split; [|by eapply setupPorts_below].
  revert Ha Hb. induction names as [|n names IH] using rev_ind; [done|].
  rewrite setupPorts_snoc. case_bool_decide; [apply IH|].
  destruct (decide (n = a)) as [Hna|Hna].
  - rewrite Hna, lookup_insert_eq, lookup_insert_ne by done.
    intros [= <-] Hp%setupPorts_below. lia.
  - rewrite (lookup_insert_ne _ n a) by done.
    destruct (decide (n = b)) as [Hnb|Hnb].
    + rewrite Hnb, lookup_insert_eq.
      intros Hp%setupPorts_below [= <-]. lia.
    + rewrite lookup_insert_ne by done. apply IH.
Qed.

End Ports.

Lemma setupPorts_by_position_witness :
  let names := ["ada"; "__proto__"; "ada"; "cy"] in
  portOf (setupPorts names) "ada" = OwnMember (8000 + Z.of_nat 2)%Z
  ∧ portOf (setupPorts names) "__proto__" = InheritedMember
  ∧ ∀ other, other ∉ names ->
             portOf (setupPorts names) other
             = if inherited other then InheritedMember else NoMember.
Proof.
  intros names.
  apply (setupPorts_by_position names 2 "ada").
  - reflexivity.
  - compute_done.
  - discriminate.
Defined.

Lemma setupPorts_distinct_witness :
  8000%Z ≠ 8002%Z ∧ (8000 <= 8000 < 8000 + Z.of_nat 3)%Z.
Proof.
  apply (setupPorts_distinct ["ada"; "bo"; "cy"] "ada" "cy" 8000 8002).
  - discriminate.
  - vm_compute. reflexivity.
  - vm_compute. reflexivity.
Defined.
